(** * NEAR-Kotlin-RPC: schema repair and source rewrite scripts

    A shallow embedding of the three scripts under [scripts/]:
    - [fix_openapi_spec.py]: the four repair passes over the schema document;
    - [openapi_fixes.py]: endpoint collapsing and the per-file rewrite passes
      over generated Kotlin;
    - [convert_naming.py]: the naming conversion shared with [openapi_fixes.py].

    Text is the list of the bytes of its UTF-8 form.  The character classes
    [\s] and [\w], the white space of [strip] and the mappings [upper] and
    [lower] are those of Python on code points below 128: a byte above 127 is
    carried along as a symbol that is neither a letter, a digit nor white
    space.  [str.title], which the naming conversion applies to any text, is
    not cut down in this way: the conversion is given for every title-casing
    function that has the two properties of [str.title] stated with the class
    [Titling] below (the Unicode tables themselves are no part of the
    repository). *)

From Stdlib Require Import List Ascii ZArith NArith Lia Bool Arith.
From Stdlib Require Import Floats.SpecFloat.
Import ListNotations.

Set Warnings "-via-type-remapping,-via-type-mismatch".

(** ** Text *)

Definition str := list ascii.

Inductive str_lit := SNil | SCons (a : ascii) (s : str_lit).

Fixpoint lit_of_bytes (l : list Byte.byte) : str_lit :=
  match l with
  | nil => SNil
  | b :: t => SCons (ascii_of_byte b) (lit_of_bytes t)
  end.

Fixpoint bytes_of_lit (s : str_lit) : list Byte.byte :=
  match s with
  | SNil => nil
  | SCons a t => byte_of_ascii a :: bytes_of_lit t
  end.

Declare Scope str_scope.
Delimit Scope str_scope with str.
String Notation str lit_of_bytes bytes_of_lit
  (via str_lit mapping [[nil] => SNil, [cons] => SCons]) : str_scope.
Open Scope str_scope.
Open Scope list_scope.

(** The double quote and the line feed, which no literal spells. *)
Definition dq : ascii := ascii_of_nat 34.
Definition nl : ascii := ascii_of_nat 10.

Definition str_eqb (a b : str) : bool :=
  if list_eq_dec ascii_dec a b then true else false.

Definition code (c : ascii) : N := N_of_ascii c.

Definition in_range (lo hi : N) (c : ascii) : bool :=
  (lo <=? code c)%N && (code c <=? hi)%N.

Definition is_lower (c : ascii) : bool := in_range 97 122 c.
Definition is_upper (c : ascii) : bool := in_range 65 90 c.
Definition is_digit (c : ascii) : bool := in_range 48 57 c.
Definition is_alpha (c : ascii) : bool := is_lower c || is_upper c.

(** [\w] of the [re] module. *)
Definition is_word (c : ascii) : bool :=
  is_alpha c || is_digit c || Ascii.eqb c "_".

(** [\s] of the [re] module, and the white space of [str.strip]:
    TAB, LF, VT, FF, CR, the separators 28..31 and the space. *)
Definition is_space (c : ascii) : bool :=
  in_range 9 13 c || in_range 28 31 c || Ascii.eqb c " ".

Definition to_upper (c : ascii) : ascii :=
  if is_lower c then ascii_of_N (code c - 32) else c.

Definition to_lower (c : ascii) : ascii :=
  if is_upper c then ascii_of_N (code c + 32) else c.

(** [str.upper], [str.lower] *)
Definition upper (s : str) : str := map to_upper s.
Definition lower (s : str) : str := map to_lower s.

(** [str.title] on 7-bit text: a cased character is upper-cased when the
    character before it is not cased, and lower-cased when it is. *)
Fixpoint title_from (previous_is_cased : bool) (s : str) : str :=
  match s with
  | [] => []
  | c :: t =>
      (if previous_is_cased then to_lower c else to_upper c)
        :: title_from (is_alpha c) t
  end.

Definition title_7bit (s : str) : str := title_from false s.

(** A byte below 128: a character of the 7-bit set. *)
Definition is_7bit (c : ascii) : bool := (code c <? 128)%N.

(** [str.title] itself follows the case tables of the Unicode database of the
    interpreter.  What the scripts rely on is kept as a class: on 7-bit text
    it is [title_7bit], and it writes no underscore into a text that has
    none (no case mapping of a character other than the underscore yields an
    underscore, and the UTF-8 form of such a character holds no underscore
    byte). *)
Class Titling : Type := {
  title : str -> str;
  title_on_7bit :
    forall t, forallb is_7bit t = true -> title t = title_7bit t;
  title_writes_no_underscore :
    forall t, ~ In "_"%char t -> ~ In "_"%char (title t)
}.

(** [str.capitalize], the other reading of "capitalized". *)
Definition capitalize (s : str) : str :=
  match s with
  | [] => []
  | c :: t => to_upper c :: lower t
  end.

(** [str.split(sep)] for a one-character separator. *)
Fixpoint split_on (sep : ascii) (s : str) : list str :=
  match s with
  | [] => [[]]
  | c :: t =>
      if Ascii.eqb c sep then [] :: split_on sep t
      else match split_on sep t with
           | h :: r => (c :: h) :: r
           | [] => [[c]]
           end
  end.

(** [sep.join(parts)] *)
Fixpoint join (sep : str) (parts : list str) : str :=
  match parts with
  | [] => []
  | [p] => p
  | p :: rest => p ++ sep ++ join sep rest
  end.

(** [str.lstrip(chars)], [str.rstrip(chars)], [str.strip(chars)] for a
    character class. *)
Fixpoint lstrip_by (p : ascii -> bool) (s : str) : str :=
  match s with
  | [] => []
  | c :: t => if p c then lstrip_by p t else s
  end.

Definition rstrip_by (p : ascii -> bool) (s : str) : str :=
  rev (lstrip_by p (rev s)).

Definition strip_by (p : ascii -> bool) (s : str) : str :=
  rstrip_by p (lstrip_by p s).

Definition strip_slashes : str -> str := strip_by (fun c => Ascii.eqb c "/").
Definition strip : str -> str := strip_by is_space.
Definition lstrip : str -> str := lstrip_by is_space.

(** [s.startswith(p)] *)
Fixpoint startswith (p s : str) : bool :=
  match p, s with
  | [], _ => true
  | _ :: _, [] => false
  | a :: p', b :: s' => Ascii.eqb a b && startswith p' s'
  end.

(** [p in s] on two strings. *)
Fixpoint contains (p s : str) : bool :=
  startswith p s ||
  match s with
  | [] => false
  | _ :: t => contains p t
  end.

(** [s.replace(a, b)] for single characters. *)
Definition replace_char (a b : ascii) (s : str) : str :=
  map (fun c => if Ascii.eqb c a then b else c) s.

(** ** Naming conversion ([convert_naming.py] and [openapi_fixes.py] hold the
    same function) *)

Definition snake_to_camel {titling : Titling} (snake_str : str) : str :=
  let components := split_on "_" snake_str in
  hd [] components ++ concat (map title (tl components)).

(** ** The schema document

    What [json.load] returns: a tree of [None], booleans, integers, floats,
    strings, lists and insertion-ordered dictionaries with string keys.  The
    passes mutate the document in place; [json.load] builds a tree without
    sharing and every pass drops the object it takes a sub-object from, so a
    functional update of the tree is what the mutation does. *)

Unset Elimination Schemes.
Inductive json : Type :=
| JNull
| JBool (b : bool)
| JInt (n : Z)
| JFloat (f : spec_float)
| JStr (s : str)
| JArr (items : list json)
| JObj (entries : list (str * json)).
Set Elimination Schemes.

Definition dict := list (str * json).

Fixpoint dict_get (k : str) (d : dict) : option json :=
  match d with
  | [] => None
  | (k', v) :: t => if str_eqb k' k then Some v else dict_get k t
  end.

Definition dict_has (k : str) (d : dict) : bool :=
  match dict_get k d with Some _ => true | None => false end.

(** [d[k] = v]: an existing key keeps its place, a new one goes last. *)
Fixpoint dict_set (k : str) (v : json) (d : dict) : dict :=
  match d with
  | [] => [(k, v)]
  | (k', v') :: t =>
      if str_eqb k' k then (k, v) :: t else (k', v') :: dict_set k v t
  end.

(** [del d[k]] *)
Definition dict_del (k : str) (d : dict) : dict :=
  filter (fun e => negb (str_eqb (fst e) k)) d.

Definition keys (d : dict) : list str := map fst d.

(** Python truth value. *)
Definition truthy (v : json) : bool :=
  match v with
  | JNull => false
  | JBool b => b
  | JInt n => negb (n =? 0)%Z
  | JFloat (S754_zero _) => false
  | JFloat _ => true
  | JStr s => negb (str_eqb s [])
  | JArr l => match l with [] => false | _ => true end
  | JObj d => match d with [] => false | _ => true end
  end.

(** *** Exceptions

    A pass either returns or dies with an exception, which neither script
    catches: no output is then written.  [Unsupported] marks the one path
    the model does not follow (a non-string dictionary key, a [str()] of a
    float or a container). *)

Inductive error := TypeError | AttributeError | KeyError | Unsupported.

Inductive result (A : Type) : Type :=
| Ok (a : A)
| Err (e : error).
Arguments Ok {A} a.
Arguments Err {A} e.

Definition bind {A B} (m : result A) (f : A -> result B) : result B :=
  match m with
  | Ok a => f a
  | Err e => Err e
  end.

Notation "x <- m ;; k" := (bind m (fun x => k))
  (at level 61, m at next level, right associativity).
Notation "' p <- m ;; k" := (bind m (fun x => match x with p => k end))
  (at level 61, p pattern, m at next level, right associativity).

Fixpoint mapM {A B} (f : A -> result B) (l : list A) : result (list B) :=
  match l with
  | [] => Ok []
  | a :: t => b <- f a ;; r <- mapM f t ;; Ok (b :: r)
  end.

Fixpoint foldM {A S} (f : S -> A -> result S) (l : list A) (s : S) : result S :=
  match l with
  | [] => Ok s
  | a :: t => s' <- f s a ;; foldM f t s'
  end.

(** *** The operations of Python the passes use, with their exceptions *)

(** [obj.get(k, default)]: only a dictionary has [get]. *)
Definition py_get (obj : json) (k : str) (default : json) : result json :=
  match obj with
  | JObj d => Ok (match dict_get k d with Some v => v | None => default end)
  | _ => Err AttributeError
  end.

Definition is_str (s : str) (v : json) : bool :=
  match v with JStr s' => str_eqb s' s | _ => false end.

(** [k in obj] for a string [k]: key of a dictionary, element of a list,
    substring of a string. *)
Definition py_in (k : str) (obj : json) : result bool :=
  match obj with
  | JObj d => Ok (dict_has k d)
  | JArr l => Ok (existsb (is_str k) l)
  | JStr s => Ok (contains k s)
  | _ => Err TypeError
  end.

(** [obj[k]] for a string [k]. *)
Definition py_getitem (obj : json) (k : str) : result json :=
  match obj with
  | JObj d => match dict_get k d with Some v => Ok v | None => Err KeyError end
  | _ => Err TypeError
  end.

(** [len(obj)] *)
Definition py_len (obj : json) : result nat :=
  match obj with
  | JObj d => Ok (length d)
  | JArr l => Ok (length l)
  | JStr s => Ok (length s)
  | _ => Err TypeError
  end.

(** [for item in obj]: the elements of a list, the keys of a dictionary, the
    characters of a string. *)
Definition py_iter (obj : json) : result (list json) :=
  match obj with
  | JArr l => Ok l
  | JObj d => Ok (map (fun e => JStr (fst e)) d)
  | JStr s => Ok (map (fun c => JStr [c]) s)
  | _ => Err TypeError
  end.

(** [obj.items()] *)
Definition py_items (obj : json) : result dict :=
  match obj with
  | JObj d => Ok d
  | _ => Err AttributeError
  end.

(** The receiver of [split], [startswith] and [lower] has to be a string. *)
Definition py_as_str (v : json) : result str :=
  match v with
  | JStr s => Ok s
  | _ => Err AttributeError
  end.

(** [s.split('/')[-1]] *)
Definition last_segment (s : str) : str := last (split_on "/" s) [].

(** *** The table of named schemas *)

(** [spec.get('components', {}).get('schemas', {})], then [.items()]. *)
Definition schemas_of (spec : json) : result dict :=
  components <- py_get spec "components" (JObj []) ;;
  schemas <- py_get components "schemas" (JObj []) ;;
  py_items schemas.

(** The passes assign [schemas[name] = ...] on the dictionary that
    [schemas_of] found inside the document; a default [{}] is attached to
    nothing, and the loop over it assigns nothing. *)
Definition store_schemas (spec : json) (new : dict) : json :=
  match spec with
  | JObj d =>
      match dict_get "components" d with
      | Some (JObj c) =>
          match dict_get "schemas" c with
          | Some (JObj _) =>
              JObj (dict_set "components" (JObj (dict_set "schemas" (JObj new) c)) d)
          | _ => spec
          end
      | _ => spec
      end
  | _ => spec
  end.

(** [for name, schema in schemas.items(): schemas[name] = f(name, schema)] *)
Definition for_schemas (f : str -> json -> result json) (spec : json)
  : result json :=
  schemas <- schemas_of spec ;;
  new <- mapM (fun e => s <- f (fst e) (snd e) ;; Ok (fst e, s)) schemas ;;
  Ok (store_schemas spec new).

Definition string_schema (description : json) : json :=
  JObj [("type", JStr "string"); ("description", description)].

(** ** [fix_openapi_spec.py] *)

(** *** Pass 1: [fix_empty_schemas] *)

Definition empty_schema_fixes : dict :=
  [ ("AccountId", string_schema (JStr "NEAR Account Identifier"));
    ("CryptoHash", string_schema (JStr "Cryptographic hash"));
    ("PublicKey", string_schema (JStr "Public key"));
    ("FunctionArgs",
      JObj [("type", JStr "string"); ("format", JStr "byte");
            ("description", JStr "Base64-encoded function arguments")]);
    ("CreateAccountAction",
      JObj [("type", JStr "object");
            ("properties",
              JObj [("type",
                JObj [("type", JStr "string");
                      ("enum", JArr [JStr "CreateAccount"]);
                      ("default", JStr "CreateAccount")])]);
            ("required", JArr [JStr "type"])]);
    ("ShardId",
      JObj [("type", JStr "integer"); ("format", JStr "int64");
            ("description", JStr "Shard identifier")]);
    ("NearGas", string_schema (JStr "NEAR Gas amount"));
    ("AccountIdValidityRulesVersion",
      JObj [("type", JStr "integer");
            ("description", JStr "Account ID validity rules version")]);
    ("MutableConfigValue",
      JObj [("type", JStr "object");
            ("properties",
              JObj [("value", string_schema (JStr "Configuration value"))])]);
    ("RpcSplitStorageInfoRequest",
      JObj [("type", JStr "object");
            ("properties",
              JObj [("request_type",
                JObj [("type", JStr "string");
                      ("default", JStr "split_storage_info")])])]) ].

(** The keywords whose absence (or falsy value) makes a schema empty. *)
Definition shape_keywords : list str :=
  ["properties"; "enum"; "anyOf"; "oneOf"; "allOf"; "type"].

(** [not schema.get(k)] *)
Definition lacks (schema : json) (k : str) : result bool :=
  v <- py_get schema k JNull ;; Ok (negb (truthy v)).

(** [not schema.get('properties') and ... and not schema.get('type')] *)
Definition is_empty_schema (schema : json) : result bool :=
  flags <- mapM (lacks schema) shape_keywords ;;
  Ok (forallb (fun b => b) flags).

Definition default_fix (name : str) : json :=
  string_schema (JStr ("Auto-fixed empty schema for " ++ name)).

Definition fix_empty_schema (name : str) (schema : json) : result json :=
  empty <- is_empty_schema schema ;;
  if empty then
    if dict_has name empty_schema_fixes then
      Ok (match dict_get name empty_schema_fixes with
          | Some replacement => replacement
          | None => default_fix name
          end)
    else Ok (default_fix name)
  else Ok schema.

Definition fix_empty_schemas : json -> result json :=
  for_schemas fix_empty_schema.

(** *** Pass 2: [fix_anyof_schemas] *)

Definition block_id_schema (description : json) : json :=
  JObj [("type", JStr "object");
        ("description", description);
        ("properties",
          JObj [("block_hash", string_schema (JStr "Block hash"));
                ("block_height",
                  JObj [("type", JStr "integer"); ("format", JStr "int64");
                        ("description", JStr "Block height")])])].

(** One round of the loop that builds [properties] for a request schema. *)
Definition rpc_request_property (properties : dict) (item : json)
  : result dict :=
  has_ref <- py_in "$ref" item ;;
  if has_ref then
    r <- py_getitem item "$ref" ;;
    s <- py_as_str r ;;
    Ok (dict_set (lower (last_segment s)) item properties)
  else
    has_type <- py_in "type" item ;;
    if has_type then
      t <- py_get item "title" (JStr "value") ;;
      match t with
      | JStr k => Ok (dict_set k item properties)
      | JArr _ | JObj _ => Err TypeError
      | _ => Err Unsupported
      end
    else Ok properties.

(** [item != {'type': 'null'}] is false on exactly this dictionary. *)
Definition is_null_schema (item : json) : bool :=
  match item with
  | JObj ((k, JStr v) :: nil) => str_eqb k "type" && str_eqb v "null"
  | _ => false
  end.

(** The loop with [break]: the first item that is truthy and not the null
    schema. *)
Fixpoint first_non_null (items : list json) : option json :=
  match items with
  | [] => None
  | item :: t =>
      if truthy item && negb (is_null_schema item) then Some item
      else first_non_null t
  end.

Definition is_rpc_request (name : str) : bool :=
  contains "Rpc" name && contains "Request" name.

Definition fix_anyof_schema (name : str) (schema : json) : result json :=
  has <- py_in "anyOf" schema ;;
  if has then
    anyof_items <- py_getitem schema "anyOf" ;;
    if str_eqb name "BlockId" then
      d <- py_get schema "description" (JStr []) ;;
      Ok (block_id_schema d)
    else if is_rpc_request name then
      items <- py_iter anyof_items ;;
      properties <- foldM rpc_request_property items [] ;;
      if truthy (JObj properties) then
        d <- py_get schema "description" (JStr []) ;;
        Ok (JObj [("type", JStr "object"); ("description", d);
                  ("properties", JObj properties)])
      else Ok schema
    else
      n <- py_len anyof_items ;;
      if (0 <? n)%nat then
        items <- py_iter anyof_items ;;
        Ok (match first_non_null items with
            | Some item => item
            | None => schema
            end)
      else Ok schema
  else Ok schema.

Definition fix_anyof_schemas : json -> result json :=
  for_schemas fix_anyof_schema.

(** *** Pass 3: [fix_problematic_patterns] *)

Definition schema_ref_prefix : str := "#/components/schemas/".

(** The two [if]s of the loop body run one after the other on the schema the
    loop read; [names] are the keys of the table, which no pass changes. *)
Definition fix_problematic_pattern (names : list str) (name : str)
    (schema : json) : result json :=
  n <- py_len schema ;;
  only_description <-
    (if (n =? 1)%nat then py_in "description" schema else Ok false) ;;
  after_first <-
    (if only_description then
       d <- py_getitem schema "description" ;; Ok (string_schema d)
     else Ok schema) ;;
  has_ref <- py_in "$ref" schema ;;
  if has_ref then
    r <- py_getitem schema "$ref" ;;
    s <- py_as_str r ;;
    if startswith schema_ref_prefix s then
      let ref_name := last_segment s in
      if negb (existsb (str_eqb ref_name) names) then
        Ok (string_schema (JStr ("Reference to " ++ ref_name)))
      else Ok after_first
    else Ok after_first
  else Ok after_first.

Definition fix_problematic_patterns (spec : json) : result json :=
  schemas <- schemas_of spec ;;
  for_schemas (fix_problematic_pattern (keys schemas)) spec.

(** *** Pass 4: [remove_pattern_properties] *)

Definition pattern_key : str := "patternProperties".

(** [del obj['patternProperties']], then the recursion into what is left. *)
Fixpoint remove_pattern_props (obj : json) : json :=
  match obj with
  | JObj d =>
      JObj ((fix values (d : dict) : dict :=
               match d with
               | [] => []
               | (k, v) :: t =>
                   if str_eqb k pattern_key then values t
                   else (k, remove_pattern_props v) :: values t
               end) d)
  | JArr l => JArr (map remove_pattern_props l)
  | _ => obj
  end.

Definition remove_pattern_properties (spec : json) : json :=
  remove_pattern_props spec.

(** *** [main]: the four passes in order *)

Definition repair (spec : json) : result json :=
  s1 <- fix_empty_schemas spec ;;
  s2 <- fix_anyof_schemas s1 ;;
  s3 <- fix_problematic_patterns s2 ;;
  Ok (remove_pattern_properties s3).

(** ** [openapi_fixes.py]: [fix_openapi_spec] *)

(** [obj[k] = v] *)
Definition py_setitem (obj : json) (k : str) (v : json) : result json :=
  match obj with
  | JObj d => Ok (JObj (dict_set k v d))
  | _ => Err TypeError
  end.

(** *** Endpoint collapsing *)

Definition json_content (ref : str) : json :=
  JObj [("application/json", JObj [("schema", JObj [("$ref", JStr ref)])])].

(** The one operation of the synthetic path. *)
Definition jsonrpc_operation (all_methods : dict) : json :=
  JObj [("description", JStr "NEAR JSON-RPC endpoint");
        ("operationId", JStr "jsonrpc");
        ("x-methods", JObj all_methods);
        ("requestBody",
          JObj [("content", json_content "#/components/schemas/JsonRpcRequest")]);
        ("responses",
          JObj [("200",
            JObj [("description", JStr "Successful response");
                  ("content",
                    json_content "#/components/schemas/JsonRpcResponse")])])].

Definition collapsed_paths (all_methods : dict) : json :=
  JObj [("/", JObj [("post", jsonrpc_operation all_methods)])].

(** One round of the loop over [spec['paths'].items()]. *)
Definition collect_method (all_methods : dict) (e : str * json)
  : result dict :=
  let method_name := strip_slashes (fst e) in
  has_post <- py_in "post" (snd e) ;;
  if has_post then
    op <- py_getitem (snd e) "post" ;;
    Ok (dict_set method_name op all_methods)
  else Ok all_methods.

Definition collapse_paths (spec : json) : result json :=
  has_paths <- py_in "paths" spec ;;
  if has_paths then
    paths <- py_getitem spec "paths" ;;
    items <- py_items paths ;;
    all_methods <- foldM collect_method items [] ;;
    py_setitem spec "paths" (collapsed_paths all_methods)
  else Ok spec.

(** *** 1. Nullable types

    [obj['x-nullable'] = True] comes before the loop over [obj.items()], which
    then meets the new [True] and leaves it: the same as setting the key after
    the values were visited. *)
Fixpoint fix_nullable_types (obj : json) : json :=
  match obj with
  | JObj d =>
      let visited :=
        (fix values (d : dict) : dict :=
           match d with
           | [] => []
           | (k, v) :: t => (k, fix_nullable_types v) :: values t
           end) d in
      JObj (if dict_has "type" d && dict_has "nullable" d
               && truthy (match dict_get "nullable" d with
                          | Some v => v
                          | None => JNull
                          end)
            then dict_set "x-nullable" (JBool true) visited
            else visited)
  | JArr l => JArr (map fix_nullable_types l)
  | _ => obj
  end.

(** *** 2. Enum naming *)

Definition digit_char (n : nat) : ascii := ascii_of_nat (48 + n).

Fixpoint uint_str (d : Decimal.uint) : str :=
  match d with
  | Decimal.Nil => []
  | Decimal.D0 r => digit_char 0 :: uint_str r
  | Decimal.D1 r => digit_char 1 :: uint_str r
  | Decimal.D2 r => digit_char 2 :: uint_str r
  | Decimal.D3 r => digit_char 3 :: uint_str r
  | Decimal.D4 r => digit_char 4 :: uint_str r
  | Decimal.D5 r => digit_char 5 :: uint_str r
  | Decimal.D6 r => digit_char 6 :: uint_str r
  | Decimal.D7 r => digit_char 7 :: uint_str r
  | Decimal.D8 r => digit_char 8 :: uint_str r
  | Decimal.D9 r => digit_char 9 :: uint_str r
  end.

Definition nat_str (n : nat) : str := uint_str (Nat.to_uint n).

Definition int_str (n : Z) : str :=
  match Z.to_int n with
  | Decimal.Pos d => uint_str d
  | Decimal.Neg d => "-" ++ uint_str d
  end.

(** [str(val)] on what the model follows. *)
Definition py_str (val : json) : result str :=
  match val with
  | JStr s => Ok s
  | JInt n => Ok (int_str n)
  | JBool true => Ok "True"
  | JBool false => Ok "False"
  | JNull => Ok "None"
  | _ => Err Unsupported
  end.

(** [re.sub(r'[^a-zA-Z0-9_]', '_', str(val)).upper()] *)
Definition enum_varname (val : json) : result str :=
  s <- py_str val ;;
  Ok (upper (map (fun c => if is_word c then c else "_"%char) s)).

Definition add_enum_varnames (schema : json) : result json :=
  has_enum <- py_in "enum" schema ;;
  if has_enum then
    e <- py_getitem schema "enum" ;;
    vals <- py_iter e ;;
    names <- mapM enum_varname vals ;;
    py_setitem schema "x-enum-varnames" (JArr (map JStr names))
  else Ok schema.

Definition fix_enum_naming (spec : json) : result json :=
  has_components <- py_in "components" spec ;;
  if has_components then
    components <- py_getitem spec "components" ;;
    has_schemas <- py_in "schemas" components ;;
    if has_schemas then
      schemas <- py_getitem components "schemas" ;;
      items <- py_items schemas ;;
      new <- mapM (fun e => s <- add_enum_varnames (snd e) ;; Ok (fst e, s))
                  items ;;
      Ok (store_schemas spec new)
    else Ok spec
  else Ok spec.

(** *** 3. Missing descriptions *)

Fixpoint add_descriptions (obj : json) (path : str) : json :=
  match obj with
  | JObj d =>
      let visited :=
        (fix values (d : dict) : dict :=
           match d with
           | [] => []
           | (k, v) :: t =>
               (k, add_descriptions v
                     (match path with [] => k | _ => path ++ "." ++ k end))
                 :: values t
           end) d in
      JObj (if dict_has "properties" d && negb (dict_has "description" d)
            then dict_set "description"
                   (JStr ("Auto-generated type for " ++ path)) visited
            else visited)
  | JArr l =>
      JArr ((fix items (l : list json) (i : nat) : list json :=
               match l with
               | [] => []
               | item :: t =>
                   add_descriptions item (path ++ "[" ++ nat_str i ++ "]")
                     :: items t (S i)
               end) l 0%nat)
  | _ => obj
  end.

(** *** The whole of [fix_openapi_spec], between [json.load] and
    [json.dump] *)
Definition fix_openapi_spec (spec : json) : result json :=
  s1 <- collapse_paths spec ;;
  s2 <- fix_enum_naming (fix_nullable_types s1) ;;
  Ok (add_descriptions s2 []).

(** ** Regular expressions

    The patterns of the scripts use literals, character classes, sequence,
    alternation, greedy repetition, capture groups and [^] under
    [re.MULTILINE].  [rmatch] is the backtracking search of the [re] module
    on that fragment: alternatives left to right, a repetition as long as it
    can be first, the rest of the pattern as continuation. *)

Inductive re : Type :=
| Eps
| Chr (p : ascii -> bool)
| Lit (s : str)
| Seq (a b : re)
| Alt (a b : re)
| Star (a : re)
| Group (i : nat) (a : re)
| Bol.

Definition Plus (a : re) : re := Seq a (Star a).

Definition cat (l : list re) : re := fold_right Seq Eps l.

(** A position in the subject: the text before it (nearest character first),
    the text from it on, and the groups captured so far. *)
Record mstate : Type := MState {
  before : str;
  rest : str;
  groups : list (nat * str)
}.

Definition advance (st : mstate) : option mstate :=
  match rest st with
  | [] => None
  | c :: t => Some (MState (c :: before st) t (groups st))
  end.

Fixpoint eat (s : str) (st : mstate) : option mstate :=
  match s with
  | [] => Some st
  | c :: s' =>
      match rest st with
      | [] => None
      | c' :: t =>
          if Ascii.eqb c c' then eat s' (MState (c' :: before st) t (groups st))
          else None
      end
  end.

Definition at_line_start (st : mstate) : bool :=
  match before st with
  | [] => true
  | c :: _ => Ascii.eqb c nl
  end.

Definition capture (i : nat) (st st' : mstate) : mstate :=
  MState (before st') (rest st')
    ((i, firstn (length (rest st) - length (rest st')) (rest st))
       :: groups st').

(** A greedy repetition of [body]: one more round first, on the condition
    that the round consumed something, and the continuation when no further
    round leads to a match.  [fuel] bounds the rounds; a round consumes a
    character, so the length of the text left, plus one, is never used up. *)
Fixpoint star_loop (body : (mstate -> option mstate) -> mstate -> option mstate)
    (k : mstate -> option mstate) (fuel : nat) (st : mstate)
  : option mstate :=
  match fuel with
  | O => k st
  | S fuel' =>
      match body (fun st' =>
                    if (length (rest st') <? length (rest st))%nat
                    then star_loop body k fuel' st' else None) st with
      | Some m => Some m
      | None => k st
      end
  end.

Fixpoint rmatch (r : re) (k : mstate -> option mstate) (st : mstate)
  : option mstate :=
  match r with
  | Eps => k st
  | Chr p =>
      match rest st with
      | [] => None
      | c :: _ =>
          if p c then match advance st with Some st' => k st' | None => None end
          else None
      end
  | Lit s => match eat s st with Some st' => k st' | None => None end
  | Seq a b => rmatch a (rmatch b k) st
  | Alt a b =>
      match rmatch a k st with
      | Some m => Some m
      | None => rmatch b k st
      end
  | Star a => star_loop (rmatch a) k (S (length (rest st))) st
  | Group i a => rmatch a (fun st' => k (capture i st st')) st
  | Bol => if at_line_start st then k st else None
  end.

(** [match.group(i)] *)
Fixpoint group (i : nat) (gs : list (nat * str)) : str :=
  match gs with
  | [] => []
  | (j, s) :: t => if (i =? j)%nat then s else group i t
  end.

(** The pattern tried at the position after [before]. *)
Definition match_here (r : re) (before s : str) : option mstate :=
  rmatch r Some (MState before s []).

(** [re.sub(r, repl, content)] with a function [repl], which is given the
    text before the match and the groups.  A match is looked for at each
    position from the left; after a match of [n] characters the search goes
    on behind it ([skip] counts the characters still to step over). *)
Fixpoint sub_from (r : re) (repl : str -> list (nat * str) -> str)
    (before s : str) (skip : nat) : str :=
  match s with
  | [] =>
      match skip, match_here r before [] with
      | O, Some m => repl (rev before) (groups m)
      | _, _ => []
      end
  | c :: t =>
      match skip with
      | S n => sub_from r repl (c :: before) t n
      | O =>
          match match_here r before s with
          | Some m =>
              match (length s - length (rest m))%nat with
              | O => repl (rev before) (groups m)
                       ++ c :: sub_from r repl (c :: before) t 0
              | S n => repl (rev before) (groups m)
                         ++ sub_from r repl (c :: before) t n
              end
          | None => c :: sub_from r repl (c :: before) t 0
          end
      end
  end.

Definition re_sub (r : re) (repl : str -> list (nat * str) -> str)
    (content : str) : str :=
  sub_from r repl [] content 0.

Definition space : re := Chr is_space.
Definition word : re := Chr is_word.
Definition lower_letter : re := Chr is_lower.
Definition other_than (c : ascii) : re := Chr (fun x => negb (Ascii.eqb x c)).

(** ** [openapi_fixes.py]: the rewrite passes over one Kotlin file *)

(** *** [fix_imports] *)

Definition fix_imports (content : str) : str :=
  let content :=
    if contains "@Serializable" content
       && negb (contains "import kotlinx.serialization" content)
    then "import kotlinx.serialization.Serializable" ++ [nl] ++ content
    else content in
  if contains "@SerialName" content
     && negb (contains "import kotlinx.serialization.SerialName" content)
  then "import kotlinx.serialization.SerialName" ++ [nl] ++ content
  else content.

(** *** [fix_serialization_annotations] *)

(** [val\s+([a-z]+(?:_[a-z]+)+)\s*:] *)
Definition snake_property_pattern : re :=
  cat [Lit "val"; Plus space;
       Group 1 (Seq (Plus lower_letter)
                    (Plus (Seq (Lit "_") (Plus lower_letter))));
       Star space; Lit ":"].

Definition serial_name (name : str) : str :=
  "@SerialName(" ++ [dq] ++ name ++ [dq] ++ ")".

(** [replace_property]; [prefix] is [content[:match.start()]]. *)
Definition replace_property {titling : Titling} (prefix : str)
    (gs : list (nat * str)) : str :=
  let snake_name := group 1 gs in
  let camel_name := snake_to_camel snake_name in
  let last_line := last (split_on nl prefix) [] in
  if negb (contains "@SerialName" last_line) then
    let indent := (length last_line - length (lstrip last_line))%nat in
    let annotation := repeat " "%char indent ++ serial_name snake_name ++ [nl] in
    annotation ++ repeat " "%char indent ++ "val " ++ camel_name ++ ":"
  else "val " ++ camel_name ++ ":".

Definition fix_serialization_annotations {titling : Titling} (content : str)
  : str :=
  re_sub snake_property_pattern replace_property content.

(** *** [fix_nullable_types_kotlin] *)

(** [:\s*Optional<([^>]+)>] and [:\s*Array<([^>]+)>] *)
Definition generic_pattern (name : str) : re :=
  cat [Lit ":"; Star space; Lit name; Lit "<";
       Group 1 (Plus (other_than ">")); Lit ">"].

Definition fix_nullable_types_kotlin (content : str) : str :=
  let content :=
    re_sub (generic_pattern "Optional")
           (fun _ gs => ": " ++ group 1 gs ++ "?") content in
  re_sub (generic_pattern "Array")
         (fun _ gs => ": List<" ++ group 1 gs ++ ">") content.

(** *** [add_serializable_annotations] *)

(** [^(data\s+class\s+\w+)] and [^(enum\s+class\s+\w+)] under
    [re.MULTILINE] *)
Definition class_pattern (kind : str) : re :=
  cat [Bol; Group 1 (cat [Lit kind; Plus space; Lit "class"; Plus space;
                          Plus word])].

(** [(@Serializable\s*\n)+] *)
Definition marker_run_pattern : re :=
  Plus (Group 1 (cat [Lit "@Serializable"; Star space; Lit [nl]])).

Definition add_serializable_annotations (content : str) : str :=
  let mark := fun (_ : str) gs => "@Serializable" ++ [nl] ++ group 1 gs in
  let content := re_sub (class_pattern "data") mark content in
  let content := re_sub (class_pattern "enum") mark content in
  re_sub marker_run_pattern (fun _ _ => "@Serializable" ++ [nl]) content.

(** *** [fix_enum_serialization] *)

(** [enum\s+class\s+(\w+)[^{]*\{([^}]+)\}] *)
Definition enum_pattern : re :=
  cat [Lit "enum"; Plus space; Lit "class"; Plus space;
       Group 1 (Plus word); Star (other_than "{"); Lit "{";
       Group 2 (Plus (other_than "}")); Lit "}"].

(** One round of the loop over the values: [None] when the stripped value is
    empty. *)
Definition fix_enum_value (value : str) : option str :=
  let value := strip value in
  match value with
  | [] => None
  | _ =>
      if negb (contains "@SerialName" value) then
        let original := lower (replace_char "_" "-" value) in
        Some ("    " ++ serial_name original ++ [nl] ++ "    " ++ value)
      else Some ("    " ++ value)
  end.

Fixpoint fix_enum_values (values : list str) : list str :=
  match values with
  | [] => []
  | value :: t =>
      match fix_enum_value value with
      | Some fixed => fixed :: fix_enum_values t
      | None => fix_enum_values t
      end
  end.

Definition fix_enum (enum_name enum_body : str) : str :=
  let values := split_on "," (strip enum_body) in
  let values_str := join ("," ++ [nl]) (fix_enum_values values) in
  "enum class " ++ enum_name ++ " {" ++ [nl] ++ values_str ++ [nl] ++ "}".

Definition fix_enum_serialization (content : str) : str :=
  re_sub enum_pattern (fun _ gs => fix_enum (group 1 gs) (group 2 gs)) content.

(** *** [fix_api_client_paths] *)

(** [@(GET|POST|PUT|DELETE)\(Q([^Q]+)Q\)\s*\n\s*suspend fun (\w+)], where
    [Q] stands for the double quote *)
Definition http_call_pattern : re :=
  cat [Lit "@";
       Group 1 (Alt (Lit "GET") (Alt (Lit "POST") (Alt (Lit "PUT") (Lit "DELETE"))));
       Lit "("; Lit [dq]; Group 2 (Plus (other_than dq)); Lit [dq]; Lit ")";
       Star space; Lit [nl]; Star space; Lit "suspend fun ";
       Group 3 (Plus word)].

(** [interface\s+\w+Api\s*\{] *)
Definition api_interface_pattern : re :=
  cat [Lit "interface"; Plus space; Plus word; Lit "Api"; Star space; Lit "{"].

(** [retrofit\.create\(\w+Api::class\.java\)] *)
Definition retrofit_create_pattern : re :=
  cat [Lit "retrofit.create("; Plus word; Lit "Api::class.java)"].

Definition fix_api_client_paths (content : str) : str :=
  let content :=
    re_sub http_call_pattern (fun _ gs => "suspend fun " ++ group 3 gs)
           content in
  let content :=
    re_sub api_interface_pattern (fun _ _ => "interface NearJsonRpcApi {")
           content in
  re_sub retrofit_create_pattern
         (fun _ _ => "retrofit.create(NearJsonRpcApi::class.java)") content.

(** *** [fix_generated_kotlin]: what the loop does to the content of one
    file *)
Definition fix_generated_kotlin {titling : Titling} (content : str) : str :=
  let content := fix_imports content in
  let content := fix_serialization_annotations content in
  let content := fix_nullable_types_kotlin content in
  let content := add_serializable_annotations content in
  let content := fix_enum_serialization content in
  fix_api_client_paths content.

(** ** Observations on a document, for the statements below *)

(** Induction on a document: the sub-documents of a list are its items, those
    of a dictionary its values. *)
Section JsonInduction.
Variable P : json -> Prop.
Hypothesis P_null : P JNull.
Hypothesis P_bool : forall b, P (JBool b).
Hypothesis P_int : forall n, P (JInt n).
Hypothesis P_float : forall f, P (JFloat f).
Hypothesis P_str : forall s, P (JStr s).
Hypothesis P_arr : forall l, Forall P l -> P (JArr l).
Hypothesis P_obj : forall d, Forall (fun e => P (snd e)) d -> P (JObj d).

Fixpoint json_ind (v : json) : P v :=
  match v with
  | JNull => P_null
  | JBool b => P_bool b
  | JInt n => P_int n
  | JFloat f => P_float f
  | JStr s => P_str s
  | JArr l =>
      P_arr l ((fix items (l : list json) : Forall P l :=
                  match l with
                  | [] => Forall_nil _
                  | x :: t => Forall_cons x (json_ind x) (items t)
                  end) l)
  | JObj d =>
      P_obj d ((fix values (d : dict) : Forall (fun e => P (snd e)) d :=
                  match d with
                  | [] => Forall_nil _
                  | e :: t =>
                      @Forall_cons _ (fun e => P (snd e)) e t
                        (json_ind (snd e)) (values t)
                  end) d)
  end.
End JsonInduction.

(** A way down a document: by key through a dictionary, by index through a
    list. *)
Inductive step : Type :=
| Key (k : str)
| Idx (i : nat).

Fixpoint at_path (p : list step) (v : json) : option json :=
  match p with
  | [] => Some v
  | Key k :: p' =>
      match v with
      | JObj d =>
          match dict_get k d with
          | Some x => at_path p' x
          | None => None
          end
      | _ => None
      end
  | Idx i :: p' =>
      match v with
      | JArr l =>
          match nth_error l i with
          | Some x => at_path p' x
          | None => None
          end
      | _ => None
      end
  end.

Definition is_key (k : str) (s : step) : bool :=
  match s with
  | Key k' => str_eqb k' k
  | Idx _ => false
  end.

(** Some dictionary, at whatever depth, has the key [patternProperties]. *)
Fixpoint has_pattern_key (v : json) : bool :=
  match v with
  | JObj d =>
      (fix any (d : dict) : bool :=
         match d with
         | [] => false
         | (k, x) :: t => str_eqb k pattern_key || has_pattern_key x || any t
         end) d
  | JArr l =>
      (fix any (l : list json) : bool :=
         match l with
         | [] => false
         | x :: t => has_pattern_key x || any t
         end) l
  | _ => false
  end.

(** [f] applied to the values of a dictionary. *)
Definition map_values (f : json -> json) (d : dict) : dict :=
  map (fun e => (fst e, f (snd e))) d.

(** The schema is a dictionary with the key [k]. *)
Definition carries (k : str) (schema : json) : bool :=
  match schema with
  | JObj d => dict_has k d
  | _ => false
  end.

(** The name a node refers to, when the node is a dictionary whose [$ref] is
    a string into the table of named schemas. *)
Definition ref_target (node : json) : option str :=
  match node with
  | JObj d =>
      match dict_get "$ref" d with
      | Some (JStr s) =>
          if startswith schema_ref_prefix s then Some (last_segment s)
          else None
      | _ => None
      end
  | _ => None
  end.

Definition dangling (names : list str) (node : json) : bool :=
  match ref_target node with
  | Some name => negb (existsb (str_eqb name) names)
  | None => false
  end.

(** Some node, at whatever depth, refers to a name that is not in [names]. *)
Fixpoint has_dangling_ref (names : list str) (v : json) : bool :=
  dangling names v ||
  match v with
  | JObj d =>
      (fix any (d : dict) : bool :=
         match d with
         | [] => false
         | (_, x) :: t => has_dangling_ref names x || any t
         end) d
  | JArr l =>
      (fix any (l : list json) : bool :=
         match l with
         | [] => false
         | x :: t => has_dangling_ref names x || any t
         end) l
  | _ => false
  end.

(** What the empty-schema pass puts in the place of an empty schema. *)
Definition replacement (name : str) : json :=
  match dict_get name empty_schema_fixes with
  | Some r => r
  | None => default_fix name
  end.

(** No match of [r] starts inside [pre] when [pre ++ s] follows [before]. *)
Fixpoint unmatched (r : re) (before pre s : str) : bool :=
  match pre with
  | [] => true
  | c :: t =>
      match match_here r before (pre ++ s) with
      | Some _ => false
      | None => unmatched r (c :: before) t s
      end
  end.

(** The method table of a collapsed document:
    [spec['paths']['/']['post']['x-methods']]. *)
Definition methods_of (spec : json) : result dict :=
  paths <- py_getitem spec "paths" ;;
  root <- py_getitem paths "/" ;;
  post <- py_getitem root "post" ;;
  methods <- py_getitem post "x-methods" ;;
  py_items methods.

(** The original path names, leading and trailing slashes stripped. *)
Definition path_names (spec : json) : result (list str) :=
  paths <- py_getitem spec "paths" ;;
  items <- py_items paths ;;
  Ok (map strip_slashes (keys items)).

(** The entries of the path table that define a [post] operation. *)
Definition posting (paths : dict) : dict :=
  filter (fun e => carries "post" (snd e)) paths.

(** The loop body of the collapsing step on a path item that is a
    dictionary. *)
Definition record_post (all_methods : dict) (e : str * json) : dict :=
  match snd e with
  | JObj item =>
      match dict_get "post" item with
      | Some op => dict_set (strip_slashes (fst e)) op all_methods
      | None => all_methods
      end
  | _ => all_methods
  end.

Definition get_only_document : json :=
  JObj [("paths", JObj [("/status", JObj [("get", JObj [("summary", JStr "s")])])])].

Definition account_id_document : json :=
  JObj [("components",
    JObj [("schemas",
      JObj [("AccountId", JObj []); ("Unknown", JObj [("title", JStr "u")])])])].


Definition two_path_document : json :=
  JObj [("openapi", JStr "3.0.0");
        ("paths",
          JObj [("/status", JObj [("post", JObj [("summary", JStr "s")])]);
                ("/health", JObj [("get", JObj [])])])].


(** An alternative of a request union that the rebuilding loop records: one
    with [$ref], or else with [type]. *)
Definition offers (item : json) : bool :=
  match py_in "$ref" item with
  | Ok true => true
  | _ => match py_in "type" item with
         | Ok true => true
         | _ => false
         end
  end.

Definition one_of_document : json :=
  JObj [("components",
    JObj [("schemas",
      JObj [("Payload",
              JObj [("oneOf", JArr [JObj [("type", JStr "string")];
                                    JObj [("type", JStr "integer")]])]);
            ("Nothing",
              JObj [("anyOf", JArr [JObj [("type", JStr "null")]])])])])].

Definition block_id_document : json :=
  JObj [("components",
    JObj [("schemas",
      JObj [("BlockId",
              JObj [("anyOf", JArr [JObj [("type", JStr "string")];
                                    JObj [("type", JStr "integer")]])]);
            ("RpcQueryRequest",
              JObj [("anyOf",
                      JArr [JObj [("$ref", JStr "#/components/schemas/ViewAccount")];
                            JObj [("type", JStr "object");
                                  ("title", JStr "by_hash")]])]);
            ("Finality",
              JObj [("anyOf", JArr [JObj [("type", JStr "null")];
                                    JObj [("type", JStr "string")]])])])])].

(** What the loop body does to one named schema. *)
Definition resolved (name : str) (schema schema' : json) : Prop :=
  (py_in "anyOf" schema = Ok false -> schema' = schema)
  /\ (forall anyof_items,
        py_in "anyOf" schema = Ok true ->
        py_getitem schema "anyOf" = Ok anyof_items ->
        (name = "BlockId" ->
           carries "anyOf" schema' = false /\ carries "properties" schema' = true)
        /\ (name <> "BlockId" -> is_rpc_request name = true ->
            forall items, py_iter anyof_items = Ok items ->
              (existsb offers items = true ->
                 carries "anyOf" schema' = false
                 /\ carries "properties" schema' = true)
              /\ (existsb offers items = false -> schema' = schema))
        /\ (name <> "BlockId" -> is_rpc_request name = false ->
            forall items, py_iter anyof_items = Ok items ->
              schema' = match first_non_null items with
                        | Some item => item
                        | None => schema
                        end)).


Definition nested_ref_document : json :=
  JObj [("components",
    JObj [("schemas",
      JObj [("Account",
              JObj [("type", JStr "object");
                    ("properties",
                      JObj [("owner",
                        JObj [("$ref", JStr "#/components/schemas/Missing")])])])])])].

Definition broken_ref_document : json :=
  JObj [("components",
    JObj [("schemas",
      JObj [("Owner",
              JObj [("type", JStr "object");
                    ("$ref", JStr "#/components/schemas/Missing")]);
            ("Alias",
              JObj [("type", JStr "object");
                    ("$ref", JStr "#/components/schemas/Owner")])])])].

(** A named schema that is nothing but a reference to an absent name. *)
Definition lost_ref_document : json :=
  JObj [("components",
    JObj [("schemas",
      JObj [("Lost", JObj [("$ref", JStr "#/components/schemas/Missing")])])])].

(** The same document with [schema] in the place of the reference. *)
Definition lost_ref_outcome (schema : json) : json :=
  JObj [("components", JObj [("schemas", JObj [("Lost", schema)])])].

Definition nested_union_document : json :=
  JObj [("components",
    JObj [("schemas",
      JObj [("Value",
              JObj [("anyOf",
                JArr [JObj [("anyOf", JArr [JObj [("type", JStr "string")]])]])])])])].

Definition status_document : json :=
  JObj [("paths",
    JObj [("/status", JObj [("post", JObj [("summary", JStr "Node status")])])])].

Definition plain_document : json :=
  JObj [("components",
    JObj [("schemas",
      JObj [("AccountId", JObj []);
            ("Note", JObj [("description", JStr "a note")]);
            ("Owner",
              JObj [("type", JStr "object");
                    ("$ref", JStr "#/components/schemas/Missing")])])])].

(** A named schema that neither the first nor the second pass rewrites and
    that holds no pattern keyword. *)
Definition settled (schema : json) : Prop :=
  is_empty_schema schema = Ok false
  /\ carries "anyOf" schema = false
  /\ has_pattern_key schema = false.


(** A word of a snake-case identifier as the property pattern reads it: one
    or more lower-case letters. *)
Definition lower_token (t : str) : Prop :=
  t <> [] /\ forallb is_lower t = true.

(** The tokens after the first, each behind its underscore. *)
Definition tail_text (ts : list str) : str :=
  concat (map (fun t => "_" ++ t) ts).

(** The text [r] does not go on with a character of the class [p]. *)
Definition stops (p : ascii -> bool) (r : str) : bool :=
  match r with
  | [] => true
  | c :: _ => negb (p c)
  end.

Definition underscore_word : re := Seq (Lit "_") (Plus lower_letter).



(** ** A file as [re.sub] goes through it *)

(** A match of the pattern, with the text between it and the match before
    (or the start of the file), and the groups it captures. *)
Record piece : Type := Piece {
  gap : str;
  matched : str;
  captured : list (nat * str)
}.

(** The file: gap, match, gap, match, ..., and the text behind the last
    match. *)
Fixpoint pieces_text (l : list piece) (tail : str) : str :=
  match l with
  | [] => tail
  | p :: t => gap p ++ matched p ++ pieces_text t tail
  end.

(** No match of [r] starts anywhere in [s], its end included, when [s]
    follows [before]. *)
Fixpoint quiet (r : re) (before s : str) : bool :=
  match match_here r before s with
  | Some _ => false
  | None =>
      match s with
      | [] => true
      | c :: t => quiet r (c :: before) t
      end
  end.

(** Behind the text [done]: no match starts inside a gap, and none in the
    tail. *)
Fixpoint spaced (r : re) (done : str) (l : list piece) (tail : str) : bool :=
  match l with
  | [] => quiet r (rev done) tail
  | p :: t =>
      unmatched r (rev done) (gap p) (matched p ++ pieces_text t tail)
      && spaced r (done ++ gap p ++ matched p) t tail
  end.

(** Behind the text [done]: each piece is matched where its gap ends, up to
    the next gap, with its groups. *)
Fixpoint met (r : re) (done : str) (l : list piece) (tail : str) : Prop :=
  match l with
  | [] => True
  | p :: t =>
      (matched p <> []
       /\ exists m,
            match_here r (rev (done ++ gap p))
              (matched p ++ pieces_text t tail) = Some m
            /\ rest m = pieces_text t tail
            /\ groups m = captured p)
      /\ met r (done ++ gap p ++ matched p) t tail
  end.

(** What [re.sub] writes: the gaps and the tail as they are, each match
    replaced; [repl] is given the text before the match. *)
Fixpoint replaced (repl : str -> list (nat * str) -> str) (done : str)
    (l : list piece) (tail : str) : str :=
  match l with
  | [] => tail
  | p :: t =>
      gap p ++ repl (done ++ gap p) (captured p)
        ++ replaced repl (done ++ gap p ++ matched p) t tail
  end.

(** The text before each piece, its gap included, passes the test
    [behind]. *)
Fixpoint preceded (behind : str -> bool) (done : str) (l : list piece)
  : bool :=
  match l with
  | [] => true
  | p :: t =>
      behind (done ++ gap p) && preceded behind (done ++ gap p ++ matched p) t
  end.

(** The text that follows each piece passes the test [ahead]. *)
Fixpoint followed (ahead : str -> bool) (l : list piece) (tail : str)
  : bool :=
  match l with
  | [] => true
  | _ :: t => ahead (pieces_text t tail) && followed ahead t tail
  end.

(** A snake-case identifier: a first word and further words, joined by
    underscores. *)
Definition snake_name (t0 : str) (ts : list str) : str := join "_" (t0 :: ts).

(** [val], white space, the identifier, optional white space and the colon. *)
Definition snake_declaration (ws t0 : str) (ts : list str) (ws' : str) : str :=
  "val" ++ ws ++ snake_name t0 ts ++ ws' ++ ":".

(** A match of the property pattern: such a declaration, with the identifier
    as its one group. *)
Definition is_snake_property (p : piece) : Prop :=
  exists ws t0 ts ws',
    ws <> [] /\ forallb is_space ws = true /\ forallb is_space ws' = true
    /\ lower_token t0 /\ ts <> [] /\ Forall lower_token ts
    /\ matched p = snake_declaration ws t0 ts ws'
    /\ captured p = [(1%nat, snake_name t0 ts)].





(** ** Further observations *)

(** The key of the table of named schemas inside [components], and of
    [components] inside the document. *)
Definition outside_schemas (d d' : dict) : Prop :=
  keys d' = keys d
  /\ (forall k, k <> "components" -> dict_get k d' = dict_get k d)
  /\ (forall c, dict_get "components" d = Some (JObj c) ->
        exists c',
          dict_get "components" d' = Some (JObj c')
          /\ keys c' = keys c
          /\ (forall k, k <> "schemas" -> dict_get k c' = dict_get k c)).

Definition is_dict (v : json) : bool :=
  match v with
  | JObj _ => true
  | _ => false
  end.

Definition frame_document : json :=
  JObj [("openapi", JStr "3.0.0");
        ("components",
          JObj [("securitySchemes", JObj []);
                ("schemas",
                  JObj [("AccountId", JObj []);
                        ("Flag", JBool true)])])].

(** A document with entries beside the table of named schemas, and an empty
    schema in the table. *)
Definition framed_document : json :=
  JObj [("openapi", JStr "3.0.0");
        ("info", JObj [("title", JStr "NEAR")]);
        ("components",
          JObj [("securitySchemes", JObj [("key", JObj [])]);
                ("schemas",
                  JObj [("AccountId", JObj []);
                        ("Height", JObj [("type", JStr "integer")])])]);
        ("paths", JObj [("/status", JObj [("post", JObj [])])])].

(** The test of [fix_nullable_types] on a dictionary:
    ['type' in obj and 'nullable' in obj], then [obj.get('nullable')]. *)
Definition nullable_flag (d : dict) : bool :=
  dict_has "type" d && dict_has "nullable" d
  && truthy (match dict_get "nullable" d with Some v => v | None => JNull end).

(** [obj['x-nullable'] = True] under the test. *)
Definition mark_nullable (d visited : dict) : dict :=
  if nullable_flag d then dict_set "x-nullable" (JBool true) visited
  else visited.

(** Every dictionary, at whatever depth, that passes the test has
    [x-nullable] set to [True]. *)
Fixpoint nullable_marked (v : json) : bool :=
  match v with
  | JObj d =>
      (if nullable_flag d
       then match dict_get "x-nullable" d with
            | Some (JBool true) => true
            | _ => false
            end
       else true)
      && (fix all (d : dict) : bool :=
            match d with
            | [] => true
            | (_, x) :: t => nullable_marked x && all t
            end) d
  | JArr l =>
      (fix all (l : list json) : bool :=
         match l with
         | [] => true
         | x :: t => nullable_marked x && all t
         end) l
  | _ => true
  end.

(** [f"{path}.{key}" if path else key] and [f"{path}[{i}]"] *)
Definition sub_path (path k : str) : str :=
  match path with [] => k | _ => path ++ "." ++ k end.

Definition item_path (path : str) (i : nat) : str :=
  path ++ "[" ++ nat_str i ++ "]".

(** The loop of [add_descriptions] over a list, from index [i] on. *)
Fixpoint describe_items (path : str) (l : list json) (i : nat) : list json :=
  match l with
  | [] => []
  | item :: t =>
      add_descriptions item (item_path path i) :: describe_items path t (S i)
  end.

Definition describe_values (path : str) (d : dict) : dict :=
  map (fun e => (fst e, add_descriptions (snd e) (sub_path path (fst e)))) d.

(** ['properties' in obj and 'description' not in obj] *)
Definition needs_description (d : dict) : bool :=
  dict_has "properties" d && negb (dict_has "description" d).

(** [obj['description'] = f"Auto-generated type for {path}"] under the
    test. *)
Definition with_description (path : str) (d visited : dict) : dict :=
  if needs_description d
  then dict_set "description" (JStr ("Auto-generated type for " ++ path)) visited
  else visited.

(** Every dictionary, at whatever depth, that has [properties] has a
    [description]. *)
Fixpoint described (v : json) : bool :=
  match v with
  | JObj d =>
      negb (needs_description d)
      && (fix all (d : dict) : bool :=
            match d with
            | [] => true
            | (_, x) :: t => described x && all t
            end) d
  | JArr l =>
      (fix all (l : list json) : bool :=
         match l with
         | [] => true
         | x :: t => described x && all t
         end) l
  | _ => true
  end.

(** The characters of a generated enum variable name. *)
Definition is_varname_char (c : ascii) : bool :=
  is_upper c || is_digit c || Ascii.eqb c "_".

(** The enum values whose [str()] the model follows. *)
Definition printable (val : json) : bool :=
  match val with
  | JStr _ | JInt _ | JBool _ | JNull => true
  | _ => false
  end.

(** The number of underscores of a name. *)
Definition underscores (s : str) : nat := count_occ ascii_dec s "_"%char.

(** The two lines [fix_imports] can put in front of a file. *)
Definition serializable_import : str :=
  "import kotlinx.serialization.Serializable" ++ [nl].

Definition serial_name_import : str :=
  "import kotlinx.serialization.SerialName" ++ [nl].

(** ** The texts a pattern matches *)

(** [lang r w]: the pattern [r] can consume the text [w] (at a position where
    its line anchors hold). *)
Fixpoint lang (r : re) (w : str) : Prop :=
  match r with
  | Eps => w = []
  | Chr p => exists c, w = [c] /\ p c = true
  | Lit s => w = s
  | Seq a b => exists u v, w = u ++ v /\ lang a u /\ lang b v
  | Alt a b => lang a w \/ lang b w
  | Star a => exists ws, w = concat ws /\ Forall (lang a) ws
  | Group _ a => lang a w
  | Bol => w = []
  end.

(** The literal text every match of [r] begins with. *)
Fixpoint leading (r : re) : str :=
  match r with
  | Lit s => s
  | Seq (Lit s) b => s ++ leading b
  | Seq Bol b => leading b
  | Seq a _ => leading a
  | Group _ a => leading a
  | _ => []
  end.

(** A check on the pattern that every match of [r] holds the text [lit]. *)
Fixpoint needs (lit : str) (r : re) : bool :=
  match r with
  | Lit s => contains lit s
  | Seq a b =>
      needs lit a || needs lit b
      || match a with
         | Lit s => contains lit (s ++ leading b)
         | _ => false
         end
  | Alt a b => needs lit a && needs lit b
  | Group _ a => needs lit a
  | _ => false
  end.

(** ** Marker lines *)

(** The line [add_serializable_annotations] writes in front of a class. *)
Definition serializable_marker : str := "@Serializable" ++ [nl].

(** [n] marker lines one after the other. *)
Definition marker_lines (n : nat) : str :=
  concat (repeat serializable_marker n).

(** One round of [(@Serializable\s*\n)+]. *)
Definition marker_line : re :=
  Group 1 (cat [Lit "@Serializable"; Star space; Lit [nl]]).

(** The text is empty or ends with a line break: a position behind it is the
    start of a line. *)
Definition ends_line (s : str) : bool :=
  match rev s with
  | [] => true
  | c :: _ => Ascii.eqb c nl
  end.

(** [kind class Name], with the white space of the file. *)
Definition class_declaration (kind ws1 ws2 name : str) : str :=
  kind ++ ws1 ++ "class" ++ ws2 ++ name.

(** ** The client interface *)

(** [GET|POST|PUT|DELETE] *)
Definition http_verb (verb : str) : Prop :=
  verb = "GET" \/ verb = "POST" \/ verb = "PUT" \/ verb = "DELETE".

(** [@VERB(Qpath Q)], the white space up to and behind the last line break,
    and [suspend fun name]; [Q] stands for the double quote. *)
Definition http_call (verb path w1 w2 name : str) : str :=
  "@" ++ verb ++ "(" ++ [dq] ++ path ++ [dq] ++ ")" ++ w1 ++ [nl] ++ w2
    ++ "suspend fun " ++ name.

(** [interface NameApi {], with the white space of the file. *)
Definition api_interface (ws base ws' : str) : str :=
  "interface" ++ ws ++ base ++ "Api" ++ ws' ++ "{".

(** [retrofit.create(NameApi::class.java)] *)
Definition retrofit_create (base : str) : str :=
  "retrofit.create(" ++ base ++ "Api::class.java)".

(** ** [convert_naming.py]: [convert_kotlin_file], from the text read to the
    text written *)

(** [@SerialName\(Q([^Q]+)Q\)\s+val\s+(\w+):], where [Q] stands for the
    double quote *)
Definition serial_property_pattern : re :=
  cat [Lit "@SerialName("; Lit [dq]; Group 1 (Plus (other_than dq));
       Lit [dq]; Lit ")"; Plus space; Lit "val"; Plus space;
       Group 2 (Plus word); Lit ":"].

(** [replace_property] of [convert_kotlin_file] *)
Definition replace_serial_property {titling : Titling} (_ : str)
    (gs : list (nat * str)) : str :=
  let serialized_name := group 1 gs in
  let camel_name := snake_to_camel serialized_name in
  serial_name serialized_name ++ [nl] ++ "    val " ++ camel_name ++ ":".

Definition is_lower_or_underscore (c : ascii) : bool :=
  is_lower c || Ascii.eqb c "_".

(** [fun\s+([a-z]+_[a-z_]+)] *)
Definition function_pattern : re :=
  cat [Lit "fun"; Plus space;
       Group 1 (cat [Plus lower_letter; Lit "_";
                     Plus (Chr is_lower_or_underscore)])].

(** [replace_function] *)
Definition replace_function {titling : Titling} (_ : str)
    (gs : list (nat * str)) : str :=
  let snake_name := group 1 gs in
  let camel_name := snake_to_camel snake_name in
  "fun " ++ camel_name.

Definition convert_kotlin_file {titling : Titling} (content : str) : str :=
  let content :=
    re_sub serial_property_pattern replace_serial_property content in
  re_sub function_pattern replace_function content.

(** [@SerialName(Qname Q)], white space, [val], white space, the current
    name and the colon. *)
Definition serial_property (name ws1 ws2 current : str) : str :=
  serial_name name ++ ws1 ++ "val" ++ ws2 ++ current ++ ":".

(** [fun], white space and a name [first_rest]. *)
Definition snake_function (ws first others : str) : str :=
  "fun" ++ ws ++ first ++ "_" ++ others.

(** A document with one path and one named schema that is nullable and has
    an [enum]. *)
Definition finality_document : json :=
  JObj [("paths",
          JObj [("/status",
                  JObj [("post", JObj [("properties", JObj [])])])]);
        ("components",
          JObj [("schemas",
                  JObj [("Finality",
                          JObj [("type", JStr "string");
                                ("nullable", JBool true);
                                ("enum",
                                  JArr [JStr "final"; JStr "near-final"])])])])].

(** ** A file read as the matches of a pattern *)

(** The text before [val] on the line of a declaration holds
    [@SerialName]; [prefix] is the file up to the declaration. *)
Definition annotated_line (prefix : str) : bool :=
  contains "@SerialName" (last (split_on nl prefix) []).

(** A file with two declarations, each annotated on its line. *)
Definition annotated_fields_file : list piece * str :=
  ([Piece ("class A(" ++ serial_name "hash" ++ " ") "val block_hash:"
      [(1%nat, "block_hash")];
    Piece (" String," ++ [nl] ++ "  " ++ serial_name "id" ++ " ")
      "val  account_id :" [(1%nat, "account_id")]],
   " String)").

(** A colon, optional white space, the name of the generic type and its
    argument between angle brackets. *)
Definition generic_type (ws name T : str) : str :=
  ":" ++ ws ++ name ++ "<" ++ T ++ ">".

(** A match of the generic pattern for [name]: the argument is not empty and
    ends before the first [>]; it is the one group. *)
Definition is_generic (name : str) (p : piece) : Prop :=
  exists ws T,
    forallb is_space ws = true
    /\ T <> [] /\ forallb (fun c => negb (Ascii.eqb c ">")) T = true
    /\ matched p = generic_type ws name T
    /\ captured p = [(1%nat, T)].

(** The file [pieces_text l tail] is read as its matches of the generic
    pattern for [name]: no further match starts in a gap or in the tail. *)
Definition generic_matches (name : str) (l : list piece) (tail : str)
  : Prop :=
  Forall (is_generic name) l
  /\ spaced (generic_pattern name) [] l tail = true.

Definition optional_and_array_file : list piece * str :=
  ([Piece "class A(val a" ": Optional<Int>" [(1%nat, "Int")];
    Piece ", val c" ":Optional<List<String>" [(1%nat, "List<String")]],
   ">, val b: Array<Long>)").

Definition array_file : list piece * str :=
  ([Piece "class A(val a: Int?, val c: List<String?>, val b" ": Array<Long>"
      [(1%nat, "Long")]],
   ")").

(** A match of the class pattern for [kind]: the declaration is the one
    group. *)
Definition is_class (kind : str) (p : piece) : Prop :=
  exists ws1 ws2 name,
    ws1 <> [] /\ forallb is_space ws1 = true
    /\ ws2 <> [] /\ forallb is_space ws2 = true
    /\ name <> [] /\ forallb is_word name = true
    /\ matched p = class_declaration kind ws1 ws2 name
    /\ captured p = [(1%nat, class_declaration kind ws1 ws2 name)].

(** The file is read as its matches of the class pattern for [kind]: each
    declaration starts a line and its name ends where the piece ends, and no
    further match starts in a gap or in the tail. *)
Definition class_matches (kind : str) (l : list piece) (tail : str) : Prop :=
  Forall (is_class kind) l
  /\ spaced (class_pattern kind) [] l tail = true
  /\ preceded ends_line [] l = true
  /\ followed (stops is_word) l tail = true.

(** A run of one or more lines that hold [@Serializable] and nothing else;
    each round of the repetition sets the group. *)
Definition is_marker_run (p : piece) : Prop :=
  exists n,
    matched p = marker_lines (S n)
    /\ captured p = repeat (1%nat, serializable_marker) (S n).

(** The text behind a run neither goes on with white space nor starts with
    a further marker. *)
Definition ends_markers (s : str) : bool :=
  stops is_space s && negb (startswith "@Serializable" s).

Definition marker_matches (l : list piece) (tail : str) : Prop :=
  Forall is_marker_run l
  /\ spaced marker_run_pattern [] l tail = true
  /\ followed ends_markers l tail = true.

(** A file with a data class without a marker and an enum class with two
    markers, and what the three substitutions of
    [add_serializable_annotations] see of it. *)
Definition classes_file : list piece * str :=
  ([Piece ("package a" ++ [nl]) "data class Foo"
      [(1%nat, "data class Foo")]],
   "(val metadata: Int)" ++ [nl] ++ "@Serializable" ++ [nl]
     ++ "@Serializable" ++ [nl] ++ "enum  class Kind { A }").

Definition classes_file_enums : list piece * str :=
  ([Piece ("package a" ++ [nl] ++ "@Serializable" ++ [nl]
             ++ "data class Foo(val metadata: Int)" ++ [nl]
             ++ "@Serializable" ++ [nl] ++ "@Serializable" ++ [nl])
      "enum  class Kind" [(1%nat, "enum  class Kind")]],
   " { A }").

Definition classes_file_runs : list piece * str :=
  ([Piece ("package a" ++ [nl]) (marker_lines 1)
      (repeat (1%nat, serializable_marker) 1);
    Piece ("data class Foo(val metadata: Int)" ++ [nl]) (marker_lines 3)
      (repeat (1%nat, serializable_marker) 3)],
   "enum  class Kind { A }").

(** A match of the pattern for an annotated call: the verb, the path and
    the name are its groups. *)
Definition is_http_call (p : piece) : Prop :=
  exists verb path w1 w2 name,
    http_verb verb
    /\ path <> [] /\ forallb (fun c => negb (Ascii.eqb c dq)) path = true
    /\ forallb is_space w1 = true
    /\ forallb is_space w2 = true
    /\ forallb (fun c => negb (Ascii.eqb c nl)) w2 = true
    /\ name <> [] /\ forallb is_word name = true
    /\ matched p = http_call verb path w1 w2 name
    /\ captured p = [(3%nat, name); (2%nat, path); (1%nat, verb)].

Definition http_call_matches (l : list piece) (tail : str) : Prop :=
  Forall is_http_call l
  /\ spaced http_call_pattern [] l tail = true
  /\ followed (stops is_word) l tail = true.

(** A match of the interface pattern; it has no group. *)
Definition is_api_interface (p : piece) : Prop :=
  exists ws base ws',
    ws <> [] /\ forallb is_space ws = true
    /\ base <> [] /\ forallb is_word base = true
    /\ forallb is_space ws' = true
    /\ matched p = api_interface ws base ws'
    /\ captured p = [].

Definition api_interface_matches (l : list piece) (tail : str) : Prop :=
  Forall is_api_interface l
  /\ spaced api_interface_pattern [] l tail = true.

(** A match of the pattern for [retrofit.create]; it has no group. *)
Definition is_retrofit_create (p : piece) : Prop :=
  exists base,
    base <> [] /\ forallb is_word base = true
    /\ matched p = retrofit_create base
    /\ captured p = [].

Definition retrofit_create_matches (l : list piece) (tail : str) : Prop :=
  Forall is_retrofit_create l
  /\ spaced retrofit_create_pattern [] l tail = true.

(** Two annotated calls of a client interface. *)
Definition calls_file : list piece * str :=
  ([Piece "    " (http_call "GET" "/status" [] "    " "status")
      [(3%nat, "status"); (2%nat, "/status"); (1%nat, "GET")];
    Piece ("(): Status" ++ [nl] ++ "    ")
      (http_call "DELETE" "/key" ("  " ++ [nl]) [] "remove_key")
      [(3%nat, "remove_key"); (2%nat, "/key"); (1%nat, "DELETE")]],
   "(id: Int)").

(** A client file with two annotated calls, and what the second and the
    third substitution of [fix_api_client_paths] see of it. *)
Definition client_file : list piece * str :=
  ([Piece ("interface DefaultApi {" ++ [nl] ++ "    ")
      (http_call "POST" "/status" [] "    " "status")
      [(3%nat, "status"); (2%nat, "/status"); (1%nat, "POST")];
    Piece ("(): Status" ++ [nl] ++ "    ")
      (http_call "GET" "/block" (" " ++ [nl]) "  " "block")
      [(3%nat, "block"); (2%nat, "/block"); (1%nat, "GET")]],
   "(id: Int): Block" ++ [nl] ++ "}" ++ [nl]
     ++ "val api = retrofit.create(DefaultApi::class.java)").

Definition client_file_interfaces : list piece * str :=
  ([Piece [] (api_interface " " "Default" " ") []],
   [nl] ++ "    suspend fun status(): Status" ++ [nl]
     ++ "    suspend fun block(id: Int): Block" ++ [nl] ++ "}" ++ [nl]
     ++ "val api = retrofit.create(DefaultApi::class.java)").

Definition client_file_creates : list piece * str :=
  ([Piece ("interface NearJsonRpcApi {" ++ [nl]
             ++ "    suspend fun status(): Status" ++ [nl]
             ++ "    suspend fun block(id: Int): Block" ++ [nl] ++ "}"
             ++ [nl] ++ "val api = ")
      (retrofit_create "Default") []],
   []).

(** A match of the pattern for an annotated property of
    [convert_kotlin_file]: the serialized name and the current name are its
    groups. *)
Definition is_serial_property (p : piece) : Prop :=
  exists name ws1 ws2 current,
    name <> [] /\ forallb (fun c => negb (Ascii.eqb c dq)) name = true
    /\ ws1 <> [] /\ forallb is_space ws1 = true
    /\ ws2 <> [] /\ forallb is_space ws2 = true
    /\ current <> [] /\ forallb is_word current = true
    /\ matched p = serial_property name ws1 ws2 current
    /\ captured p = [(2%nat, current); (1%nat, name)].

Definition serial_property_matches (l : list piece) (tail : str) : Prop :=
  Forall is_serial_property l
  /\ spaced serial_property_pattern [] l tail = true.

(** A match of the function pattern: the name is its one group. *)
Definition is_snake_function (p : piece) : Prop :=
  exists ws first others,
    ws <> [] /\ forallb is_space ws = true
    /\ first <> [] /\ forallb is_lower first = true
    /\ others <> [] /\ forallb is_lower_or_underscore others = true
    /\ matched p = snake_function ws first others
    /\ captured p = [(1%nat, first ++ "_" ++ others)].

Definition snake_function_matches (l : list piece) (tail : str) : Prop :=
  Forall is_snake_function l
  /\ spaced function_pattern [] l tail = true
  /\ followed (stops is_lower_or_underscore) l tail = true.

(** Two annotated properties of a model class. *)
Definition properties_file : list piece * str :=
  ([Piece "class A(" (serial_property "block_hash" " " "  " "hash")
      [(2%nat, "hash"); (1%nat, "block_hash")];
    Piece (" String," ++ [nl])
      (serial_property "account_id" [nl] " " "account_id")
      [(2%nat, "account_id"); (1%nat, "account_id")]],
   " String)").

(** A model file with two annotated properties and two functions, and what
    the second substitution of [convert_kotlin_file] sees of it. *)
Definition model_file : list piece * str :=
  ([Piece "class A(" (serial_property "block_hash" " " "  " "hash")
      [(2%nat, "hash"); (1%nat, "block_hash")];
    Piece (" String," ++ [nl])
      (serial_property "account_id" [nl] " " "account_id")
      [(2%nat, "account_id"); (1%nat, "account_id")]],
   " String) { fun get_block_header(): Int; fun  is_final_(): Int }").

Definition model_file_functions : list piece * str :=
  ([Piece ("class A(" ++ serial_name "block_hash" ++ [nl]
             ++ "    val blockHash: String," ++ [nl]
             ++ serial_name "account_id" ++ [nl]
             ++ "    val accountId: String) { ")
      (snake_function " " "get" "block_header")
      [(1%nat, "get_block_header")];
    Piece "(): Int; " (snake_function "  " "is" "final_")
      [(1%nat, "is_final_")]],
   "(): Int }").

(** * Properties *)

(** ** Characters and text *)

Lemma str_eqb_eq (a b : str) : str_eqb a b = true <-> a = b.
Proof.
  unfold str_eqb. destruct (list_eq_dec ascii_dec a b); split; congruence.
Qed.

Lemma str_eqb_refl (a : str) : str_eqb a a = true.
Proof. now apply str_eqb_eq. Qed.

Lemma str_eqb_neq (a b : str) : str_eqb a b = false <-> a <> b.
Proof.
  unfold str_eqb. destruct (list_eq_dec ascii_dec a b); split; congruence.
Qed.

Ltac each_char c :=
  destruct c as [[|] [|] [|] [|] [|] [|] [|] [|]].

Lemma to_upper_underscore (c : ascii) : to_upper c = "_"%char -> c = "_"%char.
Proof. each_char c; vm_compute; congruence. Qed.

Lemma to_lower_underscore (c : ascii) : to_lower c = "_"%char -> c = "_"%char.
Proof. each_char c; vm_compute; congruence. Qed.

Lemma split_on_cons (sep : ascii) (s : str) :
  exists h r, split_on sep s = h :: r.
Proof.
  induction s as [|c t IH]; simpl; [now eauto|].
  destruct (Ascii.eqb c sep); [now eauto|].
  destruct IH as (h & r & ->). eauto.
Qed.

Lemma join_cons (sep p : str) (h : str) (r : list str) :
  join sep (p :: h :: r) = p ++ sep ++ join sep (h :: r).
Proof. reflexivity. Qed.

Lemma join_split_on (sep : ascii) (s : str) :
  join [sep] (split_on sep s) = s.
Proof.
  induction s as [|c t IH]; [reflexivity|].
  cbn [split_on].
  destruct (split_on_cons sep t) as (h & r & E). rewrite E in *.
  destruct (Ascii.eqb_spec c sep) as [->|Hne].
  - rewrite join_cons, IH. reflexivity.
  - destruct r as [|h' r].
    + cbn in *. now rewrite IH.
    + rewrite join_cons in *. rewrite <- IH. reflexivity.
Qed.

Lemma split_on_free (sep : ascii) (s : str) :
  Forall (fun t => ~ In sep t) (split_on sep s).
Proof.
  induction s as [|c t IH]; simpl.
  - constructor; [easy|constructor].
  - destruct (Ascii.eqb_spec c sep) as [->|Hne].
    + constructor; [easy|assumption].
    + destruct (split_on sep t) as [|h r]; constructor.
      * simpl. intros [E|[]]. congruence.
      * constructor.
      * inversion IH; subst. simpl. intros [E|Hin]; [congruence|tauto].
      * now inversion IH.
Qed.

Lemma split_on_without (sep : ascii) (s : str) :
  ~ In sep s -> split_on sep s = [s].
Proof.
  induction s as [|c t IH]; simpl; [reflexivity|].
  intros H. destruct (Ascii.eqb_spec c sep) as [->|Hne]; [tauto|].
  rewrite IH by tauto. reflexivity.
Qed.

Lemma title_from_length (b : bool) (s : str) :
  length (title_from b s) = length s.
Proof. revert b. induction s; simpl; intros; [reflexivity|now rewrite IHs]. Qed.

Lemma title_from_underscore (b : bool) (s : str) :
  In "_"%char (title_from b s) -> In "_"%char s.
Proof.
  revert b. induction s as [|c t IH]; simpl; intros b; [easy|].
  intros [E|Hin].
  - left. destruct b; [now apply to_lower_underscore|now apply to_upper_underscore].
  - right. eauto.
Qed.

Lemma title_from_cased (s : str) :
  forallb is_alpha s = true -> title_from true s = lower s.
Proof.
  induction s as [|c t IH]; simpl; [reflexivity|].
  intros H. apply andb_prop in H as [Hc Ht]. rewrite Hc, IH; auto.
Qed.

Lemma title_7bit_capitalize (s : str) :
  forallb is_alpha s = true -> title_7bit s = capitalize s.
Proof.
  destruct s as [|c t]; simpl; [reflexivity|].
  intros H. apply andb_prop in H as [Hc Ht].
  unfold title_7bit. simpl. rewrite Hc. now rewrite title_from_cased.
Qed.

Lemma concat_free (c : ascii) (l : list str) :
  Forall (fun t => ~ In c t) l -> ~ In c (concat l).
Proof.
  induction 1; simpl; [easy|]. rewrite in_app_iff. tauto.
Qed.

Lemma title_7bit_free (t : str) :
  ~ In "_"%char t -> ~ In "_"%char (title_7bit t).
Proof. intros H Hin. apply H. eapply title_from_underscore, Hin. Qed.

(** The 7-bit title-casing is a title-casing function: the class is
    inhabited, and the examples below are computed with it. *)
Definition titling_7bit : Titling :=
  {| title := title_7bit;
     title_on_7bit := fun t _ => eq_refl;
     title_writes_no_underscore := title_7bit_free |}.

Lemma split_on_forallb (p : ascii -> bool) (sep : ascii) (s : str) :
  forallb p s = true ->
  Forall (fun t => forallb p t = true) (split_on sep s).
Proof.
  induction s as [|c t IH]; simpl; intros H.
  - repeat constructor.
  - apply andb_prop in H as [Hc Ht]. specialize (IH Ht).
    destruct (Ascii.eqb c sep).
    + constructor; [reflexivity|assumption].
    + destruct (split_on sep t) as [|h r]; constructor.
      * simpl. now rewrite Hc.
      * constructor.
      * inversion IH; subst. simpl. rewrite Hc. assumption.
      * now inversion IH.
Qed.

Section NamingConversion.
Context {titling : Titling}.

Lemma snake_to_camel_free (s : str) : ~ In "_"%char (snake_to_camel s).
Proof.
  unfold snake_to_camel.
  pose proof (split_on_free "_" s) as F.
  destruct (split_on "_" s) as [|h r]; simpl.
  - easy.
  - inversion F; subst. rewrite in_app_iff. intros [Hin|Hin]; [tauto|].
    revert Hin. apply concat_free. rewrite Forall_map.
    eapply Forall_impl; [|eassumption].
    intros t Ht. now apply title_writes_no_underscore.
Qed.

Lemma snake_to_camel_without (s : str) :
  ~ In "_"%char s -> snake_to_camel s = s.
Proof.
  intros H. unfold snake_to_camel. rewrite split_on_without by assumption.
  cbn. apply app_nil_r.
Qed.

(** C10. [snake_to_camel] is a function of its input, defined on every text,
    for every title-casing.  The input is its underscore-separated tokens
    joined by underscores, no token holds an underscore, and the result is
    the first token as it is followed by the title-cased form of each further
    token.  For a further token of 7-bit characters that form is as long as
    the token, has its first character upper-cased, and for a token of
    letters is the upper-cased first letter followed by the other letters
    lower-cased.  The result holds no underscore, and converting it again
    gives the result. *)
Theorem snake_to_camel_stable (s : str) :
  let tokens := split_on "_" s in
  tokens <> []
  /\ join "_" tokens = s
  /\ Forall (fun t => ~ In "_"%char t) tokens
  /\ snake_to_camel s = hd [] tokens ++ concat (map title (tl tokens))
  /\ (forall t, In t (tl tokens) -> forallb is_7bit t = true ->
        title t = title_7bit t
        /\ length (title t) = length t
        /\ hd_error (title t) = option_map to_upper (hd_error t)
        /\ (forallb is_alpha t = true -> title t = capitalize t))
  /\ (In "_"%char (snake_to_camel s) -> False)
  /\ snake_to_camel (snake_to_camel s) = snake_to_camel s.
Proof.
  intros tokens. subst tokens.
  split; [|split; [|split; [|split; [|split; [|split]]]]].
  - destruct (split_on_cons "_" s) as (h & r & ->). discriminate.
  - apply join_split_on.
  - apply split_on_free.
  - reflexivity.
  - intros t _ H7. rewrite (title_on_7bit t H7). split; [reflexivity|].
    split; [apply title_from_length|]. split.
    + destruct t; reflexivity.
    + apply title_7bit_capitalize.
  - apply snake_to_camel_free.
  - apply snake_to_camel_without, snake_to_camel_free.
Qed.

End NamingConversion.

Lemma snake_to_camel_stable_witness :
  @snake_to_camel titling_7bit "block_hash" = "blockHash"
  /\ @snake_to_camel titling_7bit "blockHash" = "blockHash".
Proof.
  destruct (@snake_to_camel_stable titling_7bit "block_hash")
    as (_ & _ & _ & E & _ & _ & S).
  split; [exact E|]. exact S.
Defined.

(** ** Dictionaries *)

Lemma dict_get_set_same (k : str) (v : json) (d : dict) :
  dict_get k (dict_set k v d) = Some v.
Proof.
  induction d as [|[k' v'] t IH]; simpl.
  - now rewrite str_eqb_refl.
  - destruct (str_eqb k' k) eqn:E; simpl; [now rewrite str_eqb_refl|].
    now rewrite E.
Qed.

Lemma dict_get_set_other (k k0 : str) (v : json) (d : dict) :
  k0 <> k -> dict_get k0 (dict_set k v d) = dict_get k0 d.
Proof.
  intros Hne. induction d as [|[k' v'] t IH]; simpl.
  - destruct (str_eqb k k0) eqn:E; [|reflexivity].
    apply str_eqb_eq in E. congruence.
  - destruct (str_eqb k' k) eqn:E; simpl.
    + apply str_eqb_eq in E. subst k'.
      destruct (str_eqb k k0) eqn:E'; [|reflexivity].
      apply str_eqb_eq in E'. congruence.
    + now rewrite IH.
Qed.

Lemma dict_set_present (k : str) (v : json) (d : dict) :
  dict_get k d = Some v -> dict_set k v d = d.
Proof.
  induction d as [|[k' v'] t IH]; simpl; [discriminate|].
  destruct (str_eqb k' k) eqn:E.
  - apply str_eqb_eq in E. intros [= ->]. now subst.
  - intros H. now rewrite IH.
Qed.

Lemma dict_set_twice (k : str) (v w : json) (d : dict) :
  dict_set k w (dict_set k v d) = dict_set k w d.
Proof.
  induction d as [|[k' v'] t IH]; simpl.
  - now rewrite str_eqb_refl.
  - destruct (str_eqb k' k) eqn:E; simpl.
    + now rewrite str_eqb_refl.
    + now rewrite E, IH.
Qed.

Lemma dict_get_In (k : str) (v : json) (d : dict) :
  dict_get k d = Some v -> In (k, v) d.
Proof.
  induction d as [|[k' v'] t IH]; simpl; [discriminate|].
  destruct (str_eqb k' k) eqn:E.
  - apply str_eqb_eq in E. intros [= ->]. left. now subst.
  - auto.
Qed.

Lemma dict_has_keys (k : str) (d : dict) :
  dict_has k d = true <-> In k (keys d).
Proof.
  unfold dict_has. induction d as [|[k' v'] t IH]; simpl.
  - split; [discriminate|tauto].
  - destruct (str_eqb k' k) eqn:E.
    + apply str_eqb_eq in E. tauto.
    + apply str_eqb_neq in E. rewrite IH. tauto.
Qed.

(** ** Pattern-constraint removal *)

Lemma remove_pattern_props_obj (d : dict) :
  remove_pattern_props (JObj d)
  = JObj (map_values remove_pattern_props (dict_del pattern_key d)).
Proof.
  simpl. f_equal. induction d as [|[k v] t IH]; simpl; [reflexivity|].
  destruct (str_eqb k pattern_key); simpl; now rewrite IH.
Qed.

Lemma dict_get_map_values (f : json -> json) (k : str) (d : dict) :
  dict_get k (map_values f d) = option_map f (dict_get k d).
Proof.
  induction d as [|[k' v] t IH]; simpl; [reflexivity|].
  destruct (str_eqb k' k); [reflexivity|assumption].
Qed.

Lemma dict_get_del_other (k k0 : str) (d : dict) :
  k0 <> k -> dict_get k0 (dict_del k d) = dict_get k0 d.
Proof.
  intros Hne. induction d as [|[k' v] t IH]; simpl; [reflexivity|].
  destruct (str_eqb k' k) eqn:E; simpl.
  - apply str_eqb_eq in E. subst k'.
    destruct (str_eqb k k0) eqn:E'; [|assumption].
    apply str_eqb_eq in E'. congruence.
  - destruct (str_eqb k' k0); [reflexivity|assumption].
Qed.

Lemma dict_get_del_same (k : str) (d : dict) :
  dict_get k (dict_del k d) = None.
Proof.
  induction d as [|[k' v] t IH]; simpl; [reflexivity|].
  destruct (str_eqb k' k) eqn:E; simpl; [assumption|now rewrite E].
Qed.

Lemma has_pattern_key_obj (d : dict) :
  has_pattern_key (JObj d)
  = existsb (fun e => str_eqb (fst e) pattern_key || has_pattern_key (snd e)) d.
Proof.
  simpl. induction d as [|[k v] t IH]; simpl; [reflexivity|now rewrite IH].
Qed.

Lemma has_pattern_key_arr (l : list json) :
  has_pattern_key (JArr l) = existsb has_pattern_key l.
Proof.
  simpl. induction l as [|x t IH]; simpl; [reflexivity|now rewrite IH].
Qed.

Lemma remove_pattern_props_clean (v : json) :
  has_pattern_key (remove_pattern_props v) = false.
Proof.
  induction v as [| | | | |l IH|d IH] using json_ind; try reflexivity.
  - change (remove_pattern_props (JArr l)) with (JArr (map remove_pattern_props l)).
    rewrite has_pattern_key_arr.
    induction IH as [|x t Hx _ IHt]; simpl; [reflexivity|].
    now rewrite Hx, IHt.
  - rewrite remove_pattern_props_obj, has_pattern_key_obj.
    induction IH as [|[k x] t Hx _ IHt]; simpl in *; [reflexivity|].
    destruct (str_eqb k pattern_key) eqn:E; simpl; [assumption|].
    now rewrite E, Hx, IHt.
Qed.

Lemma remove_pattern_props_fixed (v : json) :
  has_pattern_key v = false -> remove_pattern_props v = v.
Proof.
  induction v as [| | | | |l IH|d IH] using json_ind; try reflexivity.
  - rewrite has_pattern_key_arr.
    change (remove_pattern_props (JArr l)) with (JArr (map remove_pattern_props l)).
    intros H. f_equal.
    induction IH as [|x t Hx _ IHt]; simpl in *; [reflexivity|].
    apply orb_false_elim in H as [H1 H2]. now rewrite Hx, IHt.
  - rewrite has_pattern_key_obj, remove_pattern_props_obj.
    intros H. f_equal.
    induction IH as [|[k x] t Hx _ IHt]; simpl in *; [reflexivity|].
    apply orb_false_elim in H as [H1 H2].
    apply orb_false_elim in H1 as [H0 H1].
    rewrite H0. simpl. now rewrite Hx, IHt.
Qed.

Lemma remove_pattern_props_at_path (p : list step) (v : json) :
  existsb (is_key pattern_key) p = false ->
  at_path p (remove_pattern_props v)
  = option_map remove_pattern_props (at_path p v).
Proof.
  revert v. induction p as [|[k|i] p IH]; intros v Hp; [reflexivity| |].
  - simpl in Hp. apply orb_false_elim in Hp as [Hk Hp].
    apply str_eqb_neq in Hk.
    destruct v; try reflexivity.
    rewrite remove_pattern_props_obj. simpl.
    rewrite dict_get_map_values, dict_get_del_other by assumption.
    destruct (dict_get k entries); simpl; auto.
  - simpl in Hp. destruct v; try reflexivity.
    change (remove_pattern_props (JArr items))
      with (JArr (map remove_pattern_props items)).
    simpl. rewrite nth_error_map.
    destruct (nth_error items i); simpl; auto.
Qed.

Lemma clean_child (k : str) (d : dict) (x : json) :
  has_pattern_key (JObj d) = false -> dict_get k d = Some x ->
  k <> pattern_key /\ has_pattern_key x = false.
Proof.
  rewrite has_pattern_key_obj.
  induction d as [|[k' v] t IH]; simpl; [discriminate|].
  intros H. apply orb_false_elim in H as [H1 H2].
  apply orb_false_elim in H1 as [H0 H1].
  destruct (str_eqb k' k) eqn:E.
  - apply str_eqb_eq in E. subst k'. intros [= ->].
    apply str_eqb_neq in H0. tauto.
  - auto.
Qed.

Lemma clean_item (i : nat) (l : list json) (x : json) :
  has_pattern_key (JArr l) = false -> nth_error l i = Some x ->
  has_pattern_key x = false.
Proof.
  rewrite has_pattern_key_arr. intros H Hn.
  apply nth_error_In in Hn.
  destruct (has_pattern_key x) eqn:E; [|reflexivity].
  assert (existsb has_pattern_key l = true) by (apply existsb_exists; eauto).
  congruence.
Qed.

Lemma clean_at_path (p : list step) (v : json) :
  has_pattern_key v = false -> at_path (p ++ [Key pattern_key]) v = None.
Proof.
  revert v. induction p as [|[k|i] p IH]; intros v Hv; simpl.
  - destruct v; try reflexivity.
    destruct (dict_get pattern_key entries) eqn:E; [|reflexivity].
    destruct (clean_child _ _ _ Hv E) as [Hne _]. congruence.
  - destruct v; try reflexivity.
    destruct (dict_get k entries) eqn:E; [|reflexivity].
    apply IH. eapply clean_child; eauto.
  - destruct v; try reflexivity.
    destruct (nth_error items i) eqn:E; [|reflexivity].
    apply IH. eapply clean_item; eauto.
Qed.

(** C9. After the pattern-constraint removal pass, which returns on every
    document, no dictionary at any depth has the key [patternProperties].
    The pass only deletes: a scalar is returned as it is, a list keeps its
    length and its items' places, a dictionary keeps every key other than
    [patternProperties] in its order, and what is found along any path that
    does not go through a [patternProperties] key is the pass applied to what
    was found there before.  A document without the key is returned
    unchanged. *)
Theorem remove_pattern_properties_pure_deletion (spec : json) :
  has_pattern_key (remove_pattern_properties spec) = false
  /\ (forall p,
        existsb (is_key pattern_key) p = false ->
        at_path p (remove_pattern_properties spec)
        = option_map remove_pattern_props (at_path p spec))
  /\ (forall p, at_path (p ++ [Key pattern_key])
                  (remove_pattern_properties spec) = None)
  /\ (forall d, remove_pattern_props (JObj d)
                = JObj (map_values remove_pattern_props (dict_del pattern_key d)))
  /\ (forall l, remove_pattern_props (JArr l)
                = JArr (map remove_pattern_props l))
  /\ (forall v, (forall d, v <> JObj d) -> (forall l, v <> JArr l) ->
                remove_pattern_props v = v)
  /\ (has_pattern_key spec = false -> remove_pattern_properties spec = spec).
Proof.
  unfold remove_pattern_properties. repeat split.
  - apply remove_pattern_props_clean.
  - intros p Hp. now apply remove_pattern_props_at_path.
  - intros p. apply clean_at_path, remove_pattern_props_clean.
  - apply remove_pattern_props_obj.
  - intros v Hd Hl. destruct v; try reflexivity; [now elim (Hl items)|now elim (Hd entries)].
  - apply remove_pattern_props_fixed.
Qed.

(** ** The loop over the named schemas *)

Lemma bind_ok {A B} (m : result A) (f : A -> result B) (b : B) :
  bind m f = Ok b -> exists a, m = Ok a /\ f a = Ok b.
Proof. destruct m; simpl; [eauto|discriminate]. Qed.

Ltac bind_inv H :=
  let a := fresh "x" in
  let Ha := fresh "E" in
  apply bind_ok in H as (a & Ha & H).

Tactic Notation "unbind" hyp(H) "as" ident(x) ident(E) :=
  apply bind_ok in H as (x & E & H).

Lemma mapM_ok {A B} (f : A -> result B) (l : list A) (l' : list B) :
  mapM f l = Ok l' <-> Forall2 (fun a b => f a = Ok b) l l'.
Proof.
  revert l'. induction l as [|a t IH]; intros l'; simpl.
  - split; [intros [= <-]; constructor|inversion 1; reflexivity].
  - split.
    + intros H. bind_inv H. bind_inv H. injection H as <-.
      constructor; [assumption|now apply IH].
    + inversion 1 as [|? b ? r Hb Hr]; subst.
      rewrite Hb. simpl. apply IH in Hr. rewrite Hr. reflexivity.
Qed.

Lemma schemas_of_inv (spec : json) (schemas : dict) :
  schemas_of spec = Ok schemas ->
  exists d,
    spec = JObj d
    /\ (   (dict_get "components" d = None /\ schemas = [])
        \/ (exists c, dict_get "components" d = Some (JObj c)
              /\ (   (dict_get "schemas" c = None /\ schemas = [])
                  \/ dict_get "schemas" c = Some (JObj schemas)))).
Proof.
  unfold schemas_of. intros H.
  destruct spec as [| | | | | |d]; try discriminate. exists d. split; [reflexivity|].
  simpl in H.
  destruct (dict_get "components" d) as [c|]; simpl in H.
  - right. destruct c as [| | | | | |c]; try discriminate. exists c.
    split; [reflexivity|]. simpl in H.
    destruct (dict_get "schemas" c) as [s|]; simpl in H.
    + right. destruct s; try discriminate. now injection H as ->.
    + left. now injection H as <-.
  - left. now injection H as <-.
Qed.

Lemma schemas_of_store (spec : json) (schemas new : dict) :
  schemas_of spec = Ok schemas ->
  (schemas = [] -> new = []) ->
  schemas_of (store_schemas spec new) = Ok new.
Proof.
  intros H Hnew.
  destruct (schemas_of_inv _ _ H) as (d & -> & [[Hc ->]|(c & Hc & [[Hs ->]|Hs])]);
    unfold store_schemas; rewrite Hc; try rewrite Hs.
  - rewrite H, Hnew; reflexivity.
  - rewrite H, Hnew; reflexivity.
  - unfold schemas_of. simpl. rewrite dict_get_set_same. simpl.
    rewrite dict_get_set_same. reflexivity.
Qed.

Lemma store_schemas_same (spec : json) (schemas : dict) :
  schemas_of spec = Ok schemas -> store_schemas spec schemas = spec.
Proof.
  intros H.
  destruct (schemas_of_inv _ _ H) as (d & -> & [[Hc ->]|(c & Hc & [[Hs ->]|Hs])]);
    unfold store_schemas; rewrite Hc; try rewrite Hs; try reflexivity.
  rewrite (dict_set_present "schemas" (JObj schemas) c Hs).
  now rewrite (dict_set_present "components" (JObj c) d Hc).
Qed.

(** What a loop over the named schemas leaves: the same names in the same
    order, each with what the body returned for it. *)
Definition rewritten (f : str -> json -> result json) (e e' : str * json)
  : Prop :=
  fst e' = fst e /\ f (fst e) (snd e) = Ok (snd e').

Lemma rewritten_keys f (schemas new : dict) :
  Forall2 (rewritten f) schemas new -> keys new = keys schemas.
Proof.
  induction 1 as [|e e' t t' [Hk _] _ IH]; simpl; [reflexivity|].
  now rewrite Hk, IH.
Qed.

Lemma for_schemas_inv f (spec spec' : json) :
  for_schemas f spec = Ok spec' ->
  exists schemas new,
    schemas_of spec = Ok schemas
    /\ Forall2 (rewritten f) schemas new
    /\ spec' = store_schemas spec new
    /\ schemas_of spec' = Ok new.
Proof.
  unfold for_schemas. intros H. bind_inv H. bind_inv H. injection H as <-.
  rename x into schemas, x0 into new. exists schemas, new.
  apply mapM_ok in E0.
  assert (F : Forall2 (rewritten f) schemas new).
  { clear E. induction E0 as [|e e' t t' He _ IH]; constructor; [|assumption].
    bind_inv He. injection He as <-. split; [reflexivity|assumption]. }
  repeat split; try assumption.
  apply (schemas_of_store _ _ _ E). intros ->. now inversion F.
Qed.

Lemma for_schemas_ok f (spec : json) (schemas new : dict) :
  schemas_of spec = Ok schemas ->
  Forall2 (rewritten f) schemas new ->
  for_schemas f spec = Ok (store_schemas spec new).
Proof.
  intros H F. unfold for_schemas. rewrite H. simpl.
  assert (M : mapM (fun e => s <- f (fst e) (snd e) ;; Ok (fst e, s)) schemas
              = Ok new).
  { apply mapM_ok. clear H.
    induction F as [|e [k' s'] t t' [Hk He] _ IH]; constructor; [|assumption].
    simpl in *. rewrite He. simpl. now rewrite Hk. }
  now rewrite M.
Qed.

Lemma for_schemas_fixed f (spec : json) (schemas : dict) :
  schemas_of spec = Ok schemas ->
  Forall (fun e => f (fst e) (snd e) = Ok (snd e)) schemas ->
  for_schemas f spec = Ok spec.
Proof.
  intros H F.
  rewrite (for_schemas_ok f spec schemas schemas H).
  - now rewrite (store_schemas_same _ _ H).
  - clear H. induction F; constructor; [split; [reflexivity|assumption]|assumption].
Qed.

Lemma Forall2_total {A B} (R : A -> B -> Prop) (l : list A) :
  Forall (fun a => exists b, R a b) l -> exists l', Forall2 R l l'.
Proof.
  induction 1 as [|a t [b Hb] _ [t' IH]]; [exists []; constructor|].
  exists (b :: t'). now constructor.
Qed.

(** ** Empty-schema resolution *)

Lemma is_empty_schema_obj (d : dict) :
  is_empty_schema (JObj d)
  = Ok (forallb (fun k => negb (truthy (match dict_get k d with
                                        | Some v => v
                                        | None => JNull
                                        end))) shape_keywords).
Proof. reflexivity. Qed.

Lemma replacement_has_type (name : str) :
  carries "type" (replacement name) = true
  /\ is_empty_schema (replacement name) = Ok false
  /\ carries "anyOf" (replacement name) = false
  /\ has_pattern_key (replacement name) = false.
Proof.
  unfold replacement.
  assert (T : forall r, In r (map snd empty_schema_fixes) ->
              carries "type" r = true /\ is_empty_schema r = Ok false
              /\ carries "anyOf" r = false /\ has_pattern_key r = false).
  { apply Forall_forall. repeat constructor. }
  destruct (dict_get name empty_schema_fixes) as [r|] eqn:E.
  - apply T. apply dict_get_In in E. now apply (in_map snd) in E.
  - repeat split.
Qed.

Lemma fix_empty_schema_obj (name : str) (d : dict) :
  exists s,
    fix_empty_schema name (JObj d) = Ok s
    /\ (is_empty_schema (JObj d) = Ok true -> s = replacement name)
    /\ (is_empty_schema (JObj d) = Ok false -> s = JObj d).
Proof.
  unfold fix_empty_schema. rewrite is_empty_schema_obj. cbn [bind].
  destruct (forallb _ shape_keywords).
  - exists (replacement name). unfold replacement, dict_has.
    destruct (dict_get name empty_schema_fixes); repeat split;
      intros; congruence.
  - exists (JObj d). repeat split; intros; congruence.
Qed.

Lemma fix_empty_schema_inv (name : str) (schema s : json) :
  fix_empty_schema name schema = Ok s ->
  exists d, schema = JObj d
    /\ ((is_empty_schema schema = Ok true /\ s = replacement name)
        \/ (is_empty_schema schema = Ok false /\ s = schema)).
Proof.
  intros H. destruct schema as [| | | | | |d]; try discriminate.
  exists d. split; [reflexivity|].
  destruct (fix_empty_schema_obj name d) as (s' & Hs & Ht & Hf).
  rewrite H in Hs. injection Hs as <-.
  destruct (is_empty_schema (JObj d)) as [[|]|e] eqn:E; auto.
  rewrite is_empty_schema_obj in E. discriminate.
Qed.

Lemma keyword_absent_empty (d : dict) :
  (forall k, In k shape_keywords -> carries k (JObj d) = false) ->
  is_empty_schema (JObj d) = Ok true.
Proof.
  intros H. rewrite is_empty_schema_obj. f_equal. apply forallb_forall.
  intros k Hk. specialize (H k Hk). simpl in H. unfold dict_has in H.
  destruct (dict_get k d); [discriminate|reflexivity].
Qed.

Lemma forallb_negb_false {A} (g : A -> bool) (l : list A) :
  forallb (fun a => negb (g a)) l = false -> exists a, In a l /\ g a = true.
Proof.
  induction l as [|a t IH]; simpl; [discriminate|].
  destruct (g a) eqn:G; simpl; [eauto|].
  intros H. destruct (IH H) as (x & Hx & Gx). eauto.
Qed.

Lemma nonempty_carries (d : dict) :
  is_empty_schema (JObj d) = Ok false ->
  exists k, In k shape_keywords /\ carries k (JObj d) = true.
Proof.
  rewrite is_empty_schema_obj. intros H.
  assert (H' : forallb (fun k => negb (truthy (match dict_get k d with
                                              | Some v => v
                                              | None => JNull
                                              end))) shape_keywords = false)
    by congruence.
  apply forallb_negb_false in H' as (k & Hk & T).
  exists k. split; [assumption|].
  simpl. unfold dict_has. destruct (dict_get k d); [reflexivity|discriminate].
Qed.

(** C5. On a document whose named schemas are dictionaries the empty-schema
    resolution pass returns, and keeps the names.  A named schema that has
    none of [properties], [enum], [anyOf], [oneOf], [allOf] and [type] is
    replaced: by the entry of the fixed table when its name is there (for
    [AccountId] the string schema described as NEAR Account Identifier), and
    otherwise by the string schema whose description is the auto-generated
    text ending in the name.  After the pass every named schema has one of
    the six keywords. *)
Theorem fix_empty_schemas_fills (spec : json) (schemas : dict) :
  schemas_of spec = Ok schemas ->
  Forall (fun e => exists d, snd e = JObj d) schemas ->
  exists spec' schemas',
    fix_empty_schemas spec = Ok spec'
    /\ schemas_of spec' = Ok schemas'
    /\ Forall2
         (fun e e' =>
            fst e' = fst e
            /\ ((forall k, In k shape_keywords -> carries k (snd e) = false) ->
                (forall r, dict_get (fst e) empty_schema_fixes = Some r ->
                           snd e' = r)
                /\ (dict_get (fst e) empty_schema_fixes = None ->
                    snd e' = string_schema
                               (JStr ("Auto-fixed empty schema for " ++ fst e)))))
         schemas schemas'
    /\ Forall (fun e' => exists k, In k shape_keywords
                                   /\ carries k (snd e') = true) schemas'
    /\ dict_get "AccountId" empty_schema_fixes
       = Some (string_schema (JStr "NEAR Account Identifier")).
Proof.
  intros Hs Hd.
  assert (T : exists new, Forall2 (rewritten fix_empty_schema) schemas new).
  { apply Forall2_total. eapply Forall_impl; [|exact Hd].
    intros [name schema] [d Hobj]. simpl in *. subst schema.
    destruct (fix_empty_schema_obj name d) as (s & Hs' & _).
    exists (name, s). now split. }
  destruct T as [new F].
  exists (store_schemas spec new), new.
  split; [now apply for_schemas_ok with schemas|].
  split; [apply (schemas_of_store _ _ _ Hs); intros ->; now inversion F|].
  split; [|split; [|reflexivity]].
  - clear Hs Hd. induction F as [|e e' t t' [Hk He] _ IH]; constructor;
      [|assumption].
    split; [assumption|]. intros Habs.
    apply fix_empty_schema_inv in He as (d & Hd & He). rewrite Hd in *.
    apply keyword_absent_empty in Habs.
    destruct He as [[_ ->]|[He _]]; [|congruence].
    unfold replacement. split; [intros r ->; reflexivity|intros ->; reflexivity].
  - clear Hs Hd. induction F as [|e e' t t' [Hk He] _ IH]; constructor;
      [|assumption].
    apply fix_empty_schema_inv in He as (d & Hd & [[_ ->]|[He ->]]).
    + exists "type". split; [simpl; tauto|apply replacement_has_type].
    + rewrite Hd in *. now apply nonempty_carries.
Qed.

Lemma fix_empty_schemas_fills_witness :
  exists spec' schemas',
    fix_empty_schemas account_id_document = Ok spec'
    /\ schemas_of spec' = Ok schemas'
    /\ Forall2
         (fun e e' =>
            fst e' = fst e
            /\ ((forall k, In k shape_keywords -> carries k (snd e) = false) ->
                (forall r, dict_get (fst e) empty_schema_fixes = Some r ->
                           snd e' = r)
                /\ (dict_get (fst e) empty_schema_fixes = None ->
                    snd e' = string_schema
                               (JStr ("Auto-fixed empty schema for " ++ fst e)))))
         [("AccountId", JObj []); ("Unknown", JObj [("title", JStr "u")])]
         schemas'
    /\ Forall (fun e' => exists k, In k shape_keywords
                                   /\ carries k (snd e') = true) schemas'
    /\ dict_get "AccountId" empty_schema_fixes
       = Some (string_schema (JStr "NEAR Account Identifier")).
Proof.
  apply (fix_empty_schemas_fills account_id_document).
  - reflexivity.
  - repeat constructor; simpl; eauto.
Defined.

(** ** Endpoint collapsing *)

Lemma dict_set_keys (k : str) (v : json) (d : dict) (m : str) :
  In m (keys (dict_set k v d)) <-> m = k \/ In m (keys d).
Proof.
  induction d as [|[k' v'] t IH]; simpl.
  - intuition congruence.
  - destruct (str_eqb k' k) eqn:E; simpl.
    + apply str_eqb_eq in E. subst k'. intuition congruence.
    + rewrite IH. intuition congruence.
Qed.

Lemma dict_set_NoDup (k : str) (v : json) (d : dict) :
  NoDup (keys d) -> NoDup (keys (dict_set k v d)).
Proof.
  induction d as [|[k' v'] t IH]; simpl; intros H.
  - constructor; [easy|constructor].
  - inversion H as [|? ? Hn Ht]; subst.
    destruct (str_eqb k' k) eqn:E; simpl.
    + apply str_eqb_eq in E. subst k'. now constructor.
    + apply str_eqb_neq in E. constructor; [|auto].
      rewrite dict_set_keys. intuition congruence.
Qed.

Lemma dict_set_In (k : str) (v : json) (d : dict) (m : str) (x : json) :
  In (m, x) (dict_set k v d) -> (m = k /\ x = v) \/ In (m, x) d.
Proof.
  induction d as [|[k' v'] t IH]; simpl.
  - intros [[= <- <-]|[]]. auto.
  - destruct (str_eqb k' k) eqn:E; simpl.
    + intros [[= <- <-]|H]; auto.
    + intros [H|H]; auto. destruct (IH H); auto.
Qed.

Lemma collect_method_obj (all_methods : dict) (path : str) (item : dict) :
  collect_method all_methods (path, JObj item)
  = Ok (record_post all_methods (path, JObj item)).
Proof.
  unfold collect_method, record_post. simpl. unfold dict_has.
  destruct (dict_get "post" item); reflexivity.
Qed.

Lemma collect_methods_fold (paths : dict) (acc : dict) :
  Forall (fun e => exists item, snd e = JObj item) paths ->
  foldM collect_method paths acc = Ok (fold_left record_post paths acc).
Proof.
  intros H. revert acc.
  induction H as [|[path v] t [item Hv] _ IH]; intros acc; [reflexivity|].
  simpl in Hv. subst v.
  cbn [foldM fold_left]. rewrite collect_method_obj. cbn [bind]. apply IH.
Qed.

Lemma record_post_keys (paths acc : dict) (m : str) :
  In m (keys (fold_left record_post paths acc))
  <-> In m (keys acc) \/ In m (map strip_slashes (keys (posting paths))).
Proof.
  revert acc. induction paths as [|[path v] t IH]; intros acc; simpl.
  - tauto.
  - rewrite IH. unfold record_post, posting. simpl.
    destruct v as [| | | | | |item]; simpl; try tauto.
    unfold dict_has. destruct (dict_get "post" item); simpl; [|tauto].
    rewrite dict_set_keys. intuition congruence.
Qed.

Lemma record_post_NoDup (paths acc : dict) :
  NoDup (keys acc) -> NoDup (keys (fold_left record_post paths acc)).
Proof.
  revert acc. induction paths as [|[path v] t IH]; intros acc H; simpl;
    [assumption|].
  apply IH. unfold record_post. simpl.
  destruct v; try assumption.
  destruct (dict_get "post" entries); [now apply dict_set_NoDup|assumption].
Qed.

Lemma record_post_In (paths acc : dict) (m : str) (op : json) :
  In (m, op) (fold_left record_post paths acc) ->
  In (m, op) acc
  \/ exists path item,
       In (path, JObj item) paths /\ strip_slashes path = m
       /\ dict_get "post" item = Some op.
Proof.
  revert acc. induction paths as [|[path v] t IH]; intros acc; simpl; [tauto|].
  intros H. apply IH in H as [H|(p & i & Hin & Hm & Hp)].
  - unfold record_post in H. simpl in H.
    destruct v as [| | | | | |item]; auto.
    destruct (dict_get "post" item) as [op'|] eqn:E; auto.
    apply dict_set_In in H as [[-> ->]|H]; auto.
    right. exists path, item. auto.
  - right. exists p, i. auto.
Qed.

Lemma record_post_kept (paths acc : dict) (m : str) (op : json) :
  dict_get m acc = Some op ->
  ~ In m (map strip_slashes (keys (posting paths))) ->
  dict_get m (fold_left record_post paths acc) = Some op.
Proof.
  revert acc. induction paths as [|[path v] t IH]; intros acc Hg Hn; simpl;
    [assumption|].
  unfold posting in Hn. simpl in Hn.
  unfold record_post at 2. simpl.
  destruct v as [| | | | | |item]; simpl in Hn; try (apply IH; assumption).
  unfold dict_has in Hn.
  destruct (dict_get "post" item) as [op'|]; simpl in Hn;
    [|apply IH; assumption].
  apply IH; [|tauto].
  rewrite dict_get_set_other; [assumption|]. intros ->. tauto.
Qed.

Lemma record_post_last (paths acc : dict) (path : str) (item : dict)
    (op : json) :
  NoDup (map strip_slashes (keys (posting paths))) ->
  In (path, JObj item) paths ->
  dict_get "post" item = Some op ->
  dict_get (strip_slashes path) (fold_left record_post paths acc) = Some op.
Proof.
  revert acc. induction paths as [|[p v] t IH]; intros acc Hd Hin Hp; simpl;
    [destruct Hin|].
  unfold posting in Hd. simpl in Hd.
  destruct Hin as [[= -> ->]|Hin].
  - unfold record_post at 2. simpl in *. unfold dict_has in Hd.
    rewrite Hp in *. simpl in Hd. inversion Hd; subst.
    apply record_post_kept; [apply dict_get_set_same|assumption].
  - apply IH; try assumption.
    destruct (carries "post" v); [now inversion Hd|assumption].
Qed.

(** C1, amended.  On a document whose path table is a dictionary of
    dictionaries the collapsing step returns; only the path table is replaced,
    and the new one has the single entry [/] with the single operation
    [post], whose [x-methods] is the method table.  The keys of the method
    table are pairwise distinct and are the stripped names of the paths that
    define a [post] operation (a path without one is not recorded).  Each
    value is the [post] descriptor of an original path with that stripped
    name, and when no two posting paths share a stripped name every posting
    path's descriptor is found under its stripped name. *)
Theorem collapse_paths_single_endpoint (d paths : dict) :
  dict_get "paths" d = Some (JObj paths) ->
  Forall (fun e => exists item, snd e = JObj item) paths ->
  exists methods,
    collapse_paths (JObj d)
    = Ok (JObj (dict_set "paths"
                  (JObj [("/", JObj [("post", jsonrpc_operation methods)])]) d))
    /\ methods_of (JObj (dict_set "paths" (collapsed_paths methods) d))
       = Ok methods
    /\ NoDup (keys methods)
    /\ (forall m, In m (keys methods)
                  <-> In m (map strip_slashes (keys (posting paths))))
    /\ (forall m op, In (m, op) methods ->
          exists path item,
            In (path, JObj item) paths /\ strip_slashes path = m
            /\ dict_get "post" item = Some op)
    /\ (NoDup (map strip_slashes (keys (posting paths))) ->
        forall path item op,
          In (path, JObj item) paths -> dict_get "post" item = Some op ->
          dict_get (strip_slashes path) methods = Some op).
Proof.
  intros Hp Hitems. exists (fold_left record_post paths []).
  split; [|split; [|split; [|split; [|split]]]].
  - unfold collapse_paths, py_in, py_getitem, dict_has. cbn [bind].
    rewrite Hp. cbn [bind py_items].
    rewrite collect_methods_fold by assumption. reflexivity.
  - unfold methods_of. simpl. rewrite dict_get_set_same. reflexivity.
  - apply record_post_NoDup. constructor.
  - intros m. rewrite record_post_keys. simpl. tauto.
  - intros m op H. apply record_post_In in H as [[]|H]. assumption.
  - intros Hd path item op Hin Hpost. eapply record_post_last; eauto.
Qed.

Lemma collapse_paths_single_endpoint_witness :
  exists methods,
    collapse_paths two_path_document
    = Ok (JObj [("openapi", JStr "3.0.0");
                ("paths",
                  JObj [("/", JObj [("post", jsonrpc_operation methods)])])])
    /\ methods = [("status", JObj [("summary", JStr "s")])].
Proof.
  destruct (collapse_paths_single_endpoint
              [("openapi", JStr "3.0.0");
               ("paths",
                 JObj [("/status", JObj [("post", JObj [("summary", JStr "s")])]);
                       ("/health", JObj [("get", JObj [])])])]
              [("/status", JObj [("post", JObj [("summary", JStr "s")])]);
               ("/health", JObj [("get", JObj [])])])
    as (methods & Hc & _).
  - reflexivity.
  - repeat constructor; simpl; eauto.
  - exists methods. split; [exact Hc|].
    vm_compute in Hc. now injection Hc as <-.
Defined.

(** C1 as stated fails on a path without a [post] operation: its stripped
    name is among the original path names and not among the keys of the
    method table. *)
Lemma collapse_drops_path_without_post :
  exists spec' methods names,
    collapse_paths get_only_document = Ok spec'
    /\ methods_of spec' = Ok methods
    /\ path_names get_only_document = Ok names
    /\ In "status" names
    /\ ~ In "status" (keys methods).
Proof.
  exists (JObj [("paths", collapsed_paths [])]), [], ["status"].
  repeat split; simpl; tauto.
Qed.

(** ** Union resolution *)

Lemma dict_set_nonempty (k : str) (v : json) (d : dict) :
  truthy (JObj (dict_set k v d)) = true.
Proof. destruct d as [|[k' v'] t]; simpl; [reflexivity|]. now destruct (str_eqb k' k). Qed.

Lemma rpc_request_property_spec (acc acc' : dict) (item : json) :
  rpc_request_property acc item = Ok acc' ->
  truthy (JObj acc') = truthy (JObj acc) || offers item.
Proof.
  unfold rpc_request_property, offers. intros H.
  destruct (py_in "$ref" item) as [[|]|]; cbn [bind] in H; try discriminate.
  - bind_inv H. bind_inv H. injection H as <-.
    rewrite dict_set_nonempty. now rewrite orb_true_r.
  - destruct (py_in "type" item) as [[|]|]; cbn [bind] in H; try discriminate.
    + bind_inv H. rewrite orb_true_r.
      destruct x; try discriminate. injection H as <-. apply dict_set_nonempty.
    + injection H as <-. now rewrite orb_false_r.
Qed.

Lemma rpc_request_properties_spec (items : list json) (acc props : dict) :
  foldM rpc_request_property items acc = Ok props ->
  truthy (JObj props) = truthy (JObj acc) || existsb offers items.
Proof.
  revert acc. induction items as [|item t IH]; intros acc H; cbn [foldM] in H.
  - injection H as <-. cbn [existsb]. now rewrite orb_false_r.
  - bind_inv H. apply IH in H. apply rpc_request_property_spec in E.
    rewrite H, E. cbn [existsb]. now rewrite orb_assoc.
Qed.

Lemma py_len_iter (v : json) (n : nat) :
  py_len v = Ok n -> exists items, py_iter v = Ok items /\ length items = n.
Proof.
  destruct v; simpl; try discriminate; intros [= <-];
    eexists; (split; [reflexivity|]); now rewrite ?length_map.
Qed.

Lemma fix_anyof_schema_spec (name : str) (schema schema' : json) :
  fix_anyof_schema name schema = Ok schema' -> resolved name schema schema'.
Proof.
  unfold fix_anyof_schema, resolved. intros H.
  destruct (py_in "anyOf" schema) as [[|]|]; cbn [bind] in H; try discriminate.
  - split; [discriminate|]. intros anyof_items _ Hitems.
    rewrite Hitems in H. cbn [bind] in H.
    destruct (str_eqb name "BlockId") eqn:Eb.
    + apply str_eqb_eq in Eb. bind_inv H. injection H as <-.
      split; [intros _; split; reflexivity|].
      split; intros Hne; contradiction.
    + apply str_eqb_neq in Eb.
      split; [intros; contradiction|].
      destruct (is_rpc_request name).
      * split; [|intros _ [=]]. intros _ _ items Hi.
        rewrite Hi in H. cbn [bind] in H. bind_inv H.
        apply rpc_request_properties_spec in E. simpl truthy at 2 in E.
        rewrite orb_false_l in E. rewrite E in H.
        destruct (existsb offers items).
        -- bind_inv H. injection H as <-.
           split; [intros _; split; reflexivity|discriminate].
        -- injection H as <-. split; [discriminate|reflexivity].
      * split; [intros _ [=]|]. intros _ _ items Hi.
        bind_inv H. apply py_len_iter in E as (items' & Hi' & Hlen).
        rewrite Hi in Hi'. injection Hi' as <-.
        destruct (0 <? x)%nat eqn:Ex.
        -- rewrite Hi in H. cbn [bind] in H. now injection H as <-.
        -- injection H as <-. apply Nat.ltb_ge in Ex.
           destruct items; [reflexivity|simpl in Hlen; lia].
  - split; [intros _; now injection H as <-|discriminate].
Qed.

(** C2, amended.  When the union-resolution pass returns, the names are kept
    and every named schema is as follows.  A schema without [anyOf] is
    unchanged, so a [oneOf] stays.  A schema with [anyOf] loses it when it is
    [BlockId], and when its name contains [Rpc] and [Request] and one of its
    alternatives has [$ref] or [type] (it is then an object with
    [properties]); a request schema with no such alternative is unchanged.
    Any other schema with [anyOf] becomes its first alternative that is truthy
    and not the null schema, whatever that alternative holds, and is unchanged
    when there is none. *)
Theorem fix_anyof_schemas_resolves (spec spec' : json) :
  fix_anyof_schemas spec = Ok spec' ->
  exists schemas schemas',
    schemas_of spec = Ok schemas
    /\ schemas_of spec' = Ok schemas'
    /\ keys schemas' = keys schemas
    /\ Forall2 (fun e e' => fst e' = fst e /\ resolved (fst e) (snd e) (snd e'))
         schemas schemas'.
Proof.
  intros H. apply for_schemas_inv in H as (schemas & new & Hs & F & _ & Hn).
  exists schemas, new. repeat split; try assumption.
  - eapply rewritten_keys; eassumption.
  - clear Hs Hn. induction F as [|e e' t t' [Hk He] _ IH]; constructor;
      [|assumption].
    split; [assumption|now apply fix_anyof_schema_spec].
Qed.

Lemma fix_anyof_schemas_resolves_witness :
  exists schemas schemas',
    schemas_of block_id_document = Ok schemas
    /\ schemas_of
         (JObj [("components",
            JObj [("schemas",
              JObj [("BlockId", block_id_schema (JStr []));
                    ("RpcQueryRequest",
                      JObj [("type", JStr "object");
                            ("description", JStr []);
                            ("properties",
                              JObj [("viewaccount",
                                      JObj [("$ref",
                                        JStr "#/components/schemas/ViewAccount")]);
                                    ("by_hash",
                                      JObj [("type", JStr "object");
                                            ("title", JStr "by_hash")])])]);
                    ("Finality", JObj [("type", JStr "string")])])])])
       = Ok schemas'
    /\ keys schemas' = keys schemas
    /\ Forall2 (fun e e' => fst e' = fst e /\ resolved (fst e) (snd e) (snd e'))
         schemas schemas'.
Proof.
  apply (fix_anyof_schemas_resolves block_id_document).
  reflexivity.
Defined.

(** C2 as stated fails: the pass, and the whole repair, return this document
    as it is, with the [oneOf] of one schema and the [anyOf] of another, whose
    only alternative is the null schema. *)
Lemma union_keywords_survive :
  fix_anyof_schemas one_of_document = Ok one_of_document
  /\ repair one_of_document = Ok one_of_document
  /\ exists payload nothing,
       schemas_of one_of_document
       = Ok [("Payload", payload); ("Nothing", nothing)]
       /\ carries "oneOf" payload = true
       /\ carries "anyOf" nothing = true.
Proof.
  split; [reflexivity|]. split; [reflexivity|].
  do 2 eexists. split; [reflexivity|]. split; reflexivity.
Qed.

(** ** Structural cleanup and references *)

Lemma existsb_str_eqb (name : str) (names : list str) :
  existsb (str_eqb name) names = true <-> In name names.
Proof.
  rewrite existsb_exists. split.
  - intros (x & Hx & E). apply str_eqb_eq in E. now subst.
  - intros H. exists name. split; [assumption|apply str_eqb_refl].
Qed.

Lemma ref_target_string_schema (d : json) : ref_target (string_schema d) = None.
Proof. reflexivity. Qed.

Lemma fix_problematic_pattern_spec (names : list str) (name : str)
    (schema schema' : json) :
  fix_problematic_pattern names name schema = Ok schema' ->
  dangling names schema' = false
  /\ (forall target, ref_target schema = Some target -> ~ In target names ->
        schema' = string_schema (JStr ("Reference to " ++ target)))
  /\ (schema' = schema
      \/ (exists d, schema = JObj [("description", d)]
                    /\ schema' = string_schema d)
      \/ (exists target,
            schema' = string_schema (JStr ("Reference to " ++ target)))).
Proof.
  unfold fix_problematic_pattern. intros H.
  unbind H as n En. unbind H as only_description Eo.
  unbind H as after_first Ea. unbind H as has_ref Er.
  assert (A : after_first = schema
              \/ exists d, schema = JObj [("description", d)]
                           /\ after_first = string_schema d).
  { destruct only_description; [|left; congruence].
    right. unbind Ea as d Ed. injection Ea as <-.
    destruct (n =? 1)%nat eqn:E1; [|discriminate].
    apply Nat.eqb_eq in E1. subst n.
    destruct schema as [| | | | | |entries]; try discriminate.
    simpl in En. injection En as En.
    destruct entries as [|[k v] [|]]; try discriminate.
    simpl in Eo, Ed. unfold dict_has in Eo. simpl in Eo.
    destruct (str_eqb k "description") eqn:Ek; [|discriminate].
    apply str_eqb_eq in Ek. subst k. injection Ed as <-. eauto. }
  assert (D : dangling names after_first = dangling names schema
              \/ dangling names after_first = false).
  { destruct A as [->|(d & _ & ->)]; auto. }
  destruct has_ref.
  - unbind H as r Eg. unbind H as s Es.
    destruct schema as [| | | | | |d]; try discriminate.
    simpl in Eg. destruct (dict_get "$ref" d) as [r'|] eqn:Ed; [|discriminate].
    injection Eg as ->. destruct r; try discriminate. injection Es as ->.
    assert (R : ref_target (JObj d)
                = if startswith schema_ref_prefix s
                  then Some (last_segment s) else None)
      by (simpl; now rewrite Ed).
    unfold dangling in *. rewrite R in *. clear R.
    destruct (startswith schema_ref_prefix s).
    + destruct (existsb (str_eqb (last_segment s)) names) eqn:Ex.
      * simpl in H. injection H as <-. simpl in D.
        split; [destruct D; assumption|].
        split; [|tauto].
        intros target [= <-] Hn. apply existsb_str_eqb in Ex. contradiction.
      * simpl in H. injection H as <-.
        split; [reflexivity|].
        split; [|right; right; eexists; reflexivity].
        now intros target [= <-] _.
    + injection H as <-. split; [destruct D; assumption|].
      split; [discriminate|tauto].
  - injection H as <-.
    assert (R : ref_target schema = None).
    { destruct schema as [| | | | | |d]; try reflexivity.
      simpl in Er. unfold dict_has in Er. simpl.
      destruct (dict_get "$ref" d); [discriminate|reflexivity]. }
    unfold dangling in *. rewrite R in *.
    split; [destruct D; assumption|].
    split; [discriminate|tauto].
Qed.

Lemma fix_problematic_patterns_inv (spec spec' : json) :
  fix_problematic_patterns spec = Ok spec' ->
  exists schemas new,
    schemas_of spec = Ok schemas
    /\ Forall2 (rewritten (fix_problematic_pattern (keys schemas))) schemas new
    /\ spec' = store_schemas spec new
    /\ schemas_of spec' = Ok new.
Proof.
  unfold fix_problematic_patterns. intros H. bind_inv H.
  apply for_schemas_inv in H as (schemas & new & Hs & F & Hst & Hn).
  rewrite E in Hs. injection Hs as ->. exists schemas, new. auto.
Qed.

Lemma remove_pattern_props_str (v : json) (s : str) :
  remove_pattern_props v = JStr s -> v = JStr s.
Proof. destruct v; simpl; try discriminate; auto. Qed.

Lemma ref_target_remove (v : json) :
  ref_target (remove_pattern_props v) = ref_target v.
Proof.
  destruct v as [| | | | | |d]; try reflexivity.
  rewrite remove_pattern_props_obj. simpl.
  rewrite dict_get_map_values, dict_get_del_other by discriminate.
  destruct (dict_get "$ref" d) as [r|]; [|reflexivity].
  simpl. destruct r; reflexivity.
Qed.

Lemma dict_del_absent (k : str) (d : dict) :
  ~ In k (keys d) -> dict_del k d = d.
Proof.
  induction d as [|[k' v] t IH]; simpl; [reflexivity|].
  intros H. destruct (str_eqb k' k) eqn:E.
  - apply str_eqb_eq in E. tauto.
  - simpl. rewrite IH; tauto.
Qed.

Lemma schemas_of_remove (spec : json) (schemas : dict) :
  schemas_of spec = Ok schemas ->
  schemas_of (remove_pattern_props spec)
  = Ok (map_values remove_pattern_props (dict_del pattern_key schemas)).
Proof.
  intros H.
  destruct (schemas_of_inv _ _ H) as (d & -> & [[Hc ->]|(c & Hc & [[Hs ->]|Hs])]);
    rewrite remove_pattern_props_obj; unfold schemas_of; cbn [py_get bind];
    rewrite dict_get_map_values, dict_get_del_other, Hc by discriminate;
    try reflexivity; cbn [option_map]; rewrite remove_pattern_props_obj;
    cbn [py_get bind];
    rewrite dict_get_map_values, dict_get_del_other, Hs by discriminate;
    try reflexivity.
  cbn [option_map]. rewrite remove_pattern_props_obj. reflexivity.
Qed.

Lemma keys_map_values (f : json -> json) (d : dict) :
  keys (map_values f d) = keys d.
Proof. unfold keys, map_values. rewrite map_map. reflexivity. Qed.

Lemma for_schemas_keys f (spec spec' : json) (schemas : dict) :
  for_schemas f spec = Ok spec' -> schemas_of spec = Ok schemas ->
  exists new, schemas_of spec' = Ok new /\ keys new = keys schemas.
Proof.
  intros H Hs. apply for_schemas_inv in H as (s & new & Hs' & F & _ & Hn).
  rewrite Hs in Hs'. injection Hs' as <-. exists new. split; [assumption|].
  eapply rewritten_keys; eassumption.
Qed.

(** C6, amended.  The structural cleanup pass examines the named schemas
    themselves, not the nodes inside them.  When it returns, the names are
    kept, no named schema has a [$ref] into the table whose last segment is
    not a name of the table, and a named schema that had such a [$ref] is the
    string schema described as Reference to that segment.  After the whole
    repair the names are kept and no named schema has such a [$ref] either,
    provided no schema is named [patternProperties] (pattern removal deletes
    such an entry after the check); what stands in the place of a schema
    that had one is then not always the Reference schema, since the
    empty-schema pass comes first and takes a schema that is nothing but a
    reference for an empty one: [lost_ref_document] ends with the
    replacement for the empty schema [Lost]. *)
Theorem named_references_resolve (spec : json) :
  (forall cleaned,
     fix_problematic_patterns spec = Ok cleaned ->
     exists schemas schemas',
       schemas_of spec = Ok schemas
       /\ schemas_of cleaned = Ok schemas'
       /\ keys schemas' = keys schemas
       /\ Forall (fun e' => dangling (keys schemas') (snd e') = false) schemas'
       /\ Forall2
            (fun e e' =>
               forall target,
                 ref_target (snd e) = Some target ->
                 ~ In target (keys schemas) ->
                 snd e' = string_schema (JStr ("Reference to " ++ target)))
            schemas schemas')
  /\ (forall repaired schemas,
        repair spec = Ok repaired ->
        schemas_of spec = Ok schemas ->
        ~ In pattern_key (keys schemas) ->
        exists schemas',
          schemas_of repaired = Ok schemas'
          /\ keys schemas' = keys schemas
          /\ Forall (fun e' => dangling (keys schemas') (snd e') = false)
               schemas')
  /\ fix_problematic_patterns lost_ref_document
     = Ok (lost_ref_outcome (string_schema (JStr "Reference to Missing")))
  /\ repair lost_ref_document
     = Ok (lost_ref_outcome
             (string_schema (JStr "Auto-fixed empty schema for Lost"))).
Proof.
  assert (P : forall s cleaned,
            fix_problematic_patterns s = Ok cleaned ->
            exists schemas schemas',
              schemas_of s = Ok schemas
              /\ schemas_of cleaned = Ok schemas'
              /\ keys schemas' = keys schemas
              /\ Forall (fun e' => dangling (keys schemas') (snd e') = false)
                   schemas'
              /\ Forall2
                   (fun e e' =>
                      forall target,
                        ref_target (snd e) = Some target ->
                        ~ In target (keys schemas) ->
                        snd e' = string_schema (JStr ("Reference to " ++ target)))
                   schemas schemas').
  { intros s cleaned H.
    apply fix_problematic_patterns_inv in H as (schemas & new & Hs & F & _ & Hn).
    exists schemas, new.
    pose proof (rewritten_keys _ _ _ F) as K.
    repeat split; try assumption.
    - rewrite K. clear Hs Hn K. generalize dependent (keys schemas).
      intros names F.
      induction F as [|e e' t t' [_ He] _ IH]; constructor; [|assumption].
      now apply fix_problematic_pattern_spec in He.
    - clear Hs Hn K. generalize dependent (keys schemas). intros names F.
      induction F as [|e e' t t' [_ He] _ IH]; constructor; [|assumption].
      apply fix_problematic_pattern_spec in He as (_ & He & _). exact He. }
  split; [apply P|]. split; [|split; reflexivity].
  intros repaired schemas H Hs Hpp. unfold repair in H.
  bind_inv H. bind_inv H. bind_inv H. injection H as <-.
  rename x into s1, x0 into s2, x1 into s3.
  destruct (for_schemas_keys _ _ _ _ E Hs) as (sch1 & Hs1 & K1).
  destruct (for_schemas_keys _ _ _ _ E0 Hs1) as (sch2 & Hs2 & K2).
  destruct (P _ _ E1) as (sch2' & sch3 & Hs2' & Hs3 & K3 & D & _).
  rewrite Hs2 in Hs2'. injection Hs2' as <-.
  assert (K : keys sch3 = keys schemas) by congruence.
  exists (map_values remove_pattern_props sch3).
  unfold remove_pattern_properties.
  rewrite (schemas_of_remove _ _ Hs3), dict_del_absent by (rewrite K; exact Hpp).
  rewrite keys_map_values. repeat split; [assumption|].
  unfold map_values. rewrite Forall_map.
  eapply Forall_impl; [|exact D]. intros e He. simpl.
  unfold dangling in *. now rewrite ref_target_remove.
Qed.

Lemma named_references_resolve_witness :
  exists schemas',
    schemas_of
      (JObj [("components",
         JObj [("schemas",
           JObj [("Owner", string_schema (JStr "Reference to Missing"));
                 ("Alias",
                   JObj [("type", JStr "object");
                         ("$ref", JStr "#/components/schemas/Owner")])])])])
    = Ok schemas'
    /\ keys schemas' = ["Owner"; "Alias"]
    /\ Forall (fun e' => dangling (keys schemas') (snd e') = false) schemas'.
Proof.
  apply (proj1 (proj2 (named_references_resolve broken_ref_document))
           _ [("Owner",
                JObj [("type", JStr "object");
                      ("$ref", JStr "#/components/schemas/Missing")]);
              ("Alias",
                JObj [("type", JStr "object");
                      ("$ref", JStr "#/components/schemas/Owner")])]).
  - reflexivity.
  - reflexivity.
  - simpl. intros [H|[H|[]]]; discriminate.
Defined.

(** C6 as stated fails: the repair returns this document as it is, with the
    reference to the absent [Missing] inside a property of [Account]; and the
    collapsing step adds two references without looking at the table. *)
Lemma nested_reference_left_dangling :
  repair nested_ref_document = Ok nested_ref_document
  /\ (exists account,
        schemas_of nested_ref_document = Ok [("Account", account)]
        /\ at_path [Key "properties"; Key "owner"; Key "$ref"] account
           = Some (JStr "#/components/schemas/Missing"))
  /\ has_dangling_ref ["Account"] nested_ref_document = true
  /\ (exists spec',
        collapse_paths get_only_document = Ok spec'
        /\ schemas_of spec' = Ok []
        /\ has_dangling_ref [] spec' = true).
Proof.
  split; [reflexivity|]. split; [eexists; split; reflexivity|].
  split; [reflexivity|]. eexists. repeat split.
Qed.

(** ** Applying the repair again *)

Lemma fix_empty_schema_settled (name : str) (schema : json) :
  is_empty_schema schema = Ok false -> fix_empty_schema name schema = Ok schema.
Proof. unfold fix_empty_schema. now intros ->. Qed.

Lemma fix_anyof_schema_settled (name : str) (schema : json) :
  py_in "anyOf" schema = Ok false -> fix_anyof_schema name schema = Ok schema.
Proof. unfold fix_anyof_schema. now intros ->. Qed.

Lemma nonempty_is_dict (schema : json) (b : bool) :
  is_empty_schema schema = Ok b -> exists d, schema = JObj d.
Proof. destruct schema; try discriminate. eauto. Qed.

Lemma fix_empty_schemas_again (spec once : json) :
  fix_empty_schemas spec = Ok once -> fix_empty_schemas once = Ok once.
Proof.
  intros H. apply for_schemas_inv in H as (schemas & new & _ & F & _ & Hn).
  apply for_schemas_fixed with new; [assumption|]. clear Hn.
  induction F as [|e e' t t' [_ He] _ IH]; constructor; [|assumption].
  apply fix_empty_schema_settled.
  apply fix_empty_schema_inv in He as (d & _ & [[_ ->]|[He ->]]);
    [apply replacement_has_type|assumption].
Qed.

Lemma fix_problematic_pattern_string (names : list str) (name : str)
    (d : json) :
  fix_problematic_pattern names name (string_schema d) = Ok (string_schema d).
Proof. reflexivity. Qed.

Lemma fix_problematic_patterns_again (spec once : json) :
  fix_problematic_patterns spec = Ok once ->
  fix_problematic_patterns once = Ok once.
Proof.
  intros H.
  apply fix_problematic_patterns_inv in H as (schemas & new & _ & F & _ & Hn).
  unfold fix_problematic_patterns. rewrite Hn. cbn [bind].
  apply for_schemas_fixed with new; [assumption|].
  rewrite (rewritten_keys _ _ _ F). clear Hn.
  generalize dependent (keys schemas). intros names F.
  induction F as [|e e' t t' [Hk He] _ IH]; constructor; [|assumption].
  rewrite Hk.
  destruct (fix_problematic_pattern_spec _ _ _ _ He)
    as (_ & _ & [Heq|[(d & _ & ->)|(target & ->)]]);
    [|reflexivity|reflexivity].
  rewrite Heq in *. exact He.
Qed.

Lemma remove_pattern_props_again (v : json) :
  remove_pattern_props (remove_pattern_props v) = remove_pattern_props v.
Proof. apply remove_pattern_props_fixed, remove_pattern_props_clean. Qed.

Lemma settled_py_in (schema : json) :
  settled schema -> py_in "anyOf" schema = Ok false.
Proof.
  intros (He & Ha & _). destruct (nonempty_is_dict _ _ He) as [d ->].
  simpl in *. now rewrite Ha.
Qed.

Lemma has_pattern_key_entries (d : dict) :
  has_pattern_key (JObj d) = false <->
  ~ In pattern_key (keys d) /\ Forall (fun e => has_pattern_key (snd e) = false) d.
Proof.
  rewrite has_pattern_key_obj.
  induction d as [|[k v] t IH]; simpl.
  - split; [intros _; split; [tauto|constructor]|reflexivity].
  - rewrite !orb_false_iff, IH, str_eqb_neq. split.
    + intros ((Hk & Hv) & Hn & Ht). split; [intuition congruence|now constructor].
    + intros (Hn & Hf). inversion Hf; subst. intuition congruence.
Qed.

Lemma has_pattern_key_set (k : str) (v : json) (d : dict) :
  has_pattern_key (JObj d) = false -> k <> pattern_key ->
  has_pattern_key v = false ->
  has_pattern_key (JObj (dict_set k v d)) = false.
Proof.
  rewrite !has_pattern_key_entries. intros (Hn & Hf) Hk Hv. split.
  - rewrite dict_set_keys. intuition congruence.
  - clear Hn. induction Hf as [|[k' v'] t Hv' Ht IH]; simpl.
    + now repeat constructor.
    + destruct (str_eqb k' k); now constructor.
Qed.

Lemma has_pattern_key_store (spec : json) (schemas new : dict) :
  has_pattern_key spec = false ->
  schemas_of spec = Ok schemas ->
  keys new = keys schemas ->
  Forall (fun e => has_pattern_key (snd e) = false) new ->
  has_pattern_key (store_schemas spec new) = false.
Proof.
  intros Hp Hs Hk Hf.
  destruct (schemas_of_inv _ _ Hs) as (d & -> & [[Hc ->]|(c & Hc & [[Hc' ->]|Hc'])]);
    unfold store_schemas; rewrite Hc; try rewrite Hc'; try assumption.
  destruct (clean_child _ _ _ Hp Hc) as [_ Hpc].
  destruct (clean_child _ _ _ Hpc Hc') as [_ Hps].
  apply has_pattern_key_set; [assumption|discriminate|].
  apply has_pattern_key_set; [assumption|discriminate|].
  apply has_pattern_key_entries. split; [|assumption].
  rewrite Hk. now apply has_pattern_key_entries in Hps.
Qed.

Lemma schemas_clean (spec : json) (schemas : dict) :
  has_pattern_key spec = false -> schemas_of spec = Ok schemas ->
  Forall (fun e => has_pattern_key (snd e) = false) schemas.
Proof.
  intros Hp Hs.
  destruct (schemas_of_inv _ _ Hs) as (d & -> & [[Hc ->]|(c & Hc & [[Hc' ->]|Hc'])]);
    try constructor.
  destruct (clean_child _ _ _ Hp Hc) as [_ Hpc].
  destruct (clean_child _ _ _ Hpc Hc') as [_ Hps].
  now apply has_pattern_key_entries in Hps.
Qed.

(** C4, amended.  Applying a pass to its own output changes nothing for
    empty-schema resolution, for structural cleanup and for pattern-constraint
    removal.  The four passes of the repair together leave their own output
    unchanged when no named schema of the document has [anyOf] and the
    document has no [patternProperties] key.  Union resolution and endpoint
    collapsing are left out: each can change its own output. *)
Theorem repair_again (spec : json) :
  (forall once, fix_empty_schemas spec = Ok once ->
                fix_empty_schemas once = Ok once)
  /\ (forall once, fix_problematic_patterns spec = Ok once ->
                   fix_problematic_patterns once = Ok once)
  /\ remove_pattern_properties (remove_pattern_properties spec)
     = remove_pattern_properties spec
  /\ (forall once schemas,
        repair spec = Ok once ->
        schemas_of spec = Ok schemas ->
        Forall (fun e => carries "anyOf" (snd e) = false) schemas ->
        has_pattern_key spec = false ->
        repair once = Ok once).
Proof.
  split; [apply fix_empty_schemas_again|].
  split; [apply fix_problematic_patterns_again|].
  split; [apply remove_pattern_props_again|].
  intros once schemas H Hs Hany Hpp. unfold repair in H.
  unbind H as s1 E1. unbind H as s2 E2. unbind H as s3 E3.
  injection H as <-.
  (* after the first pass every named schema is settled *)
  pose proof (schemas_clean _ _ Hpp Hs) as Hclean.
  pose proof E1 as I1.
  apply for_schemas_inv in I1 as (sch0 & sch1 & Hs0 & F1 & -> & Hs1).
  rewrite Hs in Hs0. injection Hs0 as <-.
  assert (S1 : Forall (fun e => settled (snd e)) sch1).
  { clear Hs Hs1 E1 E2. revert Hany Hclean.
    induction F1 as [|e e' t t' [_ He] _ IH]; intros Hany Hclean;
      constructor.
    - inversion Hany; subst. inversion Hclean; subst.
      apply fix_empty_schema_inv in He as (d & Hd & [[_ ->]|[He ->]]).
      + destruct (replacement_has_type (fst e)) as (_ & ? & ? & ?).
        now repeat split.
      + now repeat split.
    - inversion Hany; subst. inversion Hclean; subst. auto. }
  pose proof (rewritten_keys _ _ _ F1) as K1.
  assert (C1 : has_pattern_key (store_schemas spec sch1) = false).
  { apply has_pattern_key_store with schemas; try assumption.
    eapply Forall_impl; [|exact S1]. now intros e (_ & _ & ?). }
  (* the second pass finds nothing to do *)
  assert (A : fix_anyof_schemas (store_schemas spec sch1)
              = Ok (store_schemas spec sch1)).
  { apply for_schemas_fixed with sch1; [assumption|].
    eapply Forall_impl; [|exact S1]. intros e He.
    now apply fix_anyof_schema_settled, settled_py_in. }
  rewrite A in E2. injection E2 as <-.
  (* the third pass keeps the named schemas settled *)
  pose proof E3 as I3.
  apply fix_problematic_patterns_inv in I3 as (sch1' & sch3 & Hs1' & F3 & -> & Hs3).
  rewrite Hs1 in Hs1'. injection Hs1' as <-.
  assert (S3 : Forall (fun e => settled (snd e)) sch3).
  { clear - S1 F3. generalize dependent (keys sch1). intros names F3.
    induction F3 as [|e e' t t' [_ He] _ IH]; constructor.
    - inversion S1; subst.
      destruct (fix_problematic_pattern_spec _ _ _ _ He)
        as (_ & _ & [Heq|[(d & Hd & ->)|(target & ->)]]).
      + now rewrite Heq.
      + destruct H1 as (_ & _ & Hp). rewrite Hd in Hp.
        repeat split. simpl in *. now rewrite Hp.
      + now repeat split.
    - inversion S1; subst. auto. }
  pose proof (rewritten_keys _ _ _ F3) as K3.
  assert (C3 : has_pattern_key (store_schemas (store_schemas spec sch1) sch3)
               = false).
  { apply has_pattern_key_store with sch1; try assumption.
    eapply Forall_impl; [|exact S3]. now intros e (_ & _ & ?). }
  unfold remove_pattern_properties.
  rewrite (remove_pattern_props_fixed _ C3).
  set (s3 := store_schemas (store_schemas spec sch1) sch3) in *.
  (* the second run *)
  assert (R1 : fix_empty_schemas s3 = Ok s3).
  { apply for_schemas_fixed with sch3; [assumption|].
    eapply Forall_impl; [|exact S3]. intros e (He & _).
    now apply fix_empty_schema_settled. }
  assert (R2 : fix_anyof_schemas s3 = Ok s3).
  { apply for_schemas_fixed with sch3; [assumption|].
    eapply Forall_impl; [|exact S3]. intros e He.
    now apply fix_anyof_schema_settled, settled_py_in. }
  unfold repair. rewrite R1. cbn [bind]. rewrite R2. cbn [bind].
  rewrite (fix_problematic_patterns_again _ _ E3). cbn [bind].
  unfold remove_pattern_properties.
  now rewrite (remove_pattern_props_fixed _ C3).
Qed.

Lemma repair_again_witness :
  exists once,
    repair plain_document = Ok once /\ repair once = Ok once.
Proof.
  eexists. split; [reflexivity|].
  apply (proj2 (proj2 (proj2 (repair_again plain_document))))
    with (schemas := [("AccountId", JObj []);
                      ("Note", JObj [("description", JStr "a note")]);
                      ("Owner",
                        JObj [("type", JStr "object");
                              ("$ref", JStr "#/components/schemas/Missing")])]).
  - reflexivity.
  - reflexivity.
  - repeat constructor.
  - reflexivity.
Defined.

(** C4 as stated fails.  Collapsing a collapsed document files the synthetic
    operation under the empty method name; [fix_openapi_spec] as a whole
    changes its own output likewise; and a second repair resolves the union
    that the first one lifted out of a union. *)
Lemma second_run_changes_document :
  (exists once twice status,
     collapse_paths status_document = Ok once
     /\ collapse_paths once = Ok twice
     /\ methods_of once = Ok [("status", status)]
     /\ methods_of twice = Ok [([], jsonrpc_operation [("status", status)])]
     /\ once <> twice)
  /\ (exists once twice,
        fix_openapi_spec status_document = Ok once
        /\ fix_openapi_spec once = Ok twice
        /\ once <> twice)
  /\ (exists once twice,
        repair nested_union_document = Ok once
        /\ repair once = Ok twice
        /\ schemas_of once
           = Ok [("Value", JObj [("anyOf", JArr [JObj [("type", JStr "string")]])])]
        /\ schemas_of twice = Ok [("Value", JObj [("type", JStr "string")])]
        /\ once <> twice).
Proof.
  split; [|split].
  - do 3 eexists. repeat split; try reflexivity. discriminate.
  - do 2 eexists. repeat split; try reflexivity. discriminate.
  - do 2 eexists. repeat split; try reflexivity. discriminate.
Qed.

(** ** The search *)

Lemma eat_prefix (s r b : str) g :
  eat s (MState b (s ++ r) g) = Some (MState (rev s ++ b) r g).
Proof.
  revert b. induction s as [|c s IH]; intros b; simpl; [reflexivity|].
  rewrite Ascii.eqb_refl, IH, <- app_assoc. reflexivity.
Qed.

Lemma rmatch_lit (s r b : str) g k :
  rmatch (Lit s) k (MState b (s ++ r) g) = k (MState (rev s ++ b) r g).
Proof. simpl. now rewrite eat_prefix. Qed.

Lemma rmatch_cat_cons (a : re) (l : list re) k st :
  rmatch (cat (a :: l)) k st = rmatch a (rmatch (cat l) k) st.
Proof. reflexivity. Qed.

Lemma star_loop_step body k fuel st :
  star_loop body k (S fuel) st
  = match body (fun st' =>
                  if (length (rest st') <? length (rest st))%nat
                  then star_loop body k fuel st' else None) st with
    | Some m => Some m
    | None => k st
    end.
Proof. reflexivity. Qed.

Lemma rmatch_chr (p : ascii -> bool) k (c : ascii) (r b : str) g :
  rmatch (Chr p) k (MState b (c :: r) g)
  = if p c then k (MState (c :: b) r g) else None.
Proof. reflexivity. Qed.

Lemma rmatch_star (a : re) k st :
  rmatch (Star a) k st = star_loop (rmatch a) k (S (length (rest st))) st.
Proof. reflexivity. Qed.

Lemma rmatch_seq (a c : re) k st :
  rmatch (Seq a c) k st = rmatch a (rmatch c k) st.
Proof. reflexivity. Qed.

Lemma rmatch_group (i : nat) (a : re) k st :
  rmatch (Group i a) k st = rmatch a (fun st' => k (capture i st st')) st.
Proof. reflexivity. Qed.

Lemma star_class_greedy (p : ascii -> bool) k (w r : str) :
  forallb p w = true -> stops p r = true ->
  forall fuel b g m,
    length w <= fuel ->
    k (MState (rev w ++ b) r g) = Some m ->
    star_loop (rmatch (Chr p)) k fuel (MState b (w ++ r) g) = Some m.
Proof.
  intros Hw Hr. induction w as [|c w IH]; intros fuel b g m Hf Hk.
  - simpl in Hk. destruct fuel; [exact Hk|].
    rewrite star_loop_step. cbn [app].
    destruct r as [|c r]; [exact Hk|].
    simpl in Hr. apply negb_true_iff in Hr. now rewrite rmatch_chr, Hr.
  - simpl in Hw. apply andb_prop in Hw as [Hc Hw].
    destruct fuel as [|fuel]; [simpl in Hf; lia|].
    rewrite star_loop_step. cbn [app]. rewrite rmatch_chr, Hc. cbn [rest].
    replace (length (w ++ r) <? length (c :: w ++ r))%nat with true
      by (symmetry; apply Nat.ltb_lt; simpl; lia).
    rewrite (IH Hw fuel (c :: b) g m); [reflexivity|simpl in Hf; lia|].
    simpl in Hk. now rewrite <- app_assoc in Hk.
Qed.

Lemma rmatch_star_class (p : ascii -> bool) k (w r b : str) g m :
  forallb p w = true -> stops p r = true ->
  k (MState (rev w ++ b) r g) = Some m ->
  rmatch (Star (Chr p)) k (MState b (w ++ r) g) = Some m.
Proof.
  intros Hw Hr Hk. rewrite rmatch_star. cbn [rest].
  apply star_class_greedy; try assumption. rewrite length_app. lia.
Qed.

Lemma rmatch_plus_class (p : ascii -> bool) k (w r b : str) g m :
  w <> [] -> forallb p w = true -> stops p r = true ->
  k (MState (rev w ++ b) r g) = Some m ->
  rmatch (Plus (Chr p)) k (MState b (w ++ r) g) = Some m.
Proof.
  intros Hn Hw Hr Hk. destruct w as [|c w]; [congruence|].
  simpl in Hw. apply andb_prop in Hw as [Hc Hw].
  unfold Plus. rewrite rmatch_seq. cbn [app]. rewrite rmatch_chr, Hc.
  apply rmatch_star_class; try assumption.
  simpl in Hk. now rewrite <- app_assoc in Hk.
Qed.

Lemma firstn_consumed (w r : str) :
  firstn (length (w ++ r) - length r) (w ++ r) = w.
Proof.
  rewrite length_app, Nat.add_sub.
  rewrite firstn_app, Nat.sub_diag, firstn_all. simpl. apply app_nil_r.
Qed.

(** ** [re.sub] *)

Lemma sub_from_skip r repl (w s b : str) :
  sub_from r repl b (w ++ s) (length w) = sub_from r repl (rev w ++ b) s 0.
Proof.
  revert b. induction w as [|c w IH]; intros b; [reflexivity|].
  simpl. rewrite IH, <- app_assoc. reflexivity.
Qed.

Lemma sub_from_unmatched r repl (pre s b : str) :
  unmatched r b pre s = true ->
  sub_from r repl b (pre ++ s) 0 = pre ++ sub_from r repl (rev pre ++ b) s 0.
Proof.
  revert b. induction pre as [|c pre IH]; intros b H; [reflexivity|].
  cbn [unmatched] in H. cbn [app sub_from].
  change (c :: pre ++ s) with ((c :: pre) ++ s).
  destruct (match_here r b ((c :: pre) ++ s)); [discriminate|].
  rewrite (IH _ H). simpl. now rewrite <- app_assoc.
Qed.

Lemma sub_from_match r repl (w s b : str) (m : mstate) :
  w <> [] ->
  match_here r b (w ++ s) = Some m -> rest m = s ->
  sub_from r repl b (w ++ s) 0
  = repl (rev b) (groups m) ++ sub_from r repl (rev w ++ b) s 0.
Proof.
  intros Hw Hm Hr. destruct w as [|c w]; [congruence|].
  cbn [app sub_from]. change (c :: w ++ s) with ((c :: w) ++ s).
  rewrite Hm, Hr.
  replace (length ((c :: w) ++ s) - length s)%nat with (S (length w))
    by (rewrite length_app; cbn [length]; lia).
  rewrite sub_from_skip. simpl. now rewrite <- app_assoc.
Qed.

(** ** The property pattern *)

Lemma join_tail_text (t0 : str) (ts : list str) :
  join "_" (t0 :: ts) = t0 ++ tail_text ts.
Proof.
  revert t0. induction ts as [|t ts IH]; intros t0.
  - simpl. now rewrite app_nil_r.
  - rewrite join_cons, IH. reflexivity.
Qed.

Lemma stops_tail_text (ts : list str) (r : str) :
  stops is_lower r = true -> stops is_lower (tail_text ts ++ r) = true.
Proof. destruct ts; [trivial|reflexivity]. Qed.

Lemma tail_text_length (ts : list str) : length ts <= length (tail_text ts).
Proof.
  induction ts as [|t ts IH]; [apply Nat.le_refl|].
  change (tail_text (t :: ts)) with ("_" ++ t ++ tail_text ts).
  rewrite !length_app. simpl. lia.
Qed.

Lemma star_underscore_words k (ts : list str) (r : str) :
  Forall lower_token ts ->
  stops is_lower r = true -> stops (Ascii.eqb "_") r = true ->
  forall fuel b g m,
    length ts <= fuel ->
    k (MState (rev (tail_text ts) ++ b) r g) = Some m ->
    star_loop (rmatch underscore_word) k fuel
      (MState b (tail_text ts ++ r) g) = Some m.
Proof.
  intros Hts Hl Hu. induction Hts as [|t ts [Hn Ht] _ IH];
    intros fuel b g m Hf Hk.
  - simpl in Hk. destruct fuel; [exact Hk|].
    rewrite star_loop_step. cbn [tail_text map concat app].
    unfold underscore_word at 1. rewrite rmatch_seq.
    destruct r as [|c r]; [exact Hk|].
    cbn [stops] in Hu. apply negb_true_iff in Hu.
    cbn [rmatch eat rest]. rewrite Hu. exact Hk.
  - destruct fuel as [|fuel]; [simpl in Hf; lia|].
    rewrite star_loop_step. unfold underscore_word at 1. rewrite rmatch_seq.
    change (tail_text (t :: ts) ++ r) with ("_" ++ (t ++ tail_text ts) ++ r).
    rewrite <- (app_assoc t). rewrite rmatch_lit.
    unfold lower_letter.
    erewrite (rmatch_plus_class is_lower _ t); [reflexivity| | | |];
      try assumption; [now apply stops_tail_text|].
    cbn [rest].
    replace (length (tail_text ts ++ r)
             <? length ("_" ++ t ++ tail_text ts ++ r))%nat with true
      by (symmetry; apply Nat.ltb_lt; rewrite !length_app; simpl; lia).
    apply IH; [simpl in Hf; lia|].
    change (tail_text (t :: ts)) with ("_" ++ t ++ tail_text ts) in Hk.
    rewrite !rev_app_distr, <- !app_assoc in Hk.
    exact Hk.
Qed.

Lemma snake_property_match (b ws ws' post t0 : str) (ts : list str) :
  ws <> [] -> forallb is_space ws = true -> forallb is_space ws' = true ->
  lower_token t0 -> ts <> [] -> Forall lower_token ts ->
  match_here snake_property_pattern b
    ("val" ++ ws ++ join "_" (t0 :: ts) ++ ws' ++ ":" ++ post)
  = Some (MState (rev ("val" ++ ws ++ join "_" (t0 :: ts) ++ ws' ++ ":") ++ b)
            post [(1%nat, join "_" (t0 :: ts))]).
Proof.
  intros Hws Hs Hs' [Hn0 Hl0] Hts Hlow.
  assert (St : forall x, forallb is_lower x = true -> x <> [] ->
                         forall y, stops is_space (x ++ y) = true).
  { intros [|c x] Hx Hne y; [congruence|]. simpl in *.
    apply andb_prop in Hx as [Hc _]. revert Hc. clear.
    each_char c; vm_compute; congruence. }
  assert (Sr : forall y, stops is_lower (ws' ++ ":" ++ y) = true
                         /\ stops (Ascii.eqb "_") (ws' ++ ":" ++ y) = true).
  { intros y. destruct ws' as [|c w]; [split; reflexivity|]. simpl in *.
    apply andb_prop in Hs' as [Hc _]. revert Hc. clear.
    each_char c; vm_compute; intuition congruence. }
  rewrite join_tail_text.
  unfold match_here, snake_property_pattern.
  rewrite rmatch_cat_cons, rmatch_lit, rmatch_cat_cons.
  rewrite <- !app_assoc.
  apply rmatch_plus_class; try assumption; [now apply St|].
  rewrite rmatch_cat_cons, rmatch_group, rmatch_seq.
  apply rmatch_plus_class; try assumption.
  { destruct ts; [congruence|reflexivity]. }
  destruct ts as [|t ts]; [congruence|]. inversion Hlow as [|? ? [Hn Ht] Hlow']; subst.
  unfold Plus at 1. fold underscore_word. rewrite rmatch_seq.
  unfold underscore_word at 1. rewrite rmatch_seq.
  change (tail_text (t :: ts)) with ("_" ++ t ++ tail_text ts).
  rewrite <- !app_assoc. rewrite rmatch_lit.
  apply rmatch_plus_class; try assumption.
  { apply stops_tail_text, Sr. }
  rewrite rmatch_star. cbn [rest].
  apply star_underscore_words; try assumption; try apply Sr.
  { rewrite !length_app. pose proof (tail_text_length ts). lia. }
  unfold capture. cbn [rest before groups].
  replace (t0 ++ "_" ++ t ++ tail_text ts ++ ws' ++ ":" ++ post)
    with ((t0 ++ "_" ++ t ++ tail_text ts) ++ ws' ++ ":" ++ post)
    by (now rewrite <- !app_assoc).
  rewrite firstn_consumed.
  rewrite rmatch_cat_cons.
  apply rmatch_star_class; try assumption; [reflexivity|].
  rewrite rmatch_cat_cons, rmatch_lit. cbn [cat fold_right rmatch].
  f_equal. f_equal.
  rewrite !rev_app_distr, <- !app_assoc. reflexivity.
Qed.

(** ** [re.sub] over a whole file *)

Lemma sub_from_quiet r repl (s b : str) :
  quiet r b s = true -> sub_from r repl b s 0 = s.
Proof.
  revert b. induction s as [|c t IH]; intros b H; cbn [quiet sub_from] in *.
  - now destruct (match_here r b []).
  - destruct (match_here r b (c :: t)); [discriminate|].
    f_equal. now apply IH.
Qed.

Lemma re_sub_quiet r repl (content : str) :
  quiet r [] content = true -> re_sub r repl content = content.
Proof. apply sub_from_quiet. Qed.

Lemma sub_from_pieces r repl (l : list piece) :
  forall done tail,
    spaced r done l tail = true -> met r done l tail ->
    sub_from r repl (rev done) (pieces_text l tail) 0
    = replaced repl done l tail.
Proof.
  induction l as [|p t IH]; intros done tail Hs Hm;
    cbn [spaced met pieces_text replaced] in *.
  - now apply sub_from_quiet.
  - apply andb_prop in Hs as [Hu Hs].
    destruct Hm as [(Hne & m & Hm & Hr & Hg) Hm'].
    rewrite (sub_from_unmatched _ _ _ _ _ Hu). f_equal.
    rewrite <- rev_app_distr.
    rewrite (sub_from_match _ _ _ _ _ _ Hne Hm Hr).
    rewrite Hg, rev_involutive. f_equal.
    rewrite <- rev_app_distr, <- app_assoc.
    now apply IH.
Qed.

Lemma re_sub_pieces r repl (l : list piece) (tail : str) :
  spaced r [] l tail = true -> met r [] l tail ->
  re_sub r repl (pieces_text l tail) = replaced repl [] l tail.
Proof. intros Hs Hm. now apply (sub_from_pieces r repl l [] tail). Qed.

(** A piece whose match does not depend on what is around it. *)
Definition matches_anywhere (r : re) (p : piece) : Prop :=
  matched p <> []
  /\ forall b s,
       match_here r b (matched p ++ s)
       = Some (MState (rev (matched p) ++ b) s (captured p)).

Lemma met_anywhere r (l : list piece) :
  Forall (matches_anywhere r) l -> forall done tail, met r done l tail.
Proof.
  induction 1 as [|p t [Hne Hp] _ IH]; intros done tail; cbn [met];
    [exact I|].
  split; [|apply IH]. split; [exact Hne|].
  eexists. split; [apply Hp|]. split; reflexivity.
Qed.

(** A piece that is matched wherever the text before it passes [behind]
    and the text behind it passes [ahead]. *)
Definition matches_between (behind ahead : str -> bool) (r : re) (p : piece)
  : Prop :=
  matched p <> []
  /\ forall b s,
       behind b = true -> ahead s = true ->
       match_here r (rev b) (matched p ++ s)
       = Some (MState (rev (matched p) ++ rev b) s (captured p)).

Lemma met_between behind ahead r (l : list piece) :
  Forall (matches_between behind ahead r) l ->
  forall done tail,
    preceded behind done l = true -> followed ahead l tail = true ->
    met r done l tail.
Proof.
  induction 1 as [|p t [Hne Hp] _ IH]; intros done tail Hb Hf;
    cbn [met preceded followed] in *; [exact I|].
  apply andb_prop in Hb as [Hb Hb']. apply andb_prop in Hf as [Hs Hf].
  split; [|now apply IH]. split; [exact Hne|].
  eexists. split; [now apply Hp|]. split; reflexivity.
Qed.

Lemma re_sub_between behind ahead r repl (l : list piece) (tail : str) :
  Forall (matches_between behind ahead r) l ->
  spaced r [] l tail = true ->
  preceded behind [] l = true -> followed ahead l tail = true ->
  re_sub r repl (pieces_text l tail) = replaced repl [] l tail.
Proof.
  intros F Hs Hb Hf. apply re_sub_pieces; [assumption|].
  now apply (met_between behind ahead).
Qed.

Lemma re_sub_anywhere r repl (l : list piece) (tail : str) :
  Forall (matches_anywhere r) l ->
  spaced r [] l tail = true ->
  re_sub r repl (pieces_text l tail) = replaced repl [] l tail.
Proof.
  intros F Hs. apply re_sub_pieces; [assumption|]. now apply met_anywhere.
Qed.

Lemma replaced_ext repl repl' (l : list piece) :
  forall done tail,
    (forall d p, In p l -> repl d (captured p) = repl' d (captured p)) ->
    replaced repl done l tail = replaced repl' done l tail.
Proof.
  induction l as [|p t IH]; intros done tail H; cbn [replaced];
    [reflexivity|].
  rewrite (H _ p (or_introl eq_refl)). do 2 f_equal.
  apply IH. intros d q Hq. apply H. now right.
Qed.






Lemma snake_property_anywhere (p : piece) :
  is_snake_property p -> matches_anywhere snake_property_pattern p.
Proof.
  intros (ws & t0 & ts & ws' & Hws & Hs & Hs' & H0 & Hts & Hlow & Hm & Hc).
  split.
  - rewrite Hm. discriminate.
  - intros b s. rewrite Hm, Hc. unfold snake_declaration, snake_name.
    rewrite <- !app_assoc.
    now rewrite (snake_property_match b ws ws' s t0 ts).
Qed.

Section SerializationAnnotations.
Context {titling : Titling}.


Lemma fix_serialization_annotations_fields (fields : list piece) (tail : str) :
  Forall is_snake_property fields ->
  spaced snake_property_pattern [] fields tail = true ->
  fix_serialization_annotations (pieces_text fields tail)
  = replaced replace_property [] fields tail.
Proof.
  intros F Hs. unfold fix_serialization_annotations.
  apply re_sub_pieces; [assumption|].
  apply met_anywhere. eapply Forall_impl; [|exact F].
  apply snake_property_anywhere.
Qed.



End SerializationAnnotations.




(** ** The enum pattern *)



Lemma word_not_space (c : ascii) : is_word c = true -> is_space c = false.
Proof. each_char c; vm_compute; congruence. Qed.




Section EnumSerialization.
Context {titling : Titling}.


End EnumSerialization.




(** ** The pipeline applied twice *)

Section Pipeline.
Context {titling : Titling}.

(** C3. On a file that declares a data class without the import, the first
    run of the pipeline inserts the [@Serializable] marker after the import
    pass has looked for it, and the second run adds the import: the second
    application changes the output of the first. *)
Theorem second_rewrite_adds_import :
  fix_generated_kotlin "data class Foo(val x: Int)"
  = "@Serializable" ++ [nl] ++ "data class Foo(val x: Int)"
  /\ fix_generated_kotlin (fix_generated_kotlin "data class Foo(val x: Int)")
     = "import kotlinx.serialization.Serializable" ++ [nl]
         ++ "@Serializable" ++ [nl] ++ "data class Foo(val x: Int)"
  /\ fix_generated_kotlin (fix_generated_kotlin "data class Foo(val x: Int)")
     <> fix_generated_kotlin "data class Foo(val x: Int)".
Proof.
  assert (E1 : fix_generated_kotlin "data class Foo(val x: Int)"
               = "@Serializable" ++ [nl] ++ "data class Foo(val x: Int)")
    by (vm_compute; reflexivity).
  assert (E2 : fix_generated_kotlin
                 ("@Serializable" ++ [nl] ++ "data class Foo(val x: Int)")
               = "import kotlinx.serialization.Serializable" ++ [nl]
                   ++ "@Serializable" ++ [nl] ++ "data class Foo(val x: Int)")
    by (vm_compute; reflexivity).
  rewrite E1, E2. repeat split. vm_compute. discriminate.
Qed.

End Pipeline.

(** ** What the repair passes leave alone, and where they stop *)

Lemma dict_set_keys_present (k : str) (v : json) (d : dict) :
  dict_has k d = true -> keys (dict_set k v d) = keys d.
Proof.
  unfold dict_has. induction d as [|[k' v'] t IH]; simpl; [discriminate|].
  destruct (str_eqb k' k) eqn:E; simpl.
  - apply str_eqb_eq in E. now subst.
  - intros H. now rewrite IH.
Qed.

Lemma store_schemas_frame (spec : json) (schemas new : dict) :
  schemas_of spec = Ok schemas ->
  exists d d', spec = JObj d /\ store_schemas spec new = JObj d'
               /\ outside_schemas d d'.
Proof.
  intros H.
  assert (R : forall d, outside_schemas d d).
  { intros d. repeat split. intros c Hc. exists c. auto. }
  destruct (schemas_of_inv _ _ H) as (d & -> & [[Hc _]|(c & Hc & [[Hs _]|Hs])]);
    exists d; unfold store_schemas; rewrite Hc; try rewrite Hs;
    try (exists d; now auto).
  eexists. split; [reflexivity|]. split; [reflexivity|].
  repeat split.
  - apply dict_set_keys_present. unfold dict_has. now rewrite Hc.
  - intros k Hk. now apply dict_get_set_other.
  - intros c0 Hc0. rewrite Hc in Hc0. injection Hc0 as <-.
    eexists. split; [apply dict_get_set_same|]. split.
    + apply dict_set_keys_present. unfold dict_has. now rewrite Hs.
    + intros k Hk. now apply dict_get_set_other.
Qed.

(** X1. Each of the first three repair passes, when it returns, changes
    nothing outside the table of named schemas: the document and its
    [components] keep their keys in order and every value under another key,
    and the table keeps its names in order. *)
Theorem repair_passes_frame (spec spec' : json) :
  fix_empty_schemas spec = Ok spec'
  \/ fix_anyof_schemas spec = Ok spec'
  \/ fix_problematic_patterns spec = Ok spec' ->
  exists d d' schemas schemas',
    spec = JObj d /\ spec' = JObj d'
    /\ outside_schemas d d'
    /\ schemas_of spec = Ok schemas
    /\ schemas_of spec' = Ok schemas'
    /\ keys schemas' = keys schemas.
Proof.
  intros H.
  assert (X : exists f schemas new,
            schemas_of spec = Ok schemas
            /\ Forall2 (rewritten f) schemas new
            /\ spec' = store_schemas spec new
            /\ schemas_of spec' = Ok new).
  { destruct H as [H|[H|H]].
    - exists fix_empty_schema. now apply for_schemas_inv.
    - exists fix_anyof_schema. now apply for_schemas_inv.
    - apply fix_problematic_patterns_inv in H as (s & n & ?).
      exists (fix_problematic_pattern (keys s)), s, n. assumption. }
  destruct X as (f & schemas & new & Hs & F & -> & Hn).
  destruct (store_schemas_frame spec schemas new Hs) as (d & d' & -> & E & O).
  exists d, d', schemas, new. rewrite E in *.
  repeat split; try assumption; try apply O.
  eapply rewritten_keys; eassumption.
Qed.

Lemma repair_passes_frame_witness :
  exists spec' d d' schemas schemas',
    fix_empty_schemas framed_document = Ok spec'
    /\ (dict_get "AccountId" schemas' = dict_get "AccountId" schemas -> False)
    /\ dict_get "info" d' = Some (JObj [("title", JStr "NEAR")])
    /\ framed_document = JObj d /\ spec' = JObj d'
    /\ outside_schemas d d'
    /\ schemas_of framed_document = Ok schemas
    /\ schemas_of spec' = Ok schemas'
    /\ keys schemas' = keys schemas.
Proof.
  destruct (fix_empty_schemas framed_document) as [spec'|e] eqn:E;
    [|vm_compute in E; discriminate].
  destruct (repair_passes_frame framed_document spec' (or_introl E))
    as (d & d' & schemas & schemas' & H1 & H2 & O & S1 & S2 & K).
  exists spec', d, d', schemas, schemas'.
  split; [reflexivity|].
  split; [|split; [|repeat split; try assumption; apply O]].
  - vm_compute in E. injection E as <-.
    vm_compute in S1, S2. injection S1 as <-. injection S2 as <-.
    vm_compute. discriminate.
  - vm_compute in E. injection E as <-. injection H2 as <-.
    vm_compute. reflexivity.
Defined.

Lemma for_schemas_none f (spec : json) :
  schemas_of spec = Ok [] -> for_schemas f spec = Ok spec.
Proof. intros H. apply for_schemas_fixed with []; [assumption|constructor]. Qed.

(** X2. A document without [components], or whose [components] has no
    [schemas], goes through the first three passes unchanged: the repair
    returns it with only its [patternProperties] keys removed. *)
Theorem repair_without_schemas (d : dict) :
  dict_get "components" d = None
  \/ (exists c, dict_get "components" d = Some (JObj c)
                /\ dict_get "schemas" c = None) ->
  fix_empty_schemas (JObj d) = Ok (JObj d)
  /\ fix_anyof_schemas (JObj d) = Ok (JObj d)
  /\ fix_problematic_patterns (JObj d) = Ok (JObj d)
  /\ repair (JObj d) = Ok (remove_pattern_properties (JObj d)).
Proof.
  intros H.
  assert (S : schemas_of (JObj d) = Ok []).
  { unfold schemas_of. cbn [py_get bind].
    destruct H as [->|(c & -> & Hs)]; [reflexivity|].
    cbn [py_get bind]. now rewrite Hs. }
  assert (P : fix_problematic_patterns (JObj d) = Ok (JObj d)).
  { unfold fix_problematic_patterns. rewrite S. cbn [bind].
    now apply for_schemas_none. }
  pose proof (for_schemas_none fix_empty_schema _ S) as E.
  pose proof (for_schemas_none fix_anyof_schema _ S) as A.
  fold fix_empty_schemas in E. fold fix_anyof_schemas in A.
  repeat split; try assumption.
  unfold repair. rewrite E. cbn [bind]. rewrite A. cbn [bind].
  rewrite P. reflexivity.
Qed.

Lemma repair_without_schemas_witness :
  repair status_document = Ok status_document.
Proof.
  apply (repair_without_schemas
           [("paths",
              JObj [("/status",
                JObj [("post", JObj [("summary", JStr "Node status")])])])]).
  left. reflexivity.
Defined.

Lemma mapM_first_error {A B} (f : A -> result B) (e : error) (l : list A) :
  Forall (fun a => (exists b, f a = Ok b) \/ f a = Err e) l ->
  Exists (fun a => f a = Err e) l ->
  mapM f l = Err e.
Proof.
  induction 1 as [|a t Ha _ IH]; intros Hex; [inversion Hex|].
  cbn [mapM]. destruct Ha as [[b Hb]|Ha]; [|now rewrite Ha].
  rewrite Hb. cbn [bind].
  inversion Hex as [? ? Hae|? ? Ht]; subst; [congruence|].
  now rewrite (IH Ht).
Qed.

Lemma fix_empty_schema_not_dict (name : str) (schema : json) :
  is_dict schema = false -> fix_empty_schema name schema = Err AttributeError.
Proof. destruct schema; try reflexivity. discriminate. Qed.

(** X3. No fallback for a named schema that is not a dictionary (a boolean
    schema, a string, a list): empty-schema resolution dies with
    [AttributeError] on its [get], and so does the whole repair, which writes
    nothing.  The same happens when the document itself is not a
    dictionary. *)
Theorem repair_rejects_non_mapping (spec : json) :
  (forall schemas,
     schemas_of spec = Ok schemas ->
     existsb (fun e => negb (is_dict (snd e))) schemas = true ->
     fix_empty_schemas spec = Err AttributeError
     /\ repair spec = Err AttributeError)
  /\ (is_dict spec = false ->
      fix_empty_schemas spec = Err AttributeError
      /\ repair spec = Err AttributeError).
Proof.
  split.
  - intros schemas Hs Hex.
    assert (E : fix_empty_schemas spec = Err AttributeError).
    { unfold fix_empty_schemas, for_schemas. rewrite Hs. cbn [bind].
      rewrite (mapM_first_error _ AttributeError); [reflexivity| |].
      - apply Forall_forall. intros [name schema] _. cbn [fst snd].
        destruct schema as [| | | | | |d];
          try (right; reflexivity).
        left. destruct (fix_empty_schema_obj name d) as (s & -> & _).
        cbn [bind]. eauto.
      - apply existsb_exists in Hex as ([name schema] & Hin & Hd).
        apply Exists_exists. exists (name, schema). split; [assumption|].
        cbn [fst snd] in *. apply negb_true_iff in Hd.
        now rewrite fix_empty_schema_not_dict. }
    split; [assumption|]. unfold repair. now rewrite E.
  - intros Hd.
    assert (E : fix_empty_schemas spec = Err AttributeError)
      by (destruct spec; try reflexivity; discriminate).
    split; [assumption|]. unfold repair. now rewrite E.
Qed.

Lemma repair_rejects_non_mapping_witness :
  fix_empty_schemas frame_document = Err AttributeError
  /\ repair frame_document = Err AttributeError.
Proof.
  apply (proj1 (repair_rejects_non_mapping frame_document)
           [("AccountId", JObj []); ("Flag", JBool true)]);
    reflexivity.
Defined.

(** ** The passes of [fix_openapi_spec] after collapsing *)

Lemma forallb_map_in {A B} (p : B -> bool) (f : A -> B) (l : list A) :
  forallb p (map f l) = forallb (fun a => p (f a)) l.
Proof. induction l as [|a t IH]; [reflexivity|]. simpl. now rewrite IH. Qed.

Lemma dict_has_map_values (f : json -> json) (k : str) (d : dict) :
  dict_has k (map_values f d) = dict_has k d.
Proof.
  unfold dict_has. rewrite dict_get_map_values. now destruct (dict_get k d).
Qed.

Lemma map_values_set (f : json -> json) (k : str) (v : json) (d : dict) :
  map_values f (dict_set k v d) = dict_set k (f v) (map_values f d).
Proof.
  induction d as [|[k' v'] t IH]; simpl; [reflexivity|].
  destruct (str_eqb k' k); simpl; [reflexivity|now rewrite IH].
Qed.

Lemma dict_has_set_other (k k0 : str) (v : json) (d : dict) :
  k0 <> k -> dict_has k0 (dict_set k v d) = dict_has k0 d.
Proof. intros H. unfold dict_has. now rewrite dict_get_set_other. Qed.

Lemma fix_nullable_types_obj (d : dict) :
  fix_nullable_types (JObj d)
  = JObj (mark_nullable d (map_values fix_nullable_types d)).
Proof.
  cbn [fix_nullable_types]. unfold mark_nullable, nullable_flag. f_equal.
  assert (E : (fix values (d0 : dict) : dict :=
                 match d0 with
                 | [] => []
                 | (k, v) :: t => (k, fix_nullable_types v) :: values t
                 end) d = map_values fix_nullable_types d).
  { induction d as [|[k v] t IH]; [reflexivity|]. simpl. now rewrite IH. }
  now rewrite E.
Qed.

Lemma fix_nullable_types_arr (l : list json) :
  fix_nullable_types (JArr l) = JArr (map fix_nullable_types l).
Proof. reflexivity. Qed.

Lemma nullable_marked_obj (d : dict) :
  nullable_marked (JObj d)
  = (if nullable_flag d
     then match dict_get "x-nullable" d with
          | Some (JBool true) => true
          | _ => false
          end
     else true)
    && forallb (fun e => nullable_marked (snd e)) d.
Proof.
  cbn [nullable_marked]. f_equal.
  induction d as [|[k v] t IH]; [reflexivity|]. simpl. now rewrite IH.
Qed.

Lemma nullable_marked_arr (l : list json) :
  nullable_marked (JArr l) = forallb nullable_marked l.
Proof.
  cbn [nullable_marked].
  induction l as [|x t IH]; [reflexivity|]. simpl. now rewrite IH.
Qed.

Lemma truthy_fix_nullable_types (v : json) :
  truthy (fix_nullable_types v) = truthy v.
Proof.
  destruct v as [| | | | |l|d]; try reflexivity.
  - rewrite fix_nullable_types_arr. now destruct l.
  - rewrite fix_nullable_types_obj. unfold mark_nullable.
    destruct d as [|[k v] t]; [reflexivity|].
    destruct (nullable_flag ((k, v) :: t)); [|reflexivity].
    apply dict_set_nonempty.
Qed.

Lemma nullable_flag_marked (d : dict) :
  nullable_flag (mark_nullable d (map_values fix_nullable_types d))
  = nullable_flag d.
Proof.
  assert (V : nullable_flag (map_values fix_nullable_types d) = nullable_flag d).
  { unfold nullable_flag. rewrite !dict_has_map_values, dict_get_map_values.
    destruct (dict_get "nullable" d); simpl;
      now rewrite ?truthy_fix_nullable_types. }
  unfold mark_nullable. destruct (nullable_flag d) eqn:E; [|assumption].
  rewrite <- V. unfold nullable_flag.
  rewrite !dict_has_set_other, dict_get_set_other by discriminate.
  reflexivity.
Qed.

Lemma forallb_set (p : json -> bool) (k : str) (v : json) (d : dict) :
  p v = true -> forallb (fun e => p (snd e)) d = true ->
  forallb (fun e => p (snd e)) (dict_set k v d) = true.
Proof.
  intros Hv. induction d as [|[k' v'] t IH]; simpl.
  - now rewrite Hv.
  - intros H. apply andb_prop in H as [H1 H2].
    destruct (str_eqb k' k); simpl; [now rewrite Hv, H2|now rewrite H1, IH].
Qed.

Lemma fix_nullable_types_marked (v : json) :
  nullable_marked (fix_nullable_types v) = true.
Proof.
  induction v as [| | | | |l IH|d IH] using json_ind; try reflexivity.
  - rewrite fix_nullable_types_arr, nullable_marked_arr, forallb_map_in.
    apply forallb_forall. rewrite Forall_forall in IH. auto.
  - rewrite fix_nullable_types_obj, nullable_marked_obj, nullable_flag_marked.
    assert (A : forallb (fun e => nullable_marked (snd e))
                  (map_values fix_nullable_types d) = true).
    { unfold map_values. rewrite forallb_map_in. apply forallb_forall.
      rewrite Forall_forall in IH. intros e He. now apply IH. }
    unfold mark_nullable. destruct (nullable_flag d).
    + rewrite dict_get_set_same. now rewrite forallb_set.
    + exact A.
Qed.

Lemma fix_nullable_types_again (v : json) :
  fix_nullable_types (fix_nullable_types v) = fix_nullable_types v.
Proof.
  induction v as [| | | | |l IH|d IH] using json_ind; try reflexivity.
  - rewrite !fix_nullable_types_arr, map_map. f_equal.
    apply map_ext_in. rewrite Forall_forall in IH. auto.
  - rewrite fix_nullable_types_obj.
    set (d1 := mark_nullable d (map_values fix_nullable_types d)).
    rewrite fix_nullable_types_obj. f_equal.
    assert (M : map_values fix_nullable_types (map_values fix_nullable_types d)
                = map_values fix_nullable_types d).
    { unfold map_values. rewrite map_map. apply map_ext_in.
      rewrite Forall_forall in IH. intros e He. simpl. now rewrite IH. }
    unfold mark_nullable at 1. subst d1. rewrite nullable_flag_marked.
    unfold mark_nullable. destruct (nullable_flag d); [|exact M].
    rewrite map_values_set, M. apply dict_set_twice.
Qed.

Lemma fix_nullable_types_at_path (p : list step) (v : json) :
  existsb (is_key "x-nullable") p = false ->
  at_path p (fix_nullable_types v)
  = option_map fix_nullable_types (at_path p v).
Proof.
  revert v. induction p as [|[k|i] p IH]; intros v Hp; [reflexivity| |].
  - simpl in Hp. apply orb_false_elim in Hp as [Hk Hp].
    apply str_eqb_neq in Hk.
    destruct v; try reflexivity.
    rewrite fix_nullable_types_obj. cbn [at_path].
    assert (G : dict_get k (mark_nullable entries
                              (map_values fix_nullable_types entries))
                = option_map fix_nullable_types (dict_get k entries)).
    { unfold mark_nullable. destruct (nullable_flag entries).
      - rewrite dict_get_set_other by assumption. apply dict_get_map_values.
      - apply dict_get_map_values. }
    rewrite G. destruct (dict_get k entries); simpl; auto.
  - simpl in Hp. destruct v; try reflexivity.
    rewrite fix_nullable_types_arr. cbn [at_path]. rewrite nth_error_map.
    destruct (nth_error items i); simpl; auto.
Qed.

(** X4. [fix_nullable_types] returns on every document.  Afterwards every
    dictionary, at whatever depth, that has [type] and a truthy [nullable]
    has [x-nullable] set to [True]; nothing else is touched: what is found
    along a path that does not go through an [x-nullable] key is the pass
    applied to what was there; and applying the pass again changes
    nothing. *)
Theorem fix_nullable_types_marks (v : json) :
  nullable_marked (fix_nullable_types v) = true
  /\ (forall p,
        existsb (is_key "x-nullable") p = false ->
        at_path p (fix_nullable_types v)
        = option_map fix_nullable_types (at_path p v))
  /\ fix_nullable_types (fix_nullable_types v) = fix_nullable_types v.
Proof.
  split; [apply fix_nullable_types_marked|].
  split; [intros p; apply fix_nullable_types_at_path|].
  apply fix_nullable_types_again.
Qed.

(** ** Missing descriptions *)

Lemma add_descriptions_obj (d : dict) (path : str) :
  add_descriptions (JObj d) path
  = JObj (with_description path d (describe_values path d)).
Proof.
  cbn [add_descriptions]. unfold with_description, needs_description. f_equal.
  assert (E : (fix values (d0 : dict) : dict :=
                 match d0 with
                 | [] => []
                 | (k, v) :: t =>
                     (k, add_descriptions v
                           match path with
                           | [] => k
                           | _ :: _ => path ++ "." ++ k
                           end) :: values t
                 end) d = describe_values path d).
  { induction d as [|[k v] t IH]; [reflexivity|].
    cbn [describe_values map fst snd] in *. unfold sub_path at 1.
    f_equal. exact IH. }
  now rewrite E.
Qed.

Lemma add_descriptions_arr (l : list json) (path : str) :
  add_descriptions (JArr l) path = JArr (describe_items path l 0).
Proof.
  cbn [add_descriptions]. f_equal. generalize 0%nat.
  induction l as [|x t IH]; intros i; [reflexivity|].
  cbn [describe_items]. now rewrite <- IH.
Qed.

Lemma described_obj (d : dict) :
  described (JObj d)
  = negb (needs_description d) && forallb (fun e => described (snd e)) d.
Proof.
  cbn [described]. f_equal.
  induction d as [|[k v] t IH]; [reflexivity|]. simpl. now rewrite IH.
Qed.

Lemma described_arr (l : list json) :
  described (JArr l) = forallb described l.
Proof.
  cbn [described].
  induction l as [|x t IH]; [reflexivity|]. simpl. now rewrite IH.
Qed.

Lemma dict_get_describe_values (path k : str) (d : dict) :
  dict_get k (describe_values path d)
  = option_map (fun v => add_descriptions v (sub_path path k)) (dict_get k d).
Proof.
  induction d as [|[k' v] t IH]; simpl; [reflexivity|].
  destruct (str_eqb k' k) eqn:E; [|assumption].
  apply str_eqb_eq in E. now subst.
Qed.

Lemma dict_has_describe_values (path k : str) (d : dict) :
  dict_has k (describe_values path d) = dict_has k d.
Proof.
  unfold dict_has. rewrite dict_get_describe_values.
  now destruct (dict_get k d).
Qed.

Lemma needs_description_after (path : str) (d : dict) :
  needs_description (with_description path d (describe_values path d)) = false.
Proof.
  unfold with_description. destruct (needs_description d) eqn:E.
  - unfold needs_description, dict_has at 2. rewrite dict_get_set_same.
    apply andb_false_r.
  - unfold needs_description in *. now rewrite !dict_has_describe_values.
Qed.

Lemma describe_values_set (path k : str) (v : json) (d : dict) :
  describe_values path (dict_set k v d)
  = dict_set k (add_descriptions v (sub_path path k)) (describe_values path d).
Proof.
  induction d as [|[k' v'] t IH]; simpl; [reflexivity|].
  destruct (str_eqb k' k); simpl; [reflexivity|now rewrite IH].
Qed.

Lemma add_descriptions_sound (v : json) :
  forall path,
    described (add_descriptions v path) = true
    /\ add_descriptions (add_descriptions v path) path
       = add_descriptions v path.
Proof.
  induction v as [| | | | |l IH|d IH] using json_ind; intros path;
    try (split; reflexivity).
  - rewrite !add_descriptions_arr, described_arr.
    assert (A : forall i,
              forallb described (describe_items path l i) = true
              /\ describe_items path (describe_items path l i) i
                 = describe_items path l i).
    { induction IH as [|x t Hx _ IHt]; intros i; [split; reflexivity|].
      cbn [describe_items forallb].
      destruct (Hx (item_path path i)) as [H1 H2].
      destruct (IHt (S i)) as [H3 H4].
      split; [now rewrite H1, H3|now rewrite H2, H4]. }
    destruct (A 0%nat) as [A1 A2]. split; [exact A1|].
    now rewrite A2.
  - rewrite add_descriptions_obj.
    assert (A : forallb (fun e => described (snd e)) (describe_values path d)
                = true
                /\ describe_values path (describe_values path d)
                   = describe_values path d).
    { clear -IH. induction IH as [|[k x] t Hx _ IHt]; [split; reflexivity|].
      cbn [describe_values map forallb fst snd] in *.
      destruct (Hx (sub_path path k)) as [H1 H2]. destruct IHt as [H3 H4].
      split; [rewrite H1; exact H3|rewrite H2; f_equal; exact H4]. }
    destruct A as [A1 A2]. split.
    + rewrite described_obj, needs_description_after. cbn [negb andb].
      unfold with_description. destruct (needs_description d); [|exact A1].
      now apply forallb_set.
    + rewrite add_descriptions_obj. f_equal.
      unfold with_description at 1. rewrite needs_description_after.
      unfold with_description. destruct (needs_description d); [|exact A2].
      now rewrite describe_values_set, A2.
Qed.

(** X5. [add_descriptions] returns on every document and path.  Afterwards
    every dictionary, at whatever depth, that has [properties] has a
    [description]; a dictionary that had a [description] keeps it (the pass
    going on inside it); a dictionary with [properties] and without one gets
    the text naming its path; and applying the pass again with the same path
    changes nothing. *)
Theorem add_descriptions_describes (v : json) (path : str) :
  described (add_descriptions v path) = true
  /\ add_descriptions (add_descriptions v path) path = add_descriptions v path
  /\ (forall d old,
        v = JObj d -> dict_get "description" d = Some old ->
        at_path [Key "description"] (add_descriptions v path)
        = Some (add_descriptions old (sub_path path "description")))
  /\ (forall d,
        v = JObj d -> dict_has "properties" d = true ->
        dict_has "description" d = false ->
        at_path [Key "description"] (add_descriptions v path)
        = Some (JStr ("Auto-generated type for " ++ path))).
Proof.
  destruct (add_descriptions_sound v path) as [H1 H2].
  split; [exact H1|]. split; [exact H2|]. split.
  - intros d old -> Hd. rewrite add_descriptions_obj. cbn [at_path].
    unfold with_description, needs_description, dict_has at 2.
    rewrite Hd, andb_false_r, dict_get_describe_values, Hd. reflexivity.
  - intros d -> Hp Hd. rewrite add_descriptions_obj. cbn [at_path].
    unfold with_description, needs_description. rewrite Hp, Hd. cbn [negb andb].
    now rewrite dict_get_set_same.
Qed.

(** ** Enum naming *)

Lemma varname_char (c : ascii) :
  is_varname_char (to_upper (if is_word c then c else "_"%char)) = true.
Proof. each_char c; vm_compute; reflexivity. Qed.

Lemma enum_varname_chars (val : json) (name : str) :
  enum_varname val = Ok name -> forallb is_varname_char name = true.
Proof.
  unfold enum_varname. intros H. unbind H as s Es. injection H as <-.
  unfold upper. rewrite map_map, forallb_map_in.
  apply forallb_forall. intros c _. apply varname_char.
Qed.

Lemma enum_varname_printable (val : json) :
  printable val = true -> exists name, enum_varname val = Ok name.
Proof.
  unfold enum_varname.
  destruct val as [|[|]| | | | |]; try discriminate; intros _;
    cbn [py_str bind]; eauto.
Qed.

(** X6. A named schema that is a dictionary whose [enum] is a list of
    strings, integers, booleans and nulls gets [x-enum-varnames]: a list of
    strings, one per enum value in order, each made of upper-case letters,
    digits and underscores only; every other key of the schema keeps its
    value. *)
Theorem add_enum_varnames_names (d : dict) (vals : list json) :
  dict_get "enum" d = Some (JArr vals) ->
  forallb printable vals = true ->
  exists names,
    add_enum_varnames (JObj d)
    = Ok (JObj (dict_set "x-enum-varnames" (JArr (map JStr names)) d))
    /\ Forall2 (fun val name => enum_varname val = Ok name) vals names
    /\ length names = length vals
    /\ Forall (fun name => forallb is_varname_char name = true) names
    /\ (forall k, k <> "x-enum-varnames" ->
          dict_get k (dict_set "x-enum-varnames" (JArr (map JStr names)) d)
          = dict_get k d).
Proof.
  intros He Hp.
  assert (T : exists names,
            Forall2 (fun val name => enum_varname val = Ok name) vals names).
  { apply Forall2_total. apply Forall_forall. intros val Hin.
    apply enum_varname_printable. rewrite forallb_forall in Hp. auto. }
  destruct T as [names F]. exists names.
  split; [|split; [exact F|split; [|split]]].
  - unfold add_enum_varnames. cbn [py_in bind]. unfold dict_has. rewrite He.
    cbn [py_getitem]. rewrite He. cbn [bind py_iter].
    apply mapM_ok in F. rewrite F. reflexivity.
  - symmetry. eapply Forall2_length; eassumption.
  - clear He Hp. induction F as [|val name t t' Hn _ IH]; constructor;
      [|assumption].
    eapply enum_varname_chars; eassumption.
  - intros k Hk. now apply dict_get_set_other.
Qed.

Lemma add_enum_varnames_names_witness :
  exists names,
    add_enum_varnames
      (JObj [("type", JStr "string");
             ("enum", JArr [JStr "final"; JStr "near-final"; JInt 2])])
    = Ok (JObj (dict_set "x-enum-varnames" (JArr (map JStr names))
                  [("type", JStr "string");
                   ("enum", JArr [JStr "final"; JStr "near-final"; JInt 2])]))
    /\ names = ["FINAL"; "NEAR_FINAL"; "2"].
Proof.
  destruct (add_enum_varnames_names
              [("type", JStr "string");
               ("enum", JArr [JStr "final"; JStr "near-final"; JInt 2])]
              [JStr "final"; JStr "near-final"; JInt 2]
              eq_refl eq_refl) as (names & H & F & _).
  exists names. split; [exact H|].
  inversion F as [|? n1 ? r1 H1 F1]; subst.
  inversion F1 as [|? n2 ? r2 H2 F2]; subst.
  inversion F2 as [|? n3 ? r3 H3 F3]; subst.
  inversion F3; subst.
  vm_compute in H1, H2, H3.
  injection H1 as <-. injection H2 as <-. injection H3 as <-.
  vm_compute. reflexivity.
Defined.

(** ** Names *)

Lemma split_on_lengths (sep : ascii) (s : str) :
  list_sum (map (@length ascii) (split_on sep s)) + count_occ ascii_dec s sep
  = length s.
Proof.
  induction s as [|c t IH]; [reflexivity|].
  cbn [split_on count_occ length].
  destruct (Ascii.eqb_spec c sep) as [->|Hne].
  - destruct (ascii_dec sep sep) as [_|N]; [|congruence].
    unfold list_sum in *. cbn [map fold_right length]. lia.
  - destruct (ascii_dec c sep) as [E|_]; [congruence|].
    destruct (split_on_cons sep t) as (h & r & E). rewrite E in *.
    unfold list_sum in *. cbn [map fold_right length] in *. lia.
Qed.

Section NamingLength.
Context {titling : Titling}.

Lemma concat_title_tokens (l : list str) :
  Forall (fun t => forallb is_7bit t = true) l ->
  length (concat (map title l)) = list_sum (map (@length ascii) l).
Proof.
  induction 1 as [|t r Ht _ IH]; [reflexivity|].
  unfold list_sum in *. cbn [map concat fold_right].
  rewrite length_app, IH, (title_on_7bit t Ht).
  unfold title_7bit. now rewrite title_from_length.
Qed.

(** X7. For every title-casing, the camel-case form of a name holds no
    underscore, and it is the name itself when the name holds no underscore.
    For a name of 7-bit characters it is shorter than the name by the number
    of its underscores. *)
Theorem snake_to_camel_identifier (s : str) :
  (In "_"%char (snake_to_camel s) -> False)
  /\ (underscores s = 0 -> snake_to_camel s = s)
  /\ (forallb is_7bit s = true ->
      length (snake_to_camel s) + underscores s = length s).
Proof.
  split; [apply snake_to_camel_free|]. split.
  - unfold underscores. intros H. apply snake_to_camel_without.
    now apply count_occ_not_In in H.
  - intros H7. unfold snake_to_camel, underscores.
    pose proof (split_on_lengths "_" s) as L.
    pose proof (split_on_forallb is_7bit "_" s H7) as F.
    destruct (split_on "_" s) as [|h r]; cbn [hd tl map] in *.
    + unfold list_sum in L. cbn [concat app length fold_right] in *. lia.
    + inversion F; subst.
      rewrite length_app, concat_title_tokens by assumption.
      unfold list_sum in *. cbn [fold_right] in L. lia.
Qed.

End NamingLength.

Lemma snake_to_camel_identifier_witness :
  length (@snake_to_camel titling_7bit "get_block_header")
  + underscores "get_block_header" = length "get_block_header".
Proof.
  apply (@snake_to_camel_identifier titling_7bit "get_block_header").
  reflexivity.
Defined.

(** ** Imports *)

Lemma startswith_app (p s : str) : startswith p (p ++ s) = true.
Proof.
  induction p as [|a p IH]; [reflexivity|].
  cbn [app startswith]. now rewrite Ascii.eqb_refl.
Qed.

Lemma startswith_weaken (p q s : str) :
  startswith (p ++ q) s = true -> startswith p s = true.
Proof.
  revert s. induction p as [|a p IH]; intros s; [reflexivity|].
  destruct s as [|b s]; cbn [app startswith]; [easy|].
  intros H. apply andb_prop in H as [H1 H2]. rewrite H1. now apply IH.
Qed.

Lemma contains_weaken (p q s : str) :
  contains (p ++ q) s = true -> contains p s = true.
Proof.
  induction s as [|c t IH]; cbn [contains]; intros H;
    apply orb_prop in H as [H|H]; try discriminate.
  - now rewrite (startswith_weaken p q []).
  - now rewrite (startswith_weaken p q (c :: t)).
  - rewrite IH by assumption. apply orb_true_r.
Qed.

Lemma contains_app_r (p a s : str) :
  contains p s = true -> contains p (a ++ s) = true.
Proof.
  intros H. induction a as [|c a IH]; [exact H|].
  cbn [app contains]. rewrite IH. apply orb_true_r.
Qed.

Lemma contains_prefix (p s : str) : contains p (p ++ s) = true.
Proof.
  destruct (p ++ s) eqn:E; cbn [contains]; rewrite <- E, startswith_app;
    reflexivity.
Qed.

Lemma contains_cons (p : str) (c : ascii) (s : str) :
  contains p (c :: s) = startswith p (c :: s) || contains p s.
Proof. reflexivity. Qed.

Lemma contains_behind (a : ascii) (p pre s : str) :
  forallb (fun c => negb (Ascii.eqb a c)) pre = true ->
  contains (a :: p) (pre ++ s) = contains (a :: p) s.
Proof.
  induction pre as [|c pre IH]; [reflexivity|].
  cbn [forallb app]. intros H. apply andb_prop in H as [Hc Hpre].
  cbn [contains startswith]. apply negb_true_iff in Hc. rewrite Hc.
  cbn [andb orb]. now apply IH.
Qed.

Lemma serial_name_import_behind (content : str) :
  contains "import kotlinx.serialization.SerialName"
    (serializable_import ++ content)
  = contains "import kotlinx.serialization.SerialName" content.
Proof.
  unfold serializable_import. simpl. reflexivity.
Qed.

Lemma fix_imports_steps (content : str) :
  fix_imports content
  = (if contains "@SerialName" content
        && negb (contains "import kotlinx.serialization.SerialName" content)
     then serial_name_import else [])
    ++ (if contains "@Serializable" content
           && negb (contains "import kotlinx.serialization" content)
        then serializable_import else [])
    ++ content.
Proof.
  unfold fix_imports.
  destruct (contains "@Serializable" content
            && negb (contains "import kotlinx.serialization" content)) eqn:E1.
  - change ("import kotlinx.serialization.Serializable" ++ [nl] ++ content)
      with (serializable_import ++ content).
    rewrite serial_name_import_behind.
    rewrite (contains_behind "@" "SerialName" serializable_import content)
      by reflexivity.
    destruct (contains "@SerialName" content
              && negb (contains "import kotlinx.serialization.SerialName"
                         content)); reflexivity.
  - destruct (contains "@SerialName" content
              && negb (contains "import kotlinx.serialization.SerialName"
                         content)); reflexivity.
Qed.

Lemma import_text_first (s : str) :
  contains "import kotlinx.serialization" (serializable_import ++ s) = true
  /\ contains "import kotlinx.serialization" (serial_name_import ++ s) = true
  /\ contains "import kotlinx.serialization.SerialName"
       (serial_name_import ++ s) = true.
Proof. repeat split; reflexivity. Qed.

Lemma fix_imports_again (content : str) :
  fix_imports (fix_imports content) = fix_imports content.
Proof.
  rewrite (fix_imports_steps (fix_imports content)).
  rewrite !(fix_imports_steps content).
  assert (W : forall q, contains "import kotlinx.serialization.SerialName" q
                        = true ->
                        contains "import kotlinx.serialization" q = true).
  { intros q.
    apply (contains_weaken "import kotlinx.serialization" ".SerialName"). }
  destruct (contains "@Serializable" content) eqn:A;
    destruct (contains "import kotlinx.serialization" content) eqn:I;
    destruct (contains "@SerialName" content) eqn:N;
    destruct (contains "import kotlinx.serialization.SerialName" content)
      eqn:J;
    try (apply W in J; congruence);
    cbn [andb negb app];
    repeat rewrite (contains_behind "@" "SerialName" serial_name_import)
      by reflexivity;
    repeat rewrite (contains_behind "@" "SerialName" serializable_import)
      by reflexivity;
    repeat rewrite (contains_behind "@" "Serializable" serial_name_import)
      by reflexivity;
    repeat rewrite (contains_behind "@" "Serializable" serializable_import)
      by reflexivity;
    rewrite ?serial_name_import_behind;
    rewrite ?(proj1 (import_text_first _)),
            ?(proj1 (proj2 (import_text_first _))),
            ?(proj2 (proj2 (import_text_first _)));
    rewrite ?A, ?I, ?N, ?J; cbn [andb negb app]; reflexivity.
Qed.

(** X8. [fix_imports] only puts lines in front of the file: the
    [SerialName] import when the file names [@SerialName] and not that
    import, and behind it the [Serializable] import when the file names
    [@Serializable] and no text [import kotlinx.serialization] at all.
    Afterwards a file with [@Serializable] holds some
    [import kotlinx.serialization] text and a file with [@SerialName] holds
    the [SerialName] import; a file with [@Serializable], without
    [@SerialName], that imports anything from [kotlinx.serialization] is left
    as it is, whether or not [Serializable] itself is imported; and a second
    application changes nothing. *)
Theorem fix_imports_settles (content : str) :
  (exists added,
     fix_imports content = added ++ content
     /\ (added = [] \/ added = serializable_import
         \/ added = serial_name_import
         \/ added = serial_name_import ++ serializable_import))
  /\ (contains "@Serializable" content = true ->
      contains "import kotlinx.serialization" (fix_imports content) = true)
  /\ (contains "@SerialName" content = true ->
      contains "import kotlinx.serialization.SerialName" (fix_imports content)
      = true)
  /\ (contains "import kotlinx.serialization" content = true ->
      contains "@SerialName" content = false ->
      fix_imports content = content)
  /\ fix_imports (fix_imports content) = fix_imports content.
Proof.
  split; [|split; [|split; [|split; [|apply fix_imports_again]]]].
  - rewrite fix_imports_steps.
    destruct (contains "@SerialName" content
              && negb (contains "import kotlinx.serialization.SerialName"
                         content));
      destruct (contains "@Serializable" content
                && negb (contains "import kotlinx.serialization" content));
      cbn [app].
    + exists (serial_name_import ++ serializable_import).
      rewrite <- app_assoc. auto.
    + exists serial_name_import. auto.
    + exists serializable_import. auto.
    + exists []. auto.
  - intros A. rewrite fix_imports_steps, A. cbn [andb].
    destruct (contains "import kotlinx.serialization" content) eqn:I;
      cbn [negb].
    + apply contains_app_r. exact I.
    + apply contains_app_r. apply import_text_first.
  - intros N. rewrite fix_imports_steps, N. cbn [andb].
    destruct (contains "import kotlinx.serialization.SerialName" content)
      eqn:J; cbn [negb].
    + cbn [app]. apply contains_app_r. exact J.
    + apply import_text_first.
  - intros I N. rewrite fix_imports_steps, I, N.
    rewrite andb_false_r. reflexivity.
Qed.

(** ** Patterns that cannot match *)

Lemma startswith_app_l (p w t : str) :
  startswith p w = true -> startswith p (w ++ t) = true.
Proof.
  revert w. induction p as [|a p IH]; intros w; [reflexivity|].
  destruct w as [|b w]; cbn [app startswith]; [discriminate|].
  intros H. apply andb_prop in H as [H1 H2]. rewrite H1. now apply IH.
Qed.

Lemma contains_app_l (p w t : str) :
  contains p w = true -> contains p (w ++ t) = true.
Proof.
  induction w as [|c w IH]; cbn [contains]; intros H;
    apply orb_prop in H as [H|H]; try discriminate.
  - destruct p; [|discriminate]. now destruct t.
  - pose proof (startswith_app_l p (c :: w) t H) as S.
    cbn [app] in S |- *. cbn [contains]. now rewrite S.
  - cbn [app contains]. rewrite IH by assumption. apply orb_true_r.
Qed.

Lemma startswith_split (p s : str) :
  startswith p s = true <-> exists t, s = p ++ t.
Proof.
  split.
  - revert s. induction p as [|a p IH]; intros s H; [now exists s|].
    destruct s as [|b s]; cbn [startswith] in H; [discriminate|].
    apply andb_prop in H as [H1 H2]. apply Ascii.eqb_eq in H1. subst b.
    destruct (IH s H2) as [t ->]. now exists t.
  - intros [t ->]. apply startswith_app.
Qed.

Lemma contains_split (p s : str) :
  contains p s = true <-> exists a b, s = a ++ p ++ b.
Proof.
  split.
  - induction s as [|c s IH]; cbn [contains]; intros H;
      apply orb_prop in H as [H|H]; try discriminate.
    + apply startswith_split in H as [t ->]. now exists [], t.
    + apply startswith_split in H as [t ->]. now exists [], t.
    + destruct (IH H) as (a & b & ->). now exists (c :: a), b.
  - intros (a & b & ->). apply contains_app_r, contains_prefix.
Qed.

Lemma rmatch_sound (r : re) :
  forall k st m,
    rmatch r k st = Some m ->
    exists w st', lang r w /\ rest st = w ++ rest st' /\ k st' = Some m.
Proof.
  induction r as [|p|s|a IHa b IHb|a IHa b IHb|a IHa|i a IHa|];
    intros k st m H; cbn [rmatch lang] in *.
  - now exists [], st.
  - destruct st as [b [|c t] g]; cbn [rest advance before groups] in *;
      [discriminate|].
    destruct (p c) eqn:Hp; [|discriminate].
    exists [c], (MState (c :: b) t g). eauto 6.
  - destruct (eat s st) as [st'|] eqn:E; [|discriminate].
    exists s, st'. split; [reflexivity|]. split; [|assumption].
    clear H. revert st E. induction s as [|c s IH]; intros st E.
    + cbn in E. now injection E as ->.
    + cbn [eat] in E. destruct st as [b [|c' t] g];
        cbn [rest before groups] in *; [discriminate|].
      destruct (Ascii.eqb_spec c c') as [->|]; [|discriminate].
      apply IH in E. cbn [rest] in E. now rewrite E.
  - apply IHa in H as (u & st1 & Lu & Eu & H).
    apply IHb in H as (v & st2 & Lv & Ev & H).
    exists (u ++ v), st2. split; [now exists u, v|].
    split; [|assumption]. now rewrite Eu, Ev, app_assoc.
  - destruct (rmatch a k st) as [m'|] eqn:E.
    + injection H as ->. apply IHa in E as (w & st' & L & Ew & H).
      exists w, st'. auto.
    + apply IHb in H as (w & st' & L & Ew & H). exists w, st'. auto.
  - remember (S (length (rest st))) as fuel eqn:Ef. clear Ef.
    revert st H. induction fuel as [|fuel IH]; intros st H.
    + cbn [star_loop] in H. exists [], st. split; [now exists []|auto].
    + rewrite star_loop_step in H.
      destruct (rmatch a _ st) as [m'|] eqn:E.
      * injection H as ->. apply IHa in E as (w & st1 & L & Ew & H).
        destruct (length (rest st1) <? length (rest st))%nat; [|discriminate].
        apply IH in H as (w' & st2 & (ws & -> & F) & Ew' & H).
        exists (w ++ concat ws), st2. split.
        -- exists (w :: ws). split; [reflexivity|now constructor].
        -- split; [|assumption]. now rewrite Ew, Ew', app_assoc.
      * exists [], st. split; [now exists []|auto].
  - apply IHa in H as (w & st' & L & Ew & H).
    exists w, (capture i st st'). auto.
  - destruct (at_line_start st); [|discriminate]. now exists [], st.
Qed.

Lemma leading_sound (r : re) :
  forall w, lang r w -> startswith (leading r) w = true.
Proof.
  induction r as [|p|s|a IHa b IHb|a IHa b IHb|a IHa|i a IHa|];
    intros w L; cbn [lang] in L; try reflexivity.
  - subst. rewrite <- (app_nil_r s) at 2. apply startswith_app.
  - destruct L as (u & v & -> & Lu & Lv).
    destruct a; cbn [leading lang] in *;
      try (apply startswith_app_l; now apply IHa).
    + subst u. apply startswith_split.
      apply IHb, startswith_split in Lv as [t ->].
      exists t. now rewrite app_assoc.
    + subst u. now apply IHb.
  - cbn [leading]. now apply IHa.
Qed.

Lemma needs_sound (lit : str) (r : re) :
  needs lit r = true -> forall w, lang r w -> contains lit w = true.
Proof.
  induction r as [|p|s|a IHa b IHb|a IHa b IHb|a IHa|i a IHa|];
    cbn [needs lang]; try discriminate; intros N w L.
  - now subst.
  - destruct L as (u & v & -> & Lu & Lv).
    apply orb_prop in N as [N|N]; [apply orb_prop in N as [N|N]|].
    + apply contains_app_l. now apply IHa.
    + apply contains_app_r. now apply IHb.
    + destruct a; try discriminate. cbn [lang] in Lu. subst u.
      apply leading_sound, startswith_split in Lv as [t ->].
      rewrite app_assoc. now apply contains_app_l.
  - apply andb_prop in N as [Na Nb]. destruct L; auto.
  - auto.
Qed.

Lemma match_here_needs (lit : str) (r : re) (b s : str) :
  needs lit r = true -> contains lit s = false -> match_here r b s = None.
Proof.
  intros N C. unfold match_here.
  destruct (rmatch r Some (MState b s [])) as [m|] eqn:E; [|reflexivity].
  apply rmatch_sound in E as (w & st' & L & Ew & _). cbn [rest] in Ew.
  apply (needs_sound lit r N) in L.
  apply (contains_app_l lit w (rest st')) in L. congruence.
Qed.

Lemma contains_tail (p : str) (c : ascii) (s : str) :
  contains p (c :: s) = false -> contains p s = false.
Proof. cbn [contains]. intros H. now apply orb_false_elim in H. Qed.

Lemma sub_from_without (lit : str) (r : re) repl (content b : str) :
  needs lit r = true -> contains lit content = false ->
  sub_from r repl b content 0 = content.
Proof.
  intros N. revert b.
  induction content as [|c t IH]; intros b C; cbn [sub_from].
  - now rewrite (match_here_needs lit r b [] N C).
  - rewrite (match_here_needs lit r b (c :: t) N C).
    f_equal. apply IH. eapply contains_tail, C.
Qed.

Lemma re_sub_without (lit : str) (r : re) repl (content : str) :
  needs lit r = true -> contains lit content = false ->
  re_sub r repl content = content.
Proof. apply sub_from_without. Qed.

Lemma fix_imports_without (content : str) :
  contains "@Serializable" content = false ->
  contains "@SerialName" content = false ->
  fix_imports content = content.
Proof. intros A N. rewrite fix_imports_steps, A, N. reflexivity. Qed.

Lemma fix_serialization_annotations_without {titling : Titling}
    (content : str) :
  contains "_" content = false ->
  fix_serialization_annotations content = content.
Proof. now apply re_sub_without. Qed.

Lemma fix_nullable_types_kotlin_without (content : str) :
  contains "Optional<" content = false ->
  contains "Array<" content = false ->
  fix_nullable_types_kotlin content = content.
Proof.
  intros O A. unfold fix_nullable_types_kotlin.
  rewrite (re_sub_without "Optional<" (generic_pattern "Optional"))
    by (reflexivity || assumption).
  now apply (re_sub_without "Array<").
Qed.

Lemma add_serializable_annotations_without (content : str) :
  contains "class" content = false ->
  contains "@Serializable" content = false ->
  add_serializable_annotations content = content.
Proof.
  intros C A. unfold add_serializable_annotations.
  rewrite (re_sub_without "class" (class_pattern "data"))
    by (reflexivity || assumption).
  rewrite (re_sub_without "class" (class_pattern "enum"))
    by (reflexivity || assumption).
  now apply (re_sub_without "@Serializable").
Qed.

Lemma fix_enum_serialization_without (content : str) :
  contains "enum" content = false ->
  fix_enum_serialization content = content.
Proof. now apply re_sub_without. Qed.

Lemma fix_api_client_paths_without (content : str) :
  contains "suspend fun " content = false ->
  contains "Api" content = false ->
  fix_api_client_paths content = content.
Proof.
  intros S A. unfold fix_api_client_paths.
  rewrite (re_sub_without "suspend fun " http_call_pattern)
    by (reflexivity || assumption).
  rewrite (re_sub_without "Api" api_interface_pattern)
    by (reflexivity || assumption).
  now apply (re_sub_without "Api").
Qed.

(** ** Files the pipeline leaves alone *)

Lemma contains_longer (p q s : str) :
  contains p s = false -> contains (p ++ q) s = false.
Proof.
  intros H. destruct (contains (p ++ q) s) eqn:E; [|reflexivity].
  apply contains_weaken in E. congruence.
Qed.

Section Unchanged.
Context {titling : Titling}.

(** X9. A Kotlin file that holds no [@], no underscore, none of the texts
    [Optional<] and [Array<], and neither [class] nor [Api], is left as it is
    by each of the six passes and by the pipeline: the rewritten content
    equals the original content. *)
Theorem fix_generated_kotlin_unchanged (content : str) :
  contains "@" content = false ->
  contains "_" content = false ->
  contains "Optional<" content = false ->
  contains "Array<" content = false ->
  contains "class" content = false ->
  contains "Api" content = false ->
  fix_imports content = content
  /\ fix_serialization_annotations content = content
  /\ fix_nullable_types_kotlin content = content
  /\ add_serializable_annotations content = content
  /\ fix_enum_serialization content = content
  /\ fix_api_client_paths content = content
  /\ fix_generated_kotlin content = content.
Proof.
  intros At Un Op Ar Cl Ap.
  pose proof (contains_longer "@" "Serializable" content At) as A1.
  pose proof (contains_longer "@" "SerialName" content At) as A2.
  assert (E1 : fix_imports content = content)
    by now apply fix_imports_without.
  assert (E2 : fix_serialization_annotations content = content)
    by now apply fix_serialization_annotations_without.
  assert (E3 : fix_nullable_types_kotlin content = content)
    by now apply fix_nullable_types_kotlin_without.
  assert (E4 : add_serializable_annotations content = content)
    by now apply add_serializable_annotations_without.
  assert (E5 : fix_enum_serialization content = content)
    by now apply (re_sub_without "class").
  assert (E6 : fix_api_client_paths content = content).
  { unfold fix_api_client_paths.
    rewrite (re_sub_without "@" http_call_pattern)
      by (reflexivity || assumption).
    rewrite (re_sub_without "Api" api_interface_pattern)
      by (reflexivity || assumption).
    now apply (re_sub_without "Api"). }
  repeat split; try assumption.
  unfold fix_generated_kotlin. now rewrite E1, E2, E3, E4, E5, E6.
Qed.

End Unchanged.

Lemma fix_generated_kotlin_unchanged_witness :
  @fix_generated_kotlin titling_7bit "fun main() { println(1) }"
  = "fun main() { println(1) }".
Proof.
  apply (@fix_generated_kotlin_unchanged titling_7bit
           "fun main() { println(1) }");
    reflexivity.
Defined.

(** ** Properties that are annotated on their line *)

Lemma replaced_preceded (behind : str -> bool) repl repl' (l : list piece) :
  (forall d gs, behind d = true -> repl d gs = repl' d gs) ->
  forall done tail,
    preceded behind done l = true ->
    replaced repl done l tail = replaced repl' done l tail.
Proof.
  intros H. induction l as [|p t IH]; intros done tail Hb;
    cbn [replaced preceded] in *; [reflexivity|].
  apply andb_prop in Hb as [Hp Hb].
  rewrite (H _ (captured p) Hp). do 2 f_equal. now apply IH.
Qed.

Lemma annotated_fields_file_fields :
  Forall is_snake_property (fst annotated_fields_file).
Proof.
  constructor; [|constructor; [|constructor]].
  - exists " ", "block", ["hash"], [].
    repeat split; try discriminate; try reflexivity.
    repeat constructor; discriminate.
  - exists "  ", "account", ["id"], " ".
    repeat split; try discriminate; try reflexivity.
    repeat constructor; discriminate.
Qed.

Section AnnotatedProperties.
Context {titling : Titling}.

(** X10. Of a file that consists of snake-case [val] declarations as in C7
    (each behind a gap in which no match of the property pattern starts, and
    a tail in which none starts), where for every declaration the text
    before [val] on its line holds [@SerialName], the
    serialization-annotation pass keeps the gaps and the tail, adds no
    annotation, and writes [val], one space, the camel-case name and the
    colon in the place of each declaration, so the white space around the
    name is normalised.  A file without an underscore is left as it is. *)
Theorem annotated_property_renamed :
  (forall (fields : list piece) (tail : str),
     Forall is_snake_property fields ->
     spaced snake_property_pattern [] fields tail = true ->
     preceded annotated_line [] fields = true ->
     fix_serialization_annotations (pieces_text fields tail)
     = replaced (fun _ gs => "val " ++ snake_to_camel (group 1 gs) ++ ":")
         [] fields tail)
  /\ (forall content : str,
        contains "_" content = false ->
        fix_serialization_annotations content = content).
Proof.
  split.
  - intros fields tail F Hs Hb.
    rewrite fix_serialization_annotations_fields by assumption.
    apply (replaced_preceded annotated_line); [|assumption].
    intros d gs Hd. unfold replace_property. unfold annotated_line in Hd.
    now rewrite Hd.
  - apply fix_serialization_annotations_without.
Qed.

End AnnotatedProperties.

Lemma annotated_property_renamed_witness :
  @fix_serialization_annotations titling_7bit
    (pieces_text (fst annotated_fields_file) (snd annotated_fields_file))
  = "class A(" ++ serial_name "hash" ++ " " ++ "val blockHash:"
      ++ " String," ++ [nl] ++ "  " ++ serial_name "id" ++ " "
      ++ "val accountId:" ++ " String)".
Proof.
  refine (eq_trans
            (proj1 (@annotated_property_renamed titling_7bit)
               (fst annotated_fields_file) (snd annotated_fields_file)
               annotated_fields_file_fields _ _) _);
    vm_compute; reflexivity.
Defined.

(** ** Generic types *)

Lemma generic_match (name b ws T post : str) :
  (forall r, stops is_space (name ++ r) = true) ->
  forallb is_space ws = true ->
  T <> [] -> forallb (fun c => negb (Ascii.eqb c ">")) T = true ->
  match_here (generic_pattern name) b
    (":" ++ ws ++ name ++ "<" ++ T ++ ">" ++ post)
  = Some (MState (rev (":" ++ ws ++ name ++ "<" ++ T ++ ">") ++ b) post
            [(1%nat, T)]).
Proof.
  intros Hname Hws HT Hfree.
  unfold match_here, generic_pattern.
  rewrite rmatch_cat_cons, rmatch_lit, rmatch_cat_cons.
  apply rmatch_star_class; [assumption|apply Hname|].
  rewrite rmatch_cat_cons, rmatch_lit, rmatch_cat_cons, rmatch_lit.
  rewrite rmatch_cat_cons, rmatch_group.
  apply rmatch_plus_class; [assumption|assumption|reflexivity|].
  unfold capture. cbn [rest before groups].
  rewrite firstn_consumed.
  rewrite rmatch_cat_cons, rmatch_lit. cbn [cat fold_right rmatch].
  f_equal. f_equal.
  rewrite !rev_app_distr, <- !app_assoc. reflexivity.
Qed.

Lemma generic_anywhere (name : str) (p : piece) :
  (forall r, stops is_space (name ++ r) = true) ->
  is_generic name p -> matches_anywhere (generic_pattern name) p.
Proof.
  intros Hname (ws & T & Hws & HT & Hfree & Hm & Hc). split.
  - rewrite Hm. discriminate.
  - intros b s. rewrite Hm, Hc. unfold generic_type.
    rewrite <- !app_assoc. now apply generic_match.
Qed.

Lemma generic_types_replaced (name : str) repl (l : list piece)
    (tail : str) :
  (forall r, stops is_space (name ++ r) = true) ->
  generic_matches name l tail ->
  re_sub (generic_pattern name) repl (pieces_text l tail)
  = replaced repl [] l tail.
Proof.
  intros Hname [F Hs]. apply re_sub_anywhere; [|assumption].
  eapply Forall_impl; [|exact F]. intros p. now apply generic_anywhere.
Qed.

(** X11. The nullable-type pass goes through the file twice.  Of a file
    that consists of texts [: Optional<T>] (a colon, optional white space,
    [Optional<], a non-empty [T] without [>], and [>]), each behind a gap in
    which no match of the pattern starts, and a tail in which none starts,
    it first writes a colon, one space, [T] and a question mark in the place
    of each and keeps the gaps and the tail.  Where that outcome consists in
    the same way of texts [: Array<T>], it then writes [: List<T>] in the
    place of each.  [T] ends at the first [>], so of a nested generic type
    only the part before its first [>] is taken. *)
Theorem generic_types_rewritten (options arrays : list piece)
    (tail tail' : str) :
  generic_matches "Optional" options tail ->
  replaced (fun _ gs => ": " ++ group 1 gs ++ "?") [] options tail
  = pieces_text arrays tail' ->
  generic_matches "Array" arrays tail' ->
  fix_nullable_types_kotlin (pieces_text options tail)
  = replaced (fun _ gs => ": List<" ++ group 1 gs ++ ">") [] arrays tail'.
Proof.
  intros Ho E Ha. unfold fix_nullable_types_kotlin.
  rewrite (generic_types_replaced "Optional") by (auto || reflexivity).
  rewrite E.
  now rewrite (generic_types_replaced "Array") by (auto || reflexivity).
Qed.

Lemma generic_types_rewritten_witness :
  fix_nullable_types_kotlin
    "class A(val a: Optional<Int>, val c:Optional<List<String>>, val b: Array<Long>)"
  = "class A(val a: Int?, val c: List<String?>, val b: List<Long>)".
Proof.
  refine (eq_trans
            (generic_types_rewritten
               (fst optional_and_array_file) (fst array_file)
               (snd optional_and_array_file) (snd array_file) _ _ _) _).
  - split; [|vm_compute; reflexivity].
    constructor; [|constructor; [|constructor]].
    + exists " ", "Int". repeat split; discriminate || reflexivity.
    + exists [], "List<String". repeat split; discriminate || reflexivity.
  - vm_compute. reflexivity.
  - split; [|vm_compute; reflexivity].
    constructor; [|constructor].
    exists " ", "Long". repeat split; discriminate || reflexivity.
  - vm_compute. reflexivity.
Defined.

(** ** Backtracking over a class *)

Lemma eat_fail (s : str) (st : mstate) :
  startswith s (rest st) = false -> eat s st = None.
Proof.
  revert st. induction s as [|c s IH]; intros [b r g]; cbn [rest];
    [discriminate|].
  destruct r as [|c' r]; cbn [eat startswith rest before groups];
    [reflexivity|].
  destruct (Ascii.eqb c c'); cbn [andb]; [|reflexivity].
  intros H. now apply IH.
Qed.

Lemma rmatch_lit_fail (s : str) k (st : mstate) :
  startswith s (rest st) = false -> rmatch (Lit s) k st = None.
Proof. intros H. cbn [rmatch]. now rewrite eat_fail. Qed.

(** A greedy class repetition gives way: when the continuation fails behind
    every non-empty prefix of the run, it is tried at the start of the
    run. *)
Lemma star_class_gives_way (p : ascii -> bool) k (w r : str) :
  forallb p w = true -> stops p r = true ->
  forall fuel b g,
    (forall u v, w = u ++ v -> u <> [] ->
                 k (MState (rev u ++ b) (v ++ r) g) = None) ->
    star_loop (rmatch (Chr p)) k fuel (MState b (w ++ r) g)
    = k (MState b (w ++ r) g).
Proof.
  intros Hw Hr. induction w as [|c w IH]; intros fuel b g Hk.
  - destruct fuel as [|fuel]; [reflexivity|].
    rewrite star_loop_step. cbn [app].
    destruct r as [|c r]; [reflexivity|].
    rewrite rmatch_chr. cbn [stops] in Hr.
    apply negb_true_iff in Hr. now rewrite Hr.
  - destruct fuel as [|fuel]; [reflexivity|].
    rewrite star_loop_step. cbn [app]. rewrite rmatch_chr.
    cbn [forallb] in Hw. apply andb_prop in Hw as [Hc Hw]. rewrite Hc.
    cbn [rest length].
    replace (length (w ++ r) <? S (length (w ++ r)))%nat with true
      by (symmetry; apply Nat.ltb_lt; lia).
    rewrite (IH Hw).
    + assert (H1 : k (MState (rev [c] ++ b) (w ++ r) g) = None)
        by (apply Hk; [reflexivity|discriminate]).
      cbn [rev app] in H1. now rewrite H1.
    + intros u v -> Hu.
      specialize (Hk (c :: u) v eq_refl). cbn [rev] in Hk.
      rewrite <- app_assoc in Hk. apply Hk. discriminate.
Qed.

Lemma marker_line_match k (b X : str) g :
  stops is_space X = true ->
  rmatch marker_line k (MState b (serializable_marker ++ X) g)
  = k (MState (rev serializable_marker ++ b) X
         ((1%nat, serializable_marker) :: g)).
Proof.
  intros HX. unfold marker_line, serializable_marker.
  rewrite rmatch_group, rmatch_cat_cons.
  rewrite <- app_assoc. rewrite rmatch_lit, rmatch_cat_cons, rmatch_star.
  cbn [rest].
  rewrite (star_class_gives_way is_space _ [nl] X eq_refl HX).
  - rewrite rmatch_cat_cons, rmatch_lit. cbn [cat fold_right rmatch].
    unfold capture. cbn [rest before groups].
    replace ("@Serializable" ++ [nl] ++ X)
      with (("@Serializable" ++ [nl]) ++ X) by (now rewrite <- app_assoc).
    rewrite firstn_consumed. reflexivity.
  - intros u v E Hu.
    destruct u as [|c [|c' u]]; [congruence| |discriminate].
    injection E as Ec Ev. subst c v. cbn [app].
    rewrite rmatch_cat_cons. apply rmatch_lit_fail. cbn [rest].
    destruct X as [|x X]; [reflexivity|]. cbn [stops] in HX.
    cbn [startswith]. destruct (Ascii.eqb_spec nl x) as [<-|]; [|reflexivity].
    discriminate.
Qed.

Lemma marker_lines_stop (n : nat) (X : str) :
  stops is_space X = true -> stops is_space (marker_lines n ++ X) = true.
Proof. destruct n; [auto|reflexivity]. Qed.

Lemma repeat_shift {A : Type} (x : A) (n : nat) (g : list A) :
  repeat x n ++ x :: g = x :: repeat x n ++ g.
Proof.
  induction n as [|n IH]; [reflexivity|].
  cbn [repeat app]. now rewrite IH.
Qed.

Lemma marker_lines_match (n : nat) (X : str) :
  stops is_space X = true -> startswith "@Serializable" X = false ->
  forall fuel b g,
    n <= fuel ->
    star_loop (rmatch marker_line) Some fuel
      (MState b (marker_lines n ++ X) g)
    = Some (MState (rev (marker_lines n) ++ b) X
              (repeat (1%nat, serializable_marker) n ++ g)).
Proof.
  intros HX HS. induction n as [|n IH]; intros fuel b g Hf.
  - cbn [marker_lines repeat concat app rev].
    destruct fuel as [|fuel]; [reflexivity|].
    rewrite star_loop_step. unfold marker_line at 1.
    rewrite rmatch_group, rmatch_cat_cons, rmatch_lit_fail; auto.
  - destruct fuel as [|fuel]; [lia|].
    rewrite star_loop_step.
    change (marker_lines (S n)) with (serializable_marker ++ marker_lines n).
    rewrite <- app_assoc.
    rewrite marker_line_match by now apply marker_lines_stop.
    cbn [rest].
    assert (Lt : (length (marker_lines n ++ X)
                  <? length (serializable_marker ++ marker_lines n ++ X))%nat
                 = true).
    { apply Nat.ltb_lt. rewrite (length_app serializable_marker).
      change (length serializable_marker) with 14. lia. }
    rewrite Lt.
    rewrite (IH fuel (rev serializable_marker ++ b)
               ((1%nat, serializable_marker) :: g)) by lia.
    rewrite repeat_shift, rev_app_distr, <- app_assoc. reflexivity.
Qed.

Lemma marker_lines_length (n : nat) : n <= length (marker_lines n).
Proof.
  induction n as [|n IH]; [apply Nat.le_0_l|].
  change (marker_lines (S n)) with (serializable_marker ++ marker_lines n).
  rewrite length_app. cbn. lia.
Qed.

Lemma marker_run_match (n : nat) (b X : str) :
  stops is_space X = true -> startswith "@Serializable" X = false ->
  match_here marker_run_pattern b (marker_lines (S n) ++ X)
  = Some (MState (rev (marker_lines (S n)) ++ b) X
            (repeat (1%nat, serializable_marker) (S n))).
Proof.
  intros HX HS. unfold match_here.
  change marker_run_pattern with (Plus marker_line). unfold Plus.
  rewrite rmatch_seq.
  change (marker_lines (S n)) with (serializable_marker ++ marker_lines n).
  rewrite <- app_assoc.
  rewrite marker_line_match by now apply marker_lines_stop.
  rewrite rmatch_star. cbn [rest].
  rewrite (marker_lines_match n X HX HS
             (S (length (marker_lines n ++ X)))
             (rev serializable_marker ++ b)
             [(1%nat, serializable_marker)]).
  - rewrite repeat_shift, app_nil_r, rev_app_distr, <- app_assoc.
    reflexivity.
  - rewrite length_app. pose proof (marker_lines_length n). lia.
Qed.

Lemma rmatch_bol k (st : mstate) :
  rmatch Bol k st = if at_line_start st then k st else None.
Proof. reflexivity. Qed.

Lemma class_match (kind b ws1 ws2 name post : str) :
  match b with [] => true | c :: _ => Ascii.eqb c nl end = true ->
  ws1 <> [] -> forallb is_space ws1 = true ->
  ws2 <> [] -> forallb is_space ws2 = true ->
  name <> [] -> forallb is_word name = true ->
  stops is_word post = true ->
  match_here (class_pattern kind) b
    (class_declaration kind ws1 ws2 name ++ post)
  = Some (MState (rev (class_declaration kind ws1 ws2 name) ++ b) post
            [(1%nat, class_declaration kind ws1 ws2 name)]).
Proof.
  intros Hb Hw1 Hs1 Hw2 Hs2 Hn Hname Hpost.
  unfold match_here, class_pattern, class_declaration.
  rewrite rmatch_cat_cons, rmatch_bol.
  unfold at_line_start. cbn [before]. rewrite Hb.
  rewrite rmatch_cat_cons, rmatch_group, rmatch_cat_cons.
  rewrite <- !app_assoc. rewrite rmatch_lit, rmatch_cat_cons.
  apply rmatch_plus_class; [assumption|assumption|reflexivity|].
  rewrite rmatch_cat_cons, rmatch_lit, rmatch_cat_cons.
  apply rmatch_plus_class; try assumption.
  { destruct name as [|c name]; [congruence|]. simpl in Hname |- *.
    apply andb_prop in Hname as [Hc _].
    now rewrite (word_not_space c Hc). }
  rewrite rmatch_cat_cons.
  apply rmatch_plus_class; try assumption.
  cbn [cat fold_right rmatch]. unfold capture. cbn [rest before groups].
  replace (kind ++ ws1 ++ "class" ++ ws2 ++ name ++ post)
    with ((kind ++ ws1 ++ "class" ++ ws2 ++ name) ++ post)
    by (now rewrite <- !app_assoc).
  rewrite firstn_consumed. do 2 f_equal.
  rewrite !rev_app_distr, <- !app_assoc. reflexivity.
Qed.

(** ** Marked classes *)

Lemma class_between (kind : str) (p : piece) :
  is_class kind p ->
  matches_between ends_line (stops is_word) (class_pattern kind) p.
Proof.
  intros (ws1 & ws2 & name & Hw1 & Hs1 & Hw2 & Hs2 & Hn & Hname & Hm & Hc).
  split.
  - rewrite Hm. unfold class_declaration. intros E.
    apply app_eq_nil in E as [_ E]. apply app_eq_nil in E as [_ E].
    discriminate.
  - intros b s Hb Hs. rewrite Hm, Hc. now apply class_match.
Qed.

Lemma classes_marked (kind : str) repl (l : list piece) (tail : str) :
  class_matches kind l tail ->
  re_sub (class_pattern kind) repl (pieces_text l tail)
  = replaced repl [] l tail.
Proof.
  intros (F & Hs & Hb & Hf).
  apply (re_sub_between ends_line (stops is_word)); try assumption.
  eapply Forall_impl; [|exact F]. apply class_between.
Qed.

Lemma marker_run_between (p : piece) :
  is_marker_run p ->
  matches_between (fun _ => true) ends_markers marker_run_pattern p.
Proof.
  intros (n & Hm & Hc). split.
  - rewrite Hm. discriminate.
  - intros b s _ Hs. rewrite Hm, Hc.
    unfold ends_markers in Hs. apply andb_prop in Hs as [H1 H2].
    apply negb_true_iff in H2. now apply marker_run_match.
Qed.

Lemma preceded_always (l : list piece) :
  forall done, preceded (fun _ => true) done l = true.
Proof.
  induction l as [|p t IH]; intros done; cbn [preceded andb];
    [reflexivity|apply IH].
Qed.

Lemma marker_runs_reduced repl (l : list piece) (tail : str) :
  marker_matches l tail ->
  re_sub marker_run_pattern repl (pieces_text l tail)
  = replaced repl [] l tail.
Proof.
  intros (F & Hs & Hf).
  apply (re_sub_between (fun _ => true) ends_markers); try assumption.
  - eapply Forall_impl; [|exact F]. apply marker_run_between.
  - apply preceded_always.
Qed.

(** X12. [add_serializable_annotations] goes through the file three
    times.  Of a file that consists of declarations [data class Name]
    ([data], white space, [class], white space and a name of word
    characters), each at the start of a line and followed by a text that
    does not go on with a word character, behind a gap in which no match of
    the pattern starts, and a tail in which none starts, it first writes a
    line [@Serializable] in front of every declaration and keeps the gaps
    and the tail.  Where the outcome consists in the same way of
    declarations [enum class Name], it does the same to them.  Where that
    outcome consists of runs of one or more lines that hold [@Serializable]
    alone, each followed by a text that neither starts with white space nor
    with a further marker, with no match of the marker pattern starting in a
    gap or in the tail, it writes one marker line in the place of every
    run. *)
Theorem class_declarations_marked (datas enums runs : list piece)
    (tail tail' tail'' : str) :
  class_matches "data" datas tail ->
  replaced (fun _ gs => "@Serializable" ++ [nl] ++ group 1 gs) [] datas tail
  = pieces_text enums tail' ->
  class_matches "enum" enums tail' ->
  replaced (fun _ gs => "@Serializable" ++ [nl] ++ group 1 gs) [] enums tail'
  = pieces_text runs tail'' ->
  marker_matches runs tail'' ->
  add_serializable_annotations (pieces_text datas tail)
  = replaced (fun _ _ => "@Serializable" ++ [nl]) [] runs tail''.
Proof.
  intros Hd E1 He E2 Hr. unfold add_serializable_annotations.
  rewrite (classes_marked "data") by assumption. rewrite E1.
  rewrite (classes_marked "enum") by assumption. rewrite E2.
  now apply marker_runs_reduced.
Qed.

Lemma class_declarations_marked_witness :
  add_serializable_annotations
    ("package a" ++ [nl] ++ "data class Foo(val metadata: Int)" ++ [nl]
       ++ "@Serializable" ++ [nl] ++ "@Serializable" ++ [nl]
       ++ "enum  class Kind { A }")
  = "package a" ++ [nl] ++ "@Serializable" ++ [nl]
      ++ "data class Foo(val metadata: Int)" ++ [nl]
      ++ "@Serializable" ++ [nl] ++ "enum  class Kind { A }".
Proof.
  refine (eq_trans
            (class_declarations_marked
               (fst classes_file) (fst classes_file_enums)
               (fst classes_file_runs)
               (snd classes_file) (snd classes_file_enums)
               (snd classes_file_runs) _ _ _ _ _) _).
  - split; [|repeat split; vm_compute; reflexivity].
    constructor; [|constructor].
    exists " ", " ", "Foo". repeat split; discriminate || reflexivity.
  - vm_compute. reflexivity.
  - split; [|repeat split; vm_compute; reflexivity].
    constructor; [|constructor].
    exists "  ", " ", "Kind". repeat split; discriminate || reflexivity.
  - vm_compute. reflexivity.
  - split; [|repeat split; vm_compute; reflexivity].
    constructor; [|constructor; [|constructor]].
    + now exists 0.
    + now exists 2.
  - vm_compute. reflexivity.
Defined.

(** ** The client interface *)

Lemma star_class_split (p : ascii -> bool) k (w1 w2 r : str) :
  forallb p w1 = true -> forallb p w2 = true -> stops p r = true ->
  forall fuel b g m,
    length w1 <= fuel ->
    (forall u v, w2 = u ++ v -> u <> [] ->
                 k (MState (rev u ++ rev w1 ++ b) (v ++ r) g) = None) ->
    k (MState (rev w1 ++ b) (w2 ++ r) g) = Some m ->
    star_loop (rmatch (Chr p)) k fuel (MState b (w1 ++ w2 ++ r) g) = Some m.
Proof.
  intros H1 H2 Hr. induction w1 as [|c w1 IH]; intros fuel b g m Hf Hfail Hk.
  - cbn [app rev] in *. now rewrite star_class_gives_way.
  - destruct fuel as [|fuel]; [cbn [length] in Hf; lia|].
    cbn [forallb] in H1. apply andb_prop in H1 as [Hc H1].
    rewrite star_loop_step. cbn [app]. rewrite rmatch_chr, Hc. cbn [rest].
    replace (length (w1 ++ w2 ++ r) <? length (c :: w1 ++ w2 ++ r))%nat
      with true by (symmetry; apply Nat.ltb_lt; cbn [length]; lia).
    rewrite (IH H1 fuel (c :: b) g m); [reflexivity| | |].
    + cbn [length] in Hf. lia.
    + intros u v E Hu. specialize (Hfail u v E Hu).
      cbn [rev] in Hfail. now rewrite <- app_assoc in Hfail.
    + cbn [rev] in Hk. now rewrite <- app_assoc in Hk.
Qed.

Lemma api_suffix_match (s : str) k (b base r : str) g m :
  base <> [] -> forallb is_word base = true -> stops is_word r = true ->
  rmatch (Lit ("Api" ++ s)) k (MState (rev base ++ b) ("Api" ++ r) g)
  = Some m ->
  rmatch (Plus word) (rmatch (Lit ("Api" ++ s)) k)
    (MState b (base ++ "Api" ++ r) g) = Some m.
Proof.
  intros Hne Hbase Hr Hk. destruct base as [|c base]; [congruence|].
  cbn [forallb] in Hbase. apply andb_prop in Hbase as [Hc Hbase].
  unfold Plus, word. rewrite rmatch_seq. cbn [app]. rewrite rmatch_chr, Hc.
  rewrite rmatch_star. cbn [rest].
  apply (star_class_split is_word _ base "Api" r); try assumption.
  - reflexivity.
  - rewrite !length_app. lia.
  - intros u v E Hu. apply rmatch_lit_fail. cbn [rest].
    destruct u as [|c1 [|c2 [|c3 [|c4 u]]]]; try congruence;
      cbn [app] in E; injection E as; subst; try reflexivity;
      try discriminate.
    cbn [app]. destruct r as [|x r]; [reflexivity|].
    cbn [stops] in Hr. cbn [startswith].
    destruct (Ascii.eqb_spec "A" x) as [<-|]; [discriminate|reflexivity].
  - cbn [rev] in Hk. now rewrite <- app_assoc in Hk.
Qed.

Lemma api_interface_match (b ws base ws' post : str) :
  ws <> [] -> forallb is_space ws = true ->
  base <> [] -> forallb is_word base = true ->
  forallb is_space ws' = true ->
  match_here api_interface_pattern b (api_interface ws base ws' ++ post)
  = Some (MState (rev (api_interface ws base ws') ++ b) post []).
Proof.
  intros Hws Hs Hbase Hw Hs'.
  unfold match_here, api_interface_pattern, api_interface.
  rewrite <- !app_assoc.
  rewrite rmatch_cat_cons, rmatch_lit, rmatch_cat_cons.
  apply rmatch_plus_class; try assumption.
  { destruct base as [|c base]; [congruence|].
    cbn [forallb] in Hw. apply andb_prop in Hw as [Hc _].
    cbn [app stops]. now rewrite (word_not_space c Hc). }
  rewrite rmatch_cat_cons.
  change (rmatch (cat [Lit "Api"; Star space; Lit "{"]) Some)
    with (rmatch (Lit ("Api" ++ [])) (rmatch (cat [Star space; Lit "{"]) Some)).
  apply (api_suffix_match []); try assumption.
  { destruct ws' as [|c w]; [reflexivity|].
    cbn [forallb] in Hs'. apply andb_prop in Hs' as [Hc _].
    cbn [app stops]. revert Hc. clear.
    each_char c; vm_compute; congruence. }
  rewrite rmatch_lit, rmatch_cat_cons.
  apply rmatch_star_class; [assumption|reflexivity|].
  rewrite rmatch_cat_cons, rmatch_lit. cbn [cat fold_right rmatch].
  do 2 f_equal. rewrite !rev_app_distr, <- !app_assoc. reflexivity.
Qed.

Lemma retrofit_create_match (b base post : str) :
  base <> [] -> forallb is_word base = true ->
  match_here retrofit_create_pattern b (retrofit_create base ++ post)
  = Some (MState (rev (retrofit_create base) ++ b) post []).
Proof.
  intros Hbase Hw.
  unfold match_here, retrofit_create_pattern, retrofit_create.
  rewrite <- !app_assoc.
  rewrite rmatch_cat_cons, rmatch_lit, rmatch_cat_cons.
  change (rmatch (cat [Lit "Api::class.java)"]) Some)
    with (rmatch (Lit ("Api" ++ "::class.java)")) (rmatch (cat []) Some)).
  change ("Api::class.java)" ++ post) with ("Api" ++ "::class.java)" ++ post).
  apply (api_suffix_match "::class.java)"); try assumption; [reflexivity|].
  change ("Api" ++ "::class.java)" ++ post)
    with (("Api" ++ "::class.java)") ++ post).
  rewrite rmatch_lit. cbn [cat fold_right rmatch].
  do 2 f_equal. rewrite !rev_app_distr, <- !app_assoc. reflexivity.
Qed.

Lemma http_verb_match (verb : str) k (b r : str) g :
  http_verb verb ->
  rmatch (Alt (Lit "GET") (Alt (Lit "POST") (Alt (Lit "PUT") (Lit "DELETE"))))
    k (MState b (verb ++ r) g)
  = k (MState (rev verb ++ b) r g).
Proof.
  intros [->|[->|[->| ->]]]; cbn [rmatch];
    repeat (rewrite (eat_fail _ (MState b _ g)) by reflexivity);
    rewrite eat_prefix; now destruct (k _).
Qed.

Lemma http_call_match (b verb path w1 w2 name post : str) :
  http_verb verb ->
  path <> [] -> forallb (fun c => negb (Ascii.eqb c dq)) path = true ->
  forallb is_space w1 = true ->
  forallb is_space w2 = true ->
  forallb (fun c => negb (Ascii.eqb c nl)) w2 = true ->
  name <> [] -> forallb is_word name = true ->
  stops is_word post = true ->
  match_here http_call_pattern b (http_call verb path w1 w2 name ++ post)
  = Some (MState (rev (http_call verb path w1 w2 name) ++ b) post
            [(3%nat, name); (2%nat, path); (1%nat, verb)]).
Proof.
  intros Hverb Hp Hpath Hw1 Hw2 Hnl Hn Hname Hpost.
  unfold match_here, http_call_pattern, http_call.
  rewrite <- !app_assoc.
  rewrite rmatch_cat_cons, rmatch_lit, rmatch_cat_cons, rmatch_group.
  rewrite http_verb_match by assumption.
  unfold capture. cbn [rest before groups]. rewrite firstn_consumed.
  rewrite rmatch_cat_cons, rmatch_lit, rmatch_cat_cons, rmatch_lit.
  rewrite rmatch_cat_cons, rmatch_group.
  apply rmatch_plus_class; [assumption|assumption| |].
  { cbn [app stops]. now rewrite Ascii.eqb_refl. }
  unfold capture. cbn [rest before groups]. rewrite firstn_consumed.
  rewrite rmatch_cat_cons, rmatch_lit, rmatch_cat_cons, rmatch_lit.
  rewrite rmatch_cat_cons, rmatch_star. cbn [rest].
  change ([nl] ++ w2 ++ "suspend fun " ++ name ++ post)
    with (([nl] ++ w2) ++ "suspend fun " ++ name ++ post).
  assert (A1 : forallb is_space ([nl] ++ w2) = true)
    by (cbn [app forallb]; rewrite Hw2; reflexivity).
  apply (star_class_split is_space _ w1 ([nl] ++ w2)
           ("suspend fun " ++ name ++ post) Hw1 A1 eq_refl).
  - rewrite !length_app. lia.
  - intros u v E Hu. rewrite rmatch_cat_cons. apply rmatch_lit_fail.
    cbn [rest]. destruct u as [|c u]; [congruence|].
    cbn [app] in E. injection E as _ E. subst w2.
    rewrite forallb_app in Hnl. apply andb_prop in Hnl as [_ Hv].
    destruct v as [|x v]; [reflexivity|].
    cbn [forallb] in Hv. apply andb_prop in Hv as [Hx _].
    cbn [app startswith]. apply negb_true_iff in Hx.
    rewrite Ascii.eqb_sym, Hx. reflexivity.
  - rewrite <- app_assoc.
    rewrite rmatch_cat_cons, rmatch_lit, rmatch_cat_cons.
    apply rmatch_star_class; [assumption|reflexivity|].
    rewrite rmatch_cat_cons, rmatch_lit, rmatch_cat_cons, rmatch_group.
    apply rmatch_plus_class; try assumption.
    unfold capture. cbn [rest before groups]. rewrite firstn_consumed.
    cbn [cat fold_right rmatch].
    do 2 f_equal. rewrite !rev_app_distr, <- !app_assoc. reflexivity.
Qed.

(** ** The three substitutions of [fix_api_client_paths] *)

Lemma http_call_between (p : piece) :
  is_http_call p ->
  matches_between (fun _ => true) (stops is_word) http_call_pattern p.
Proof.
  intros (verb & path & w1 & w2 & name & Hverb & Hp & Hpath & Hw1 & Hw2
          & Hnl & Hn & Hname & Hm & Hc).
  split.
  - rewrite Hm. discriminate.
  - intros b s _ Hs. rewrite Hm, Hc. now apply http_call_match.
Qed.

Lemma http_calls_replaced repl (l : list piece) (tail : str) :
  http_call_matches l tail ->
  re_sub http_call_pattern repl (pieces_text l tail)
  = replaced repl [] l tail.
Proof.
  intros (F & Hs & Hf).
  apply (re_sub_between (fun _ => true) (stops is_word)); try assumption.
  - eapply Forall_impl; [|exact F]. apply http_call_between.
  - apply preceded_always.
Qed.

Lemma api_interface_anywhere (p : piece) :
  is_api_interface p -> matches_anywhere api_interface_pattern p.
Proof.
  intros (ws & base & ws' & Hws & Hs & Hbase & Hw & Hs' & Hm & Hc). split.
  - rewrite Hm. discriminate.
  - intros b s. rewrite Hm, Hc. now apply api_interface_match.
Qed.

Lemma api_interfaces_replaced repl (l : list piece) (tail : str) :
  api_interface_matches l tail ->
  re_sub api_interface_pattern repl (pieces_text l tail)
  = replaced repl [] l tail.
Proof.
  intros [F Hs]. apply re_sub_anywhere; [|assumption].
  eapply Forall_impl; [|exact F]. apply api_interface_anywhere.
Qed.

Lemma retrofit_create_anywhere (p : piece) :
  is_retrofit_create p -> matches_anywhere retrofit_create_pattern p.
Proof.
  intros (base & Hbase & Hw & Hm & Hc). split.
  - rewrite Hm. discriminate.
  - intros b s. rewrite Hm, Hc. now apply retrofit_create_match.
Qed.

Lemma retrofit_creates_replaced repl (l : list piece) (tail : str) :
  retrofit_create_matches l tail ->
  re_sub retrofit_create_pattern repl (pieces_text l tail)
  = replaced repl [] l tail.
Proof.
  intros [F Hs]. apply re_sub_anywhere; [|assumption].
  eapply Forall_impl; [|exact F]. apply retrofit_create_anywhere.
Qed.

(** X13. Of a file that consists of annotated calls ([@GET], [@POST],
    [@PUT] or [@DELETE] with a quoted non-empty path in parentheses, white
    space with a line break, and [suspend fun] with a name of word
    characters), each followed by a text that does not go on with a word
    character, behind a gap in which no match of the call pattern starts,
    and a tail in which none starts, [fix_api_client_paths] deletes every
    annotation and the white space behind it, the indentation of [suspend]
    included, keeps [suspend fun] with the name, and keeps the gaps and the
    tail; this where neither the interface pattern nor the
    [retrofit.create] pattern matches anywhere in that outcome. *)
Theorem http_annotations_removed (calls : list piece) (tail : str) :
  http_call_matches calls tail ->
  quiet api_interface_pattern []
    (replaced (fun _ gs => "suspend fun " ++ group 3 gs) [] calls tail)
  = true ->
  quiet retrofit_create_pattern []
    (replaced (fun _ gs => "suspend fun " ++ group 3 gs) [] calls tail)
  = true ->
  fix_api_client_paths (pieces_text calls tail)
  = replaced (fun _ gs => "suspend fun " ++ group 3 gs) [] calls tail.
Proof.
  intros Hc Hi Hr. unfold fix_api_client_paths.
  rewrite http_calls_replaced by assumption.
  rewrite (re_sub_quiet api_interface_pattern) by assumption.
  now apply re_sub_quiet.
Qed.

Lemma calls_file_calls : http_call_matches (fst calls_file) (snd calls_file).
Proof.
  split; [|split; vm_compute; reflexivity].
  constructor; [|constructor; [|constructor]].
  - exists "GET", "/status", [], "    ", "status".
    repeat split; try discriminate; try reflexivity. now left.
  - exists "DELETE", "/key", ("  " ++ [nl]), [], "remove_key".
    repeat split; try discriminate; try reflexivity. now right; right; right.
Qed.

Lemma http_annotations_removed_witness :
  fix_api_client_paths
    ("    @GET(" ++ [dq] ++ "/status" ++ [dq] ++ ")" ++ [nl]
       ++ "    suspend fun status(): Status" ++ [nl]
       ++ "    @DELETE(" ++ [dq] ++ "/key" ++ [dq] ++ ")  " ++ [nl] ++ [nl]
       ++ "suspend fun remove_key(id: Int)")
  = "    suspend fun status(): Status" ++ [nl]
      ++ "    suspend fun remove_key(id: Int)".
Proof.
  refine (eq_trans
            (http_annotations_removed (fst calls_file) (snd calls_file)
               calls_file_calls _ _) _);
    vm_compute; reflexivity.
Defined.

(** X14. [fix_api_client_paths] goes through the file three times.  After
    the annotated calls are rewritten as in X13, where the outcome consists
    of texts [interface NameApi {] ([interface], white space, a name that
    ends in [Api] after at least one further character, optional white space
    and an opening brace), each behind a gap in which no match of the
    interface pattern starts, and a tail in which none starts, it writes
    [interface NearJsonRpcApi {] in the place of each; and where that
    outcome consists in the same way of texts
    [retrofit.create(NameApi::class.java)], it writes
    [retrofit.create(NearJsonRpcApi::class.java)] in the place of each.
    Gaps and tail are kept. *)
Theorem api_names_replaced (calls interfaces creates : list piece)
    (tail tail' tail'' : str) :
  http_call_matches calls tail ->
  replaced (fun _ gs => "suspend fun " ++ group 3 gs) [] calls tail
  = pieces_text interfaces tail' ->
  api_interface_matches interfaces tail' ->
  replaced (fun _ _ => "interface NearJsonRpcApi {") [] interfaces tail'
  = pieces_text creates tail'' ->
  retrofit_create_matches creates tail'' ->
  fix_api_client_paths (pieces_text calls tail)
  = replaced (fun _ _ => "retrofit.create(NearJsonRpcApi::class.java)") []
      creates tail''.
Proof.
  intros Hc E1 Hi E2 Hr. unfold fix_api_client_paths.
  rewrite http_calls_replaced by assumption. rewrite E1.
  rewrite api_interfaces_replaced by assumption. rewrite E2.
  now apply retrofit_creates_replaced.
Qed.

Lemma api_names_replaced_witness :
  fix_api_client_paths
    (pieces_text (fst client_file) (snd client_file))
  = "interface NearJsonRpcApi {" ++ [nl]
      ++ "    suspend fun status(): Status" ++ [nl]
      ++ "    suspend fun block(id: Int): Block" ++ [nl] ++ "}" ++ [nl]
      ++ "val api = retrofit.create(NearJsonRpcApi::class.java)".
Proof.
  refine (eq_trans
            (api_names_replaced
               (fst client_file) (fst client_file_interfaces)
               (fst client_file_creates)
               (snd client_file) (snd client_file_interfaces)
               (snd client_file_creates) _ _ _ _ _) _).
  - split; [|split; vm_compute; reflexivity].
    constructor; [|constructor; [|constructor]].
    + exists "POST", "/status", [], "    ", "status".
      repeat split; try discriminate; try reflexivity. now right; left.
    + exists "GET", "/block", (" " ++ [nl]), "  ", "block".
      repeat split; try discriminate; try reflexivity. now left.
  - vm_compute. reflexivity.
  - split; [|vm_compute; reflexivity].
    constructor; [|constructor].
    exists " ", "Default", " ".
    repeat split; try discriminate; try reflexivity.
  - vm_compute. reflexivity.
  - split; [|vm_compute; reflexivity].
    constructor; [|constructor].
    exists "Default". repeat split; try discriminate; try reflexivity.
  - vm_compute. reflexivity.
Defined.

(** ** [convert_kotlin_file] *)

Lemma lower_not_space (c : ascii) : is_lower c = true -> is_space c = false.
Proof. each_char c; vm_compute; congruence. Qed.

Lemma serial_property_match (b name ws1 ws2 current post : str) :
  name <> [] -> forallb (fun c => negb (Ascii.eqb c dq)) name = true ->
  ws1 <> [] -> forallb is_space ws1 = true ->
  ws2 <> [] -> forallb is_space ws2 = true ->
  current <> [] -> forallb is_word current = true ->
  match_here serial_property_pattern b
    (serial_property name ws1 ws2 current ++ post)
  = Some (MState (rev (serial_property name ws1 ws2 current) ++ b) post
            [(2%nat, current); (1%nat, name)]).
Proof.
  intros Hn Hname Hw1 Hs1 Hw2 Hs2 Hc Hcur.
  unfold match_here, serial_property_pattern, serial_property, serial_name.
  rewrite <- !app_assoc.
  rewrite rmatch_cat_cons, rmatch_lit, rmatch_cat_cons, rmatch_lit.
  rewrite rmatch_cat_cons, rmatch_group.
  apply rmatch_plus_class; [assumption|assumption| |].
  { cbn [app stops]. now rewrite Ascii.eqb_refl. }
  unfold capture. cbn [rest before groups]. rewrite firstn_consumed.
  rewrite rmatch_cat_cons, rmatch_lit, rmatch_cat_cons, rmatch_lit.
  rewrite rmatch_cat_cons.
  apply rmatch_plus_class; [assumption|assumption|reflexivity|].
  rewrite rmatch_cat_cons, rmatch_lit, rmatch_cat_cons.
  apply rmatch_plus_class; try assumption.
  { destruct current as [|c current]; [congruence|].
    cbn [forallb] in Hcur. apply andb_prop in Hcur as [Hx _].
    cbn [app stops]. now rewrite (word_not_space c Hx). }
  rewrite rmatch_cat_cons, rmatch_group.
  apply rmatch_plus_class; [assumption|assumption|reflexivity|].
  unfold capture. cbn [rest before groups]. rewrite firstn_consumed.
  rewrite rmatch_cat_cons, rmatch_lit. cbn [cat fold_right rmatch].
  do 2 f_equal. rewrite !rev_app_distr, <- !app_assoc. reflexivity.
Qed.

Lemma function_match (b ws first others post : str) :
  ws <> [] -> forallb is_space ws = true ->
  first <> [] -> forallb is_lower first = true ->
  others <> [] -> forallb is_lower_or_underscore others = true ->
  stops is_lower_or_underscore post = true ->
  match_here function_pattern b (snake_function ws first others ++ post)
  = Some (MState (rev (snake_function ws first others) ++ b) post
            [(1%nat, first ++ "_" ++ others)]).
Proof.
  intros Hw Hs Hf Hfirst Ho Hothers Hpost.
  unfold match_here, function_pattern, snake_function.
  rewrite <- !app_assoc.
  rewrite rmatch_cat_cons, rmatch_lit, rmatch_cat_cons.
  apply rmatch_plus_class; try assumption.
  { destruct first as [|c first]; [congruence|].
    cbn [forallb] in Hfirst. apply andb_prop in Hfirst as [Hx _].
    cbn [app stops]. now rewrite (lower_not_space c Hx). }
  rewrite rmatch_cat_cons, rmatch_group, rmatch_cat_cons.
  apply rmatch_plus_class; [assumption|assumption|reflexivity|].
  rewrite rmatch_cat_cons, rmatch_lit, rmatch_cat_cons.
  apply rmatch_plus_class; try assumption.
  cbn [cat fold_right rmatch]. unfold capture. cbn [rest before groups].
  replace (first ++ "_" ++ others ++ post)
    with ((first ++ "_" ++ others) ++ post) by (now rewrite <- !app_assoc).
  rewrite firstn_consumed.
  do 2 f_equal. rewrite !rev_app_distr, <- !app_assoc. reflexivity.
Qed.

Lemma serial_property_anywhere (p : piece) :
  is_serial_property p -> matches_anywhere serial_property_pattern p.
Proof.
  intros (name & ws1 & ws2 & current & Hn & Hname & Hw1 & Hs1 & Hw2 & Hs2
          & Hc & Hcur & Hm & Hg).
  split.
  - rewrite Hm. discriminate.
  - intros b s. rewrite Hm, Hg. now apply serial_property_match.
Qed.

Lemma serial_properties_replaced repl (l : list piece) (tail : str) :
  serial_property_matches l tail ->
  re_sub serial_property_pattern repl (pieces_text l tail)
  = replaced repl [] l tail.
Proof.
  intros [F Hs]. apply re_sub_anywhere; [|assumption].
  eapply Forall_impl; [|exact F]. apply serial_property_anywhere.
Qed.

Lemma snake_function_between (p : piece) :
  is_snake_function p ->
  matches_between (fun _ => true) (stops is_lower_or_underscore)
    function_pattern p.
Proof.
  intros (ws & first & others & Hw & Hs & Hf & Hfirst & Ho & Hothers
          & Hm & Hc).
  split.
  - rewrite Hm. discriminate.
  - intros b s _ Hpost. rewrite Hm, Hc. now apply function_match.
Qed.

Lemma snake_functions_replaced repl (l : list piece) (tail : str) :
  snake_function_matches l tail ->
  re_sub function_pattern repl (pieces_text l tail)
  = replaced repl [] l tail.
Proof.
  intros (F & Hs & Hf).
  apply (re_sub_between (fun _ => true) (stops is_lower_or_underscore));
    try assumption.
  - eapply Forall_impl; [|exact F]. apply snake_function_between.
  - apply preceded_always.
Qed.

Section ConvertKotlinFile.
Context {titling : Titling}.

(** X15. Of a file that consists of annotated properties ([@SerialName]
    with a quoted non-empty name, white space, [val], white space, an
    identifier and a colon), each behind a gap in which no match of the
    pattern starts, and a tail in which none starts, [convert_kotlin_file]
    keeps every annotation, puts a line break and four spaces behind it
    whatever the white space was, and names the property by the camel-case
    form of the serialized name, whatever its current name was; the gaps
    and the tail are kept.  This where the function pattern matches nowhere
    in that outcome. *)
Theorem serial_properties_renamed (properties : list piece) (tail : str) :
  serial_property_matches properties tail ->
  quiet function_pattern []
    (replaced
       (fun _ gs =>
          serial_name (group 1 gs) ++ [nl] ++ "    val "
            ++ snake_to_camel (group 1 gs) ++ ":")
       [] properties tail) = true ->
  convert_kotlin_file (pieces_text properties tail)
  = replaced
      (fun _ gs =>
         serial_name (group 1 gs) ++ [nl] ++ "    val "
           ++ snake_to_camel (group 1 gs) ++ ":")
      [] properties tail.
Proof.
  intros Hp Hq. unfold convert_kotlin_file.
  rewrite serial_properties_replaced by assumption.
  now apply re_sub_quiet.
Qed.

(** X16. [convert_kotlin_file] goes through the file twice.  After the
    annotated properties are rewritten as in X15, where the outcome consists
    of texts [fun name] ([fun], white space and a name made of a lower-case
    word, an underscore and a run of lower-case letters and underscores),
    each followed by a text that does not go on with a lower-case letter or
    an underscore, behind a gap in which no match of the function pattern
    starts, and a tail in which none starts, it writes [fun], one
    space and the camel-case form of the name in the place of each and keeps
    the gaps and the tail.  A file with neither [@SerialName(] nor an
    underscore is written back as it was read. *)
Theorem snake_functions_renamed :
  (forall (properties functions : list piece) (tail tail' : str),
     serial_property_matches properties tail ->
     replaced
       (fun _ gs =>
          serial_name (group 1 gs) ++ [nl] ++ "    val "
            ++ snake_to_camel (group 1 gs) ++ ":")
       [] properties tail
     = pieces_text functions tail' ->
     snake_function_matches functions tail' ->
     convert_kotlin_file (pieces_text properties tail)
     = replaced (fun _ gs => "fun " ++ snake_to_camel (group 1 gs)) []
         functions tail')
  /\ (forall content : str,
        contains "@SerialName(" content = false ->
        contains "_" content = false ->
        convert_kotlin_file content = content).
Proof.
  split.
  - intros properties functions tail tail' Hp E Hf.
    unfold convert_kotlin_file.
    rewrite serial_properties_replaced by assumption.
    change (replaced replace_serial_property [] properties tail)
      with (replaced
              (fun _ gs =>
                 serial_name (group 1 gs) ++ [nl] ++ "    val "
                   ++ snake_to_camel (group 1 gs) ++ ":")
              [] properties tail).
    rewrite E. now apply snake_functions_replaced.
  - intros content Hs Hu. unfold convert_kotlin_file.
    rewrite (re_sub_without "@SerialName(" serial_property_pattern)
      by (reflexivity || assumption).
    now apply (re_sub_without "_").
Qed.

End ConvertKotlinFile.

Lemma properties_file_properties :
  Forall is_serial_property (fst properties_file).
Proof.
  constructor; [|constructor; [|constructor]].
  - exists "block_hash", " ", "  ", "hash".
    repeat split; try discriminate; try reflexivity.
  - exists "account_id", [nl], " ", "account_id".
    repeat split; try discriminate; try reflexivity.
Qed.

Lemma serial_properties_renamed_witness :
  @convert_kotlin_file titling_7bit
    (pieces_text (fst properties_file) (snd properties_file))
  = "class A(" ++ serial_name "block_hash" ++ [nl]
      ++ "    val blockHash: String," ++ [nl]
      ++ serial_name "account_id" ++ [nl]
      ++ "    val accountId: String)".
Proof.
  refine (eq_trans
            (@serial_properties_renamed titling_7bit
               (fst properties_file) (snd properties_file)
               (conj properties_file_properties _) _) _);
    vm_compute; reflexivity.
Defined.

Lemma snake_functions_renamed_witness :
  @convert_kotlin_file titling_7bit
    (pieces_text (fst model_file) (snd model_file))
  = "class A(" ++ serial_name "block_hash" ++ [nl]
      ++ "    val blockHash: String," ++ [nl]
      ++ serial_name "account_id" ++ [nl]
      ++ "    val accountId: String) { fun getBlockHeader(): Int; "
      ++ "fun isFinal(): Int }".
Proof.
  refine (eq_trans
            (proj1 (@snake_functions_renamed titling_7bit)
               (fst model_file) (fst model_file_functions)
               (snd model_file) (snd model_file_functions)
               (conj properties_file_properties _) _ _) _).
  - vm_compute. reflexivity.
  - vm_compute. reflexivity.
  - split; [|split; vm_compute; reflexivity].
    constructor; [|constructor; [|constructor]].
    + exists " ", "get", "block_header".
      repeat split; try discriminate; try reflexivity.
    + exists "  ", "is", "final_".
      repeat split; try discriminate; try reflexivity.
  - vm_compute. reflexivity.
Defined.

(** ** The whole of [fix_openapi_spec] *)

Lemma nullable_marked_set (k : str) (v : json) (d : dict) :
  "type" <> k -> "nullable" <> k -> "x-nullable" <> k ->
  nullable_marked (JObj d) = true -> nullable_marked v = true ->
  nullable_marked (JObj (dict_set k v d)) = true.
Proof.
  intros K1 K2 K3 Hd Hv. rewrite nullable_marked_obj in *.
  apply andb_prop in Hd as [Hf Ha].
  assert (F : nullable_flag (dict_set k v d) = nullable_flag d).
  { unfold nullable_flag.
    now rewrite !dict_has_set_other, dict_get_set_other by assumption. }
  rewrite F, dict_get_set_other by assumption. rewrite Hf. cbn [andb].
  now apply forallb_set.
Qed.

Lemma nullable_marked_get (k : str) (v : json) (d : dict) :
  nullable_marked (JObj d) = true -> dict_get k d = Some v ->
  nullable_marked v = true.
Proof.
  rewrite nullable_marked_obj. intros H G.
  apply andb_prop in H as [_ Ha]. rewrite forallb_forall in Ha.
  apply (Ha (k, v)). now apply dict_get_In.
Qed.

Lemma add_enum_varnames_inv (s s' : json) :
  add_enum_varnames s = Ok s' ->
  s' = s
  \/ exists d names,
       s = JObj d /\ dict_has "enum" d = true
       /\ s' = JObj (dict_set "x-enum-varnames" (JArr (map JStr names)) d).
Proof.
  unfold add_enum_varnames. intros H.
  destruct s as [| | | |t|l|d]; cbn [py_in bind] in H; try discriminate.
  - destruct (contains "enum" t); [discriminate|]. injection H as <-. now left.
  - destruct (existsb (is_str "enum") l); [discriminate|].
    injection H as <-. now left.
  - destruct (dict_has "enum" d) eqn:He; [|injection H as <-; now left].
    unbind H as e Ee. unbind H as vals Ev. unbind H as names En.
    cbn [py_setitem] in H. injection H as <-. right. now exists d, names.
Qed.

Lemma add_enum_varnames_marked (s s' : json) :
  add_enum_varnames s = Ok s' ->
  nullable_marked s = true ->
  nullable_marked s' = true /\ truthy s' = truthy s.
Proof.
  intros H Hm. apply add_enum_varnames_inv in H as [->|(d & names & -> & He & ->)];
    [auto|]. split.
  - apply nullable_marked_set; try discriminate; [assumption|].
    rewrite nullable_marked_arr, forallb_map_in.
    now apply forallb_forall.
  - rewrite dict_set_nonempty. destruct d; [discriminate|reflexivity].
Qed.

Lemma renamed_get (sd new : dict) (k : str) :
  Forall2 (fun e e' => (s <- add_enum_varnames (snd e) ;; Ok (fst e, s))
                        = Ok e') sd new ->
  match dict_get k sd with
  | Some v => exists v', add_enum_varnames v = Ok v' /\ dict_get k new = Some v'
  | None => dict_get k new = None
  end.
Proof.
  induction 1 as [|[k0 v0] [k1 v1] t t' He _ IH]; [reflexivity|].
  cbn [fst snd] in He. unbind He as s Es. injection He as <- <-.
  cbn [dict_get]. destruct (str_eqb k0 k); [eauto|exact IH].
Qed.

Lemma fix_enum_naming_marked (spec spec' : json) :
  fix_enum_naming spec = Ok spec' ->
  nullable_marked spec = true -> nullable_marked spec' = true.
Proof.
  unfold fix_enum_naming. intros H Hm.
  destruct spec as [| | | |t|l|d]; cbn [py_in bind] in H; try discriminate.
  - destruct (contains "components" t); [discriminate|]. now injection H as <-.
  - destruct (existsb (is_str "components") l); [discriminate|].
    now injection H as <-.
  - destruct (dict_has "components" d); [|now injection H as <-].
    unbind H as components Ec. cbn [py_getitem] in Ec.
    destruct (dict_get "components" d) as [c0|] eqn:Gc; [|discriminate].
    injection Ec as <-.
    unbind H as has_schemas Es.
    destruct has_schemas; [|now injection H as <-].
    unbind H as schemas Eg. unbind H as sd Ei. unbind H as new En.
    injection H as <-.
    destruct c0 as [| | | | | |c]; try discriminate.
    cbn [py_getitem] in Eg.
    destruct (dict_get "schemas" c) as [sch|] eqn:Gs; [|discriminate].
    injection Eg as <-.
    destruct sch as [| | | | | |sd0]; try discriminate.
    cbn [py_items] in Ei. injection Ei as <-.
    cbn [store_schemas]. rewrite Gc, Gs.
    pose proof (nullable_marked_get _ _ _ Hm Gc) as Hc.
    pose proof (nullable_marked_get _ _ _ Hc Gs) as Hs.
    apply mapM_ok in En.
    apply nullable_marked_set; try discriminate; [assumption|].
    apply nullable_marked_set; try discriminate; [assumption|].
    rewrite nullable_marked_obj in *. apply andb_prop in Hs as [Hf Ha].
    apply andb_true_intro. split.
    + destruct (nullable_flag new) eqn:F; [|reflexivity].
      unfold nullable_flag, dict_has in F, Hf.
      pose proof (renamed_get sd0 new "type" En) as Rt.
      pose proof (renamed_get sd0 new "nullable" En) as Rn.
      pose proof (renamed_get sd0 new "x-nullable" En) as Rx.
      destruct (dict_get "type" sd0) as [vt|];
        [destruct Rt as (vt' & _ & Rt)|]; rewrite Rt in F;
        [|discriminate].
      destruct (dict_get "nullable" sd0) as [vn|] eqn:Gn;
        [destruct Rn as (vn' & Rn' & Rn)|]; rewrite Rn in F;
        [|discriminate].
      cbn [andb] in F, Hf.
      assert (Hvn : nullable_marked vn = true).
      { rewrite forallb_forall in Ha.
        apply (Ha ("nullable", vn)). now apply dict_get_In. }
      destruct (add_enum_varnames_marked _ _ Rn' Hvn) as [_ T].
      rewrite <- T, F in Hf.
      destruct (dict_get "x-nullable" sd0) as [[|[|]| | | | |]|];
        try discriminate.
      destruct Rx as (vx & Rx & _). discriminate.
    + clear -En Ha. induction En as [|[k0 v0] [k1 v1] t t' He _ IH];
        [reflexivity|].
      cbn [forallb snd fst] in *. apply andb_prop in Ha as [H1 H2].
      unbind He as s Es. injection He as _ <-.
      destruct (add_enum_varnames_marked _ _ Es H1) as [-> _]. now apply IH.
Qed.

Lemma truthy_add_descriptions (v : json) (path : str) :
  truthy (add_descriptions v path) = truthy v.
Proof.
  destruct v as [| | | | |l|d]; try reflexivity.
  - rewrite add_descriptions_arr. now destruct l.
  - rewrite add_descriptions_obj. unfold with_description.
    destruct (needs_description d) eqn:N.
    + rewrite dict_set_nonempty. destruct d; [discriminate|reflexivity].
    + now destruct d.
Qed.

Lemma nullable_flag_described (path : str) (d : dict) :
  nullable_flag (with_description path d (describe_values path d))
  = nullable_flag d.
Proof.
  assert (V : nullable_flag (describe_values path d) = nullable_flag d).
  { unfold nullable_flag.
    rewrite !dict_has_describe_values, dict_get_describe_values.
    destruct (dict_get "nullable" d); cbn [option_map];
      now rewrite ?truthy_add_descriptions. }
  unfold with_description. destruct (needs_description d); [|exact V].
  rewrite <- V. unfold nullable_flag.
  now rewrite !dict_has_set_other, dict_get_set_other by discriminate.
Qed.

Lemma add_descriptions_marked (v : json) :
  forall path,
    nullable_marked v = true ->
    nullable_marked (add_descriptions v path) = true.
Proof.
  induction v as [| | | | |l IH|d IH] using json_ind; intros path H;
    try exact H.
  - rewrite add_descriptions_arr, nullable_marked_arr in *.
    generalize 0%nat. revert H.
    induction IH as [|x t Hx _ IHt]; intros H i; [reflexivity|].
    cbn [describe_items forallb] in *. apply andb_prop in H as [H1 H2].
    rewrite Hx by assumption. now apply IHt.
  - rewrite add_descriptions_obj, nullable_marked_obj in *.
    rewrite nullable_flag_described. apply andb_prop in H as [Hf Ha].
    assert (A : forallb (fun e => nullable_marked (snd e))
                  (describe_values path d) = true).
    { clear Hf. induction IH as [|[k x] t Hx _ IHt]; [reflexivity|].
      cbn [describe_values map forallb fst snd] in *.
      apply andb_prop in Ha as [H1 H2].
      rewrite Hx by assumption. now apply IHt. }
    apply andb_true_intro. split.
    + destruct (nullable_flag d); [|reflexivity].
      destruct (dict_get "x-nullable" d) as [[|[|]| | | | |]|] eqn:G;
        try discriminate.
      unfold with_description. destruct (needs_description d);
        rewrite ?dict_get_set_other by discriminate;
        now rewrite dict_get_describe_values, G.
    + unfold with_description. destruct (needs_description d); [|exact A].
      now apply forallb_set.
Qed.

(** X17. Whenever [fix_openapi_spec] returns, the document it writes has both
    properties of its passes at once: every dictionary with [properties] has
    a [description], and every dictionary with [type] and a true [nullable]
    has [x-nullable] set to [True]; the enum naming and the descriptions,
    which come later, do not undo the nullable marks. *)
Theorem fix_openapi_spec_outcome (spec spec' : json) :
  fix_openapi_spec spec = Ok spec' ->
  described spec' = true /\ nullable_marked spec' = true.
Proof.
  unfold fix_openapi_spec. intros H.
  unbind H as s1 E1. unbind H as s2 E2. injection H as <-. split.
  - apply add_descriptions_sound.
  - apply add_descriptions_marked.
    apply (fix_enum_naming_marked _ _ E2), fix_nullable_types_marked.
Qed.

Lemma fix_openapi_spec_outcome_witness :
  exists spec',
    fix_openapi_spec finality_document = Ok spec'
    /\ described spec' = true /\ nullable_marked spec' = true
    /\ at_path [Key "components"; Key "schemas"; Key "Finality";
                Key "x-enum-varnames"] spec'
       = Some (JArr [JStr "FINAL"; JStr "NEAR_FINAL"]).
Proof.
  destruct (fix_openapi_spec finality_document) as [spec'|e] eqn:E;
    [|vm_compute in E; discriminate].
  exists spec'. split; [reflexivity|].
  destruct (fix_openapi_spec_outcome finality_document spec' E) as [D M].
  split; [exact D|]. split; [exact M|].
  vm_compute in E. injection E as <-. vm_compute. reflexivity.
Defined.

(** ** Collapsing a collapsed document *)

(** X18. On a document whose path table is a dictionary of dictionaries the
    collapsing step returns, and so does a second run on its outcome.  The
    second run finds the one path [/] of the first, whose stripped name is
    empty, and records the whole operation of the first run under the empty
    method name: the new method table has that single entry, the methods of
    the first run are found one level further down, and no method name other
    than the empty one is in the table any more. *)
Theorem collapse_paths_again (d paths : dict) :
  dict_get "paths" d = Some (JObj paths) ->
  Forall (fun e => exists item, snd e = JObj item) paths ->
  exists methods once twice,
    collapse_paths (JObj d) = Ok once
    /\ methods_of once = Ok methods
    /\ collapse_paths once = Ok twice
    /\ methods_of twice = Ok [([], jsonrpc_operation methods)]
    /\ at_path [Key "paths"; Key "/"; Key "post"; Key "x-methods"; Key [];
                Key "x-methods"] twice = Some (JObj methods)
    /\ (forall m, m <> [] ->
          dict_get m [([], jsonrpc_operation methods)] = None)
    /\ twice
       = JObj (dict_set "paths"
                 (collapsed_paths [([], jsonrpc_operation methods)]) d).
Proof.
  intros Hp Hitems.
  set (methods := fold_left record_post paths []).
  set (once := JObj (dict_set "paths" (collapsed_paths methods) d)).
  set (twice := JObj (dict_set "paths"
                        (collapsed_paths [([], jsonrpc_operation methods)])
                        d)).
  assert (E1 : collapse_paths (JObj d) = Ok once).
  { unfold collapse_paths, py_in, py_getitem, dict_has. cbn [bind].
    rewrite Hp. cbn [bind py_items].
    rewrite collect_methods_fold by assumption. reflexivity. }
  assert (E2 : collapse_paths once = Ok twice).
  { unfold once, collapse_paths, py_in, py_getitem, dict_has. cbn [bind].
    rewrite dict_get_set_same. unfold collapsed_paths at 1.
    cbn [bind py_items].
    rewrite collect_methods_fold
      by (constructor; [eexists; reflexivity|constructor]).
    cbn [bind py_setitem]. rewrite dict_set_twice. reflexivity. }
  assert (M : forall ms,
            methods_of (JObj (dict_set "paths" (collapsed_paths ms) d))
            = Ok ms).
  { intros ms. unfold methods_of. simpl. rewrite dict_get_set_same.
    reflexivity. }
  exists methods, once, twice.
  split; [exact E1|]. split; [apply M|]. split; [exact E2|].
  split; [apply M|]. split; [|split; [|reflexivity]].
  - unfold twice. cbn [at_path]. rewrite dict_get_set_same. reflexivity.
  - intros m Hm. cbn [dict_get].
    destruct (str_eqb [] m) eqn:E; [|reflexivity].
    apply str_eqb_eq in E. congruence.
Qed.

Lemma collapse_paths_again_witness :
  exists methods once twice,
    collapse_paths two_path_document = Ok once
    /\ methods_of once = Ok methods
    /\ collapse_paths once = Ok twice
    /\ methods_of twice = Ok [([], jsonrpc_operation methods)]
    /\ methods = [("status", JObj [("summary", JStr "s")])].
Proof.
  destruct (collapse_paths_again
              [("openapi", JStr "3.0.0");
               ("paths",
                 JObj [("/status", JObj [("post", JObj [("summary", JStr "s")])]);
                       ("/health", JObj [("get", JObj [])])])]
              [("/status", JObj [("post", JObj [("summary", JStr "s")])]);
               ("/health", JObj [("get", JObj [])])]
              eq_refl
              ltac:(constructor;
                      [eexists; reflexivity
                      |constructor; [eexists; reflexivity|constructor]]))
    as (methods & once & twice & E1 & M1 & E2 & M2 & _).
  exists methods, once, twice.
  split; [exact E1|]. split; [exact M1|]. split; [exact E2|].
  split; [exact M2|].
  vm_compute in E1. injection E1 as <-. vm_compute in M1.
  injection M1 as <-. vm_compute. reflexivity.
Defined.

(** ** Documents the collapsing step does not take *)

Lemma collect_methods_raise (items : dict) (acc : dict) (path : str)
    (item : json) (rest_items : dict) :
  Forall (fun e => exists i, snd e = JObj i) items ->
  py_in "post" item = Err TypeError ->
  foldM collect_method (items ++ (path, item) :: rest_items) acc
  = Err TypeError.
Proof.
  intros H Hitem. revert acc.
  induction H as [|[p v] t [i Hv] _ IH]; intros acc.
  - cbn [app foldM]. unfold collect_method. cbn [fst snd].
    now rewrite Hitem.
  - cbn [snd] in Hv. subst v. cbn [app foldM].
    rewrite collect_method_obj. cbn [bind]. apply IH.
Qed.

(** X19. A document without [paths] passes the collapsing step unchanged.  A
    [paths] value that is not a dictionary raises [AttributeError] at
    [items()], and a path item that is [None], a boolean or a number, behind
    path items that are dictionaries, raises [TypeError] at the test
    [in]; in both cases [fix_openapi_spec] raises the same exception, so
    nothing is written. *)
Theorem collapse_paths_rejects (d : dict) :
  (dict_has "paths" d = false -> collapse_paths (JObj d) = Ok (JObj d))
  /\ (forall v,
        dict_get "paths" d = Some v -> is_dict v = false ->
        collapse_paths (JObj d) = Err AttributeError
        /\ fix_openapi_spec (JObj d) = Err AttributeError)
  /\ (forall items path item rest_items,
        dict_get "paths" d
        = Some (JObj (items ++ (path, item) :: rest_items)) ->
        Forall (fun e => exists i, snd e = JObj i) items ->
        py_in "post" item = Err TypeError ->
        collapse_paths (JObj d) = Err TypeError
        /\ fix_openapi_spec (JObj d) = Err TypeError).
Proof.
  split; [|split].
  - intros H. unfold collapse_paths. cbn [py_in bind]. now rewrite H.
  - intros v Hv Hd.
    assert (E : collapse_paths (JObj d) = Err AttributeError).
    { unfold collapse_paths, py_in, py_getitem, dict_has. cbn [bind].
      rewrite Hv. cbn [bind]. destruct v; try reflexivity. discriminate. }
    split; [exact E|]. unfold fix_openapi_spec. now rewrite E.
  - intros items path item rest_items Hv Hitems Hitem.
    assert (E : collapse_paths (JObj d) = Err TypeError).
    { unfold collapse_paths, py_in, py_getitem, dict_has. cbn [bind].
      rewrite Hv. cbn [bind py_items].
      now rewrite (collect_methods_raise items [] path item rest_items). }
    split; [exact E|]. unfold fix_openapi_spec. now rewrite E.
Qed.
